(** * rapid: floating-point generators (floats.go) and the Filter combinator

    A shallow embedding of [floats.go] of the rapid property-testing
    engine.  Go's fixed-width integers are integers of [Z] with their
    wrap-around written out; a [float64] is its IEEE-754 bit pattern (the
    code itself works on [math.Float64bits]); the bit stream is threaded
    explicitly and a panic is an explicit outcome. *)

From Stdlib Require Import ZArith List String Bool Lia.
From Stdlib Require Import SpecFloat.
Import ListNotations.
Local Open Scope Z_scope.

(** ** Machine integers *)

Definition u64 (z : Z) : Z := z mod 2 ^ 64.
Definition i32 (z : Z) : Z := (z + 2 ^ 31) mod 2 ^ 32 - 2 ^ 31.
Definition i64 (z : Z) : Z := (z + 2 ^ 63) mod 2 ^ 64 - 2 ^ 63.

(** [x << n] and [x >> n] on [uint64]; Go gives 0 for a count of 64 or
    more. *)
Definition shl64 (x n : Z) : Z := if n <? 64 then u64 (Z.shiftl x n) else 0.
Definition shr64 (x n : Z) : Z := if n <? 64 then Z.shiftr x n else 0.

(** Modelled from the spec: [bitmask64] is declared outside [floats.go]; its
    uses there (the exponent bias [bitmask64(float64ExpBits-1)] and the
    significand mask [bitmask64(float64SignifBits)] of the "standard binary
    floating-point layout") fix it as the word with the [n] low bits set,
    [uint64(1)<<n - 1]. *)
Definition bitmask64 (n : Z) : Z := u64 (shl64 1 n - 1).

(** ** Floating-point numbers as bit patterns *)

Definition float64 := Z.
Definition float32 := Z.

Definition float32ExpBits : Z := 8.
Definition float32SignifBits : Z := 23.
Definition float64ExpBits : Z := 11.
Definition float64SignifBits : Z := 52.
Definition floatExpLabel : string := "floatexp".
Definition floatSignifLabel : string := "floatsignif".

Definition MaxInt64 : Z := 2 ^ 63 - 1.

(** [math.Float64bits(f) & math.MaxInt64]: the magnitude of [f]. *)
Definition fabs_bits (f : float64) : Z := Z.land f MaxInt64.
Definition fsign (f : float64) : bool := Z.testbit f 63.

Definition fInf_bits : Z := 2047 * 2 ^ 52.
Definition fisNaN (f : float64) : bool := fInf_bits <? fabs_bits f.

(** The position of a non-NaN value on the number line: IEEE-754 bit
    patterns of one sign are ordered like the numbers they encode, and
    the two zeros coincide. *)
Definition fkey (f : float64) : Z :=
  if fsign f then - fabs_bits f else fabs_bits f.

(** Go's [a <= b], [a < b], [a == b] on [float64]: false when a NaN is
    involved. *)
Definition fle (a b : float64) : bool :=
  negb (fisNaN a) && negb (fisNaN b) && (fkey a <=? fkey b).
Definition flt (a b : float64) : bool :=
  negb (fisNaN a) && negb (fisNaN b) && (fkey a <? fkey b).
Definition feq (a b : float64) : bool :=
  negb (fisNaN a) && negb (fisNaN b) && (fkey a =? fkey b).
Definition fge (a b : float64) : bool := fle b a.
Definition fgt (a b : float64) : bool := flt b a.

(** Go's unary minus on a [float64] flips the sign bit. *)
Definition fneg (f : float64) : float64 := Z.lxor f (2 ^ 63).

Definition fzero : float64 := 0.
Definition fone : float64 := 1023 * 2 ^ 52.
Definition MaxFloat64 : float64 := 2046 * 2 ^ 52 + (2 ^ 52 - 1).
(** [math.MaxFloat32] as a [float64]: exponent 127, 23 significand bits
    set. *)
Definition MaxFloat32 : float64 := (127 + 1023) * 2 ^ 52 + (2 ^ 23 - 1) * 2 ^ 29.

(** The same for [float32] bit patterns. *)
Definition f32abs_bits (f : float32) : Z := Z.land f (2 ^ 31 - 1).
Definition f32sign (f : float32) : bool := Z.testbit f 31.
Definition f32Inf_bits : Z := 255 * 2 ^ 23.
Definition f32isNaN (f : float32) : bool := f32Inf_bits <? f32abs_bits f.
Definition f32key (f : float32) : Z :=
  if f32sign f then - f32abs_bits f else f32abs_bits f.
Definition f32le (a b : float32) : bool :=
  negb (f32isNaN a) && negb (f32isNaN b) && (f32key a <=? f32key b).
Definition f32eq (a b : float32) : bool :=
  negb (f32isNaN a) && negb (f32isNaN b) && (f32key a =? f32key b).

(** ** ufloatFracBits and ufloatParts *)

(** [e] is an [int32], [signifBits] a [uint]. *)
Definition ufloatFracBits (e : Z) (signifBits : Z) : Z :=
  if e <=? 0 then signifBits
  else if u64 e <? signifBits then u64 (signifBits - u64 e)
  else 0.

Definition ufloatParts (f : float64) (expBits signifBits : Z) : Z * Z * Z :=
  let u := Z.land f MaxInt64 in
  let e := i32 (i32 (shr64 u float64SignifBits)
                - i32 (bitmask64 (u64 (float64ExpBits - 1)))) in
  let b := i32 (bitmask64 (u64 (expBits - 1))) in
  let e := if e <? i32 (i32 (- b) + 1) then i32 (i32 (- b) + 1)
           else if e >? b then b
           else e in
  let s := shr64 (Z.land u (bitmask64 float64SignifBits))
                 (u64 (float64SignifBits - signifBits)) in
  let n := ufloatFracBits e signifBits in
  (e, shr64 s n, Z.land s (bitmask64 n)).

(** ** The bit stream *)

(** Modelled from the spec: the bit-stream source is declared outside
    [floats.go].  It is "an ordered sequence of fixed-width unsigned words
    already consumed or remaining; a cursor", with the contract
    [drawBits(width)], [beginGroup(label, isCall) -> token] and
    [endGroup(token, discardIfEmpty)].  The group bookkeeping is kept as the
    log of begin and end events; a token is the number of groups begun
    before it. *)
Inductive event : Type :=
| EvBegin (token : nat) (label : string) (isCall : bool)
| EvEnd (token : nat) (discardIfEmpty : bool).

Record bitStream : Type := mkStream {
  words : list Z;
  cursor : nat;
  log : list event
}.

Definition isBegin (ev : event) : bool :=
  match ev with EvBegin _ _ _ => true | EvEnd _ _ => false end.

Definition nextToken (s : bitStream) : nat :=
  List.length (List.filter isBegin (log s)).

(** What stops a draw short of a value. *)
Inductive failure : Type :=
| AssertionFailed (msg : string)
| InvalidData (msg : string)
| DecoderStopped.

Inductive outcome (A : Type) : Type :=
| Ok (a : A) (s : bitStream)
| Fail (e : failure).
Arguments Ok {A} a s.
Arguments Fail {A} e.

(** A computation on the stream: Go's [func(s bitStream) A], where a panic
    is the [Fail] outcome. *)
Definition Draw (A : Type) : Type := bitStream -> outcome A.

Definition ret {A : Type} (a : A) : Draw A := fun s => Ok a s.

Definition bind {A B : Type} (m : Draw A) (k : A -> Draw B) : Draw B :=
  fun s => match m s with
           | Ok a s' => k a s'
           | Fail e => Fail e
           end.

Notation "x <- m ;; k" := (bind m (fun x => k))
  (at level 61, m at next level, right associativity).
Notation "' p <- m ;; k" := (bind m (fun x => match x with p => k end))
  (at level 61, p pattern, m at next level, right associativity).

(** A decoder of the engine that did not return (it panicked on exhausted
    or overrun data, or on an assertion of its own) stops the draw. *)
Definition lift {A : Type} (h : bitStream -> option (A * bitStream)) : Draw A :=
  fun s => match h s with
           | Some (a, s') => Ok a s'
           | None => Fail DecoderStopped
           end.

Definition beginGroup (label : string) (isCall : bool) : Draw nat :=
  fun s => let token := nextToken s in
           Ok token (mkStream (words s) (cursor s)
                              (log s ++ [EvBegin token label isCall])).

Definition endGroup (token : nat) (discardIfEmpty : bool) : Draw unit :=
  fun s => Ok tt (mkStream (words s) (cursor s)
                           (log s ++ [EvEnd token discardIfEmpty])).

(** [drawBits(width)]: the next word of the sequence, cut to [width] bits;
    reading past the end is the overrun fault. *)
Definition drawBits (width : Z) (s : bitStream) : option (Z * bitStream) :=
  match List.nth_error (words s) (cursor s) with
  | Some w => Some (Z.land w (bitmask64 width),
                    mkStream (words s) (S (cursor s)) (log s))
  | None => None
  end.

(** Modelled from the spec: [assert] and [assertf] are declared outside
    [floats.go]; a failed "configuration assertion" panics.  Only the
    format string of [assertf] is kept. *)
Definition assertf (cond : bool) (msg : string) : Draw unit :=
  fun s => if cond then Ok tt s else Fail (AssertionFailed msg).

Definition assert (cond : bool) : Draw unit := assertf cond "".

(** Well-nested event sequences: every end closes the innermost open
    group, with that group's token. *)
Fixpoint nest (open : list nat) (evs : list event) : option (list nat) :=
  match evs with
  | [] => Some open
  | EvBegin token _ _ :: evs' => nest (token :: open) evs'
  | EvEnd token _ :: evs' =>
      match open with
      | top :: open' => if Nat.eqb top token then nest open' evs' else None
      | [] => None
      end
  end.

Definition well_nested (evs : list event) : Prop := nest [] evs = Some [].

(** ** The decoders floats.go calls *)

(** The integer and coin decoders are declared outside [floats.go]; they are
    the operations of this interface.  A decoder that panics returns
    [None]. *)
Class Decoders : Type := {
  genIntRange : Z -> Z -> bool -> bitStream -> option (Z * bitStream);
  genUintRange : Z -> Z -> bool -> bitStream -> option (Z * bitStream);
  genUintRangeWidth :
    Z -> Z -> bool -> bitStream -> option ((Z * Z) * bitStream);
  flipBiasedCoin : float64 -> bitStream -> option (bool * bitStream)
}.

(** Go's [math.Log1p] and the [float64] operators [+] and [/]:
    floating-point arithmetic is left uninterpreted. *)
Class FloatMath : Type := {
  Log1p : float64 -> float64;
  fadd : float64 -> float64 -> float64;
  fdiv : float64 -> float64 -> float64
}.

(** A helper extends the log by a well-nested run of events. *)
Definition extends_nested (s s' : bitStream) : Prop :=
  exists evs, log s' = log s ++ evs /\ well_nested evs.

(** Modelled from the spec: the contract of the absent decoders.
    "For all successful [genUintRange(lo, hi, _)] draws: [lo <= value <= hi]"
    (and likewise for the signed and the width-reporting variant);
    [flipBiasedCoin]: "[p = 0] or [p = 1] are exact (no entropy consumed)";
    "groups are well-nested (matching begin/end pairs)". *)
Class DecodersSpec (D : Decoders) : Prop := {
  genIntRange_spec : forall lo hi bias s v s',
    genIntRange lo hi bias s = Some (v, s') ->
    lo <= v <= hi /\ extends_nested s s';
  genUintRange_spec : forall lo hi bias s v s',
    genUintRange lo hi bias s = Some (v, s') ->
    lo <= v <= hi /\ extends_nested s s';
  genUintRangeWidth_spec : forall lo hi bias s v w s',
    genUintRangeWidth lo hi bias s = Some ((v, w), s') ->
    lo <= v <= hi /\ extends_nested s s';
  flipBiasedCoin_zero : forall s, flipBiasedCoin fzero s = Some (false, s);
  flipBiasedCoin_one : forall s, flipBiasedCoin fone s = Some (true, s)
}.

(** The decoders return on a one-point range. *)
Definition total_on_points (D : Decoders) : Prop :=
  forall x bias s,
    (exists s', genIntRange x x bias s = Some (x, s')) /\
    (exists s', genUintRange x x bias s = Some (x, s')) /\
    (exists w s', genUintRangeWidth x x bias s = Some ((x, w), s')).

(** ** genUfloatRange and genFloatRange *)

(** The first [switch] of [genUfloatRange]: the bounds of the integer part
    of the significand. *)
Definition siRange (minExp maxExp e minSignifI maxSignifI signifBits fracBits : Z)
  : Z * Z :=
  if minExp =? maxExp then (minSignifI, maxSignifI)
  else if e =? minExp then (minSignifI, bitmask64 (u64 (signifBits - fracBits)))
  else if e =? maxExp then (0, maxSignifI)
  else (0, bitmask64 (u64 (signifBits - fracBits))).

(** The second [switch]: the bounds of the fractional part. *)
Definition sfRange (minExp maxExp e minSignifI maxSignifI si
                    minSignifF maxSignifF fracBits : Z) : Z * Z :=
  if (minExp =? maxExp) && (minSignifI =? maxSignifI)
  then (minSignifF, maxSignifF)
  else if (e =? minExp) && (si =? minSignifI)
  then (minSignifF, bitmask64 fracBits)
  else if (e =? maxExp) && (si =? maxSignifI)
  then (0, maxSignifF)
  else (0, bitmask64 fracBits).

(** The loop [for i := 0; i < int(fracBits)-w; i++] with [n] iterations
    left. *)
Fixpoint shiftLoop (n : nat) (sf sfMin sfMax : Z) : Z :=
  match n with
  | O => sf
  | S n' =>
      let sf_ := shl64 sf 1 in
      if (sf_ <? sfMin) || (sf_ >? sfMax) || (sf_ <? sf) then sf
      else shiftLoop n' sf_ sfMin sfMax
  end.

(** The last three lines: exponent and significand packed into the
    [float64] layout. *)
Definition packFloat (e si sf fracBits signifBits : Z) : float64 :=
  let e_ := shl64 (u64 (u64 e + bitmask64 (u64 (float64ExpBits - 1))))
                  float64SignifBits in
  let s_ := shl64 (Z.lor (shl64 si fracBits) sf)
                  (u64 (float64SignifBits - signifBits)) in
  Z.lor e_ s_.

Section Floats.
Context {D : Decoders} {FM : FloatMath}.

Definition genUfloatRange (min max : float64) (expBits signifBits : Z)
  : Draw float64 :=
  _ <- assert (fge min fzero && fle min max) ;;
  let '(minExp, minSignifI, minSignifF) := ufloatParts min expBits signifBits in
  let '(maxExp, maxSignifI, maxSignifF) := ufloatParts max expBits signifBits in
  i <- beginGroup floatExpLabel false ;;
  e <- lift (genIntRange (i64 minExp) (i64 maxExp) true) ;;
  _ <- endGroup i false ;;
  let fracBits := ufloatFracBits (i32 e) signifBits in
  j <- beginGroup floatSignifLabel false ;;
  let '(siMin, siMax) :=
    siRange minExp maxExp (i32 e) minSignifI maxSignifI signifBits fracBits in
  si <- lift (genUintRange siMin siMax false) ;;
  let '(sfMin, sfMax) :=
    sfRange minExp maxExp (i32 e) minSignifI maxSignifI si
            minSignifF maxSignifF fracBits in
  '(sf, w) <- lift (genUintRangeWidth sfMin sfMax true) ;;
  _ <- endGroup j false ;;
  let sf := shiftLoop (Z.to_nat (i64 (i64 fracBits - w))) sf sfMin sfMax in
  ret (packFloat e si sf fracBits signifBits).

(** The first statement of [genFloatRange]: [(posMin, negMin, pNeg)]. *)
Definition signSplit (min max : float64) : float64 * float64 * float64 :=
  if fge min fzero then (min, fzero, fzero)
  else if fle max fzero then (fzero, fneg max, fone)
  else
    let pos := Log1p (Log1p max) in
    let neg := Log1p (Log1p (fneg min)) in
    (fzero, fzero, fdiv neg (fadd neg pos)).

Definition genFloatRange (min max : float64) (expBits signifBits : Z)
  : Draw float64 :=
  let '(posMin, negMin, pNeg) := signSplit min max in
  coin <- lift (flipBiasedCoin pNeg) ;;
  if coin : bool
  then f <- genUfloatRange negMin (fneg min) expBits signifBits ;;
       ret (fneg f)
  else genUfloatRange posMin max expBits signifBits.

End Floats.

(** ** Conversions between the two widths *)

(** Go's [float64(x)] for a [float32]: exact. *)
Definition f32to64 (x : float32) : float64 :=
  let sign := Z.shiftl (Z.land (Z.shiftr x 31) 1) 63 in
  let ef := Z.land (Z.shiftr x 23) 255 in
  let m := Z.land x (2 ^ 23 - 1) in
  if ef =? 255 then
    if m =? 0 then sign + fInf_bits
    else sign + fInf_bits + Z.lor (2 ^ 51) (m * 2 ^ 29)
  else if ef =? 0 then
    if m =? 0 then sign
    else
      let l := Z.log2 m in
      sign + (l - 149 + 1023) * 2 ^ 52 + (m - 2 ^ l) * 2 ^ (52 - l)
  else sign + (ef - 127 + 1023) * 2 ^ 52 + m * 2 ^ 29.

(** Go's [float32(f)] for a [float64]: round to nearest, ties to even;
    what is too large becomes an infinity. *)
Definition f64to32 (f : float64) : float32 :=
  let sign := Z.shiftl (Z.land (Z.shiftr f 63) 1) 31 in
  let ef := Z.land (Z.shiftr f 52) 2047 in
  let m := Z.land f (2 ^ 52 - 1) in
  if ef =? 2047 then
    if m =? 0 then sign + f32Inf_bits
    else sign + f32Inf_bits + Z.lor (2 ^ 22) (Z.shiftr m 29)
  else
    let M := if ef =? 0 then m else 2 ^ 52 + m in
    let E := if ef =? 0 then -1074 else ef - 1075 in
    if M =? 0 then sign
    else
      let q := Z.max (E + Z.log2 M - 23) (-149) in
      let shift := q - E in
      let hi := M / 2 ^ shift in
      let lo := M mod 2 ^ shift in
      let half := 2 ^ (shift - 1) in
      let R := if (half <? lo) || ((lo =? half) && Z.odd hi) then hi + 1 else hi in
      let bits := (q + 149) * 2 ^ 23 + R in
      if f32Inf_bits <=? bits then sign + f32Inf_bits else sign + bits.

Definition MaxFloat32_bits32 : float32 := 254 * 2 ^ 23 + (2 ^ 23 - 1).

(** ** The generators *)

Inductive reflectType : Type := float32Type | float64Type.

Record floatGen : Type := mkFloatGen {
  typ : reflectType;
  expBits : Z;
  signifBits : Z;
  gmin : float64;
  gmax : float64;
  minVal : float64;
  maxVal : float64
}.

(** What a constructor gives: a generator, or the panic of a failed
    assertion. *)
Inductive built (A : Type) : Type :=
| Built (a : A)
| Panicked (e : failure).
Arguments Built {A} a.
Arguments Panicked {A} e.

(** [assertf] at construction time, where no stream is at hand. *)
Definition assertfThen {A : Type} (cond : bool) (msg : string)
                       (k : built A) : built A :=
  if cond then k else Panicked (AssertionFailed msg).

Definition Float32sRange (min max : float32) : built floatGen :=
  assertfThen (f32eq min min) "min should not be a NaN" (
  assertfThen (f32eq max max) "max should not be a NaN" (
  assertfThen (f32le min max) "invalid range [%v, %v]" (
  Built (mkFloatGen float32Type float32ExpBits float32SignifBits
                    (f32to64 min) (f32to64 max)
                    (fneg MaxFloat32) MaxFloat32)))).

Definition Float64sRange (min max : float64) : built floatGen :=
  assertfThen (feq min min) "min should not be a NaN" (
  assertfThen (feq max max) "max should not be a NaN" (
  assertfThen (fle min max) "invalid range [%v, %v]" (
  Built (mkFloatGen float64Type float64ExpBits float64SignifBits
                    min max (fneg MaxFloat64) MaxFloat64)))).

Definition Float32s : built floatGen :=
  Float32sRange (Z.lor MaxFloat32_bits32 (2 ^ 31)) MaxFloat32_bits32.
Definition Float32sMin (min : float32) : built floatGen :=
  Float32sRange min MaxFloat32_bits32.
Definition Float32sMax (max : float32) : built floatGen :=
  Float32sRange (Z.lor MaxFloat32_bits32 (2 ^ 31)) max.

Definition Float64s : built floatGen :=
  Float64sRange (fneg MaxFloat64) MaxFloat64.
Definition Float64sMin (min : float64) : built floatGen :=
  Float64sRange min MaxFloat64.
Definition Float64sMax (max : float64) : built floatGen :=
  Float64sRange (fneg MaxFloat64) max.

Inductive Value : Type :=
| VFloat32 (f : float32)
| VFloat64 (f : float64).

Definition value {D : Decoders} {FM : FloatMath} (g : floatGen) : Draw Value :=
  f <- genFloatRange (gmin g) (gmax g) (expBits g) (signifBits g) ;;
  match typ g with
  | float32Type => ret (VFloat32 (f64to32 f))
  | float64Type => ret (VFloat64 f)
  end.

(** ** Filter *)

(** Modelled from the spec: [Filter] is declared outside the files at hand
    (only its test is present).  "[Filter(g, pred)]: draws from [g]
    repeatedly (bounded retries, e.g. on the order of 100) until [pred]
    holds; exhausting retries marks the draw invalid, aborting the current
    property execution without counting as a failure."  The retry budget is
    the parameter [tries]. *)
Fixpoint satisfy {A : Type} (tries : nat) (pred : A -> bool) (g : Draw A)
  : Draw A :=
  match tries with
  | O => fun _ => Fail (InvalidData "failed to satisfy filter")
  | S tries' =>
      v <- g ;;
      if pred v then ret v else satisfy tries' pred g
  end.

Definition Filter {A : Type} (tries : nat) (g : Draw A) (pred : A -> bool)
  : Draw A :=
  satisfy tries pred g.

(** The first [k] draws from [g] all return values that [pred] rejects;
    the stream they leave behind. *)
Fixpoint rejected {A : Type} (k : nat) (pred : A -> bool) (g : Draw A)
                  (s : bitStream) : option bitStream :=
  match k with
  | O => Some s
  | S k' =>
      match g s with
      | Ok v s' => if pred v then None else rejected k' pred g s'
      | Fail _ => None
      end
  end.

(** Modelled from the spec: the property runner is outside the files at
    hand.  "State machine per execution: Running -> {Passed, Invalid,
    Failed}"; an exhausted retry budget is [Invalid], an assertion failure
    or a runtime fault is [Failed]. *)
Inductive status : Type := Passed | Invalid | Failed.

Definition runProperty {A : Type} (g : Draw A) (property : A -> bool)
                       (s : bitStream) : status :=
  match g s with
  | Ok v _ => if property v then Passed else Failed
  | Fail (InvalidData _) => Invalid
  | Fail _ => Failed
  end.

(** [TestFilter]: the predicate of the filter and the property checked on
    its values ([t.Fatalf] when [v < 0]). *)
Definition testFilter_pred (i : Z) : bool := i >=? 0.
Definition testFilter_property (v : Z) : bool := negb (v <? 0).

(** ** A reference implementation of the decoders *)

Module Reference.

(** Modelled from the spec: "[genUintRange(source, lo, hi,
    biasTowardBoundaries bool) -> value in [lo, hi]]: draws the minimal
    number of bits to cover the range width, rejecting/retrying
    out-of-range raw draws (rejection sampling) rather than using
    modulo".  An inverted range panics; a one-point range draws nothing.
    The steering toward the boundaries only changes the distribution
    and is left out. *)
Fixpoint sample (tries : nat) (bitlen width : Z) (s : bitStream)
  : option (Z * bitStream) :=
  match tries with
  | O => None
  | S tries' =>
      match drawBits bitlen s with
      | Some (v, s') =>
          if v <=? width then Some (v, s') else sample tries' bitlen width s'
      | None => None
      end
  end.

Definition sampleTries : nat := 100.

Definition uintRangeWidth (lo hi : Z) (bias : bool) (s : bitStream)
  : option ((Z * Z) * bitStream) :=
  if hi <? lo then None
  else if hi =? lo then Some ((lo, 0), s)
  else
    let bitlen := Z.log2 (hi - lo) + 1 in
    match sample sampleTries bitlen (hi - lo) s with
    | Some (v, s') => Some ((lo + v, bitlen), s')
    | None => None
    end.

Definition uintRange (lo hi : Z) (bias : bool) (s : bitStream)
  : option (Z * bitStream) :=
  match uintRangeWidth lo hi bias s with
  | Some ((v, _), s') => Some (v, s')
  | None => None
  end.

Definition intRange (lo hi : Z) (bias : bool) (s : bitStream)
  : option (Z * bitStream) :=
  uintRange lo hi bias s.

(** Modelled from the spec: "[flipBiasedCoin(source, p) -> bool]: returns
    true with probability [p] ... [p = 0] or [p = 1] are exact (no
    entropy consumed)".  For [0 < p < 1], 53 drawn bits [k] are compared
    with [p], that is [k / 2^53 < p]. *)
Definition biasedCoin (p : float64) (s : bitStream)
  : option (bool * bitStream) :=
  if fle p fzero then Some (false, s)
  else if fge p fone then Some (true, s)
  else
    match drawBits 53 s with
    | Some (k, s') =>
        let ef := Z.shiftr (fabs_bits p) 52 in
        let m := Z.land p (2 ^ 52 - 1) in
        let M := if ef =? 0 then m else 2 ^ 52 + m in
        let E := if ef =? 0 then -1074 else ef - 1075 in
        Some (k * 2 ^ (- (E + 53)) <? M, s')
    | None => None
    end.

#[export] Instance decoders : Decoders := {|
  genIntRange := intRange;
  genUintRange := uintRange;
  genUintRangeWidth := uintRangeWidth;
  flipBiasedCoin := biasedCoin
|}.

(** A stand-in for the floating-point library: the development assumes
    nothing about these three operations, and the stand-in only lets the
    generators run on concrete inputs. *)
#[export] Instance floatMath : FloatMath := {|
  Log1p := fun x => x;
  fadd := fun a b => Z.max a b;
  fdiv := fun a b => 1022 * 2 ^ 52
|}.

(** A replay stream over a recorded word sequence. *)
Definition replay (ws : list Z) : bitStream := mkStream ws 0 [].

End Reference.

(** ** Vocabulary of the statements *)

(** The exponent and significand widths the code is run with: at most those
    of [float64], and an exponent field of at least two bits. *)
Definition valid_widths (expBits signifBits : Z) : Prop :=
  2 <= expBits <= 11 /\ 0 <= signifBits <= 52.

(** [b] of [ufloatParts]: the largest exponent of the width. *)
Definition expBias (expBits : Z) : Z := 2 ^ (expBits - 1) - 1.

(** The unbiased exponent read off the [float64] bit pattern. *)
Definition rawExp (f : float64) : Z := fabs_bits f / 2 ^ 52 - 1023.

Definition isZero (f : float64) : bool := fabs_bits f =? 0.

(** [f] is a normal number of the width: its exponent lies in
    [[-b+1, b]] and its significand needs no more than [signifBits] bits. *)
Definition widthNormal (expBits signifBits : Z) (f : float64) : bool :=
  (- expBias expBits + 1 <=? rawExp f) && (rawExp f <=? expBias expBits)
  && (fabs_bits f mod 2 ^ (52 - signifBits) =? 0).

Definition zeroOrNormal (expBits signifBits : Z) (f : float64) : bool :=
  isZero f || widthNormal expBits signifBits f.

(** The clamped exponent of [ufloatParts]. *)
Definition clampExp (eb : Z) (f : float64) : Z :=
  Z.max (- expBias eb + 1) (Z.min (expBias eb) (rawExp f)).

(** The significand of [ufloatParts], cut to [sb] bits. *)
Definition cutSignif (sb : Z) (f : float64) : Z :=
  (fabs_bits f mod 2 ^ 52) / 2 ^ (52 - sb).

(** The number the bit pattern of a run encodes: exponent [e], and the
    significand with integer part [si] and fractional part [sf]. *)
Definition runBits (e si sf fb sb : Z) : Z :=
  (e + 1023) * 2 ^ 52 + (si * 2 ^ fb + sf) * 2 ^ (52 - sb).

(** The facts about one returning run: the three decoded numbers lie in
    the ranges the code computed, the value is packed from them, and the
    log grew by the two groups. *)
Definition ufloatRun (min max : float64) (eb sb : Z)
           (s : bitStream) (v : float64) (s' : bitStream) : Prop :=
  let '(minExp, minSI, minSF) := ufloatParts min eb sb in
  let '(maxExp, maxSI, maxSF) := ufloatParts max eb sb in
  exists e si sf w j evs1 evs2,
    i64 minExp <= e <= i64 maxExp /\
    let fb := ufloatFracBits (i32 e) sb in
    let sir := siRange minExp maxExp (i32 e) minSI maxSI sb fb in
    let sfr := sfRange minExp maxExp (i32 e) minSI maxSI si minSF maxSF fb in
    fst sir <= si <= snd sir /\
    fst sfr <= sf <= snd sfr /\
    v = packFloat e si
          (shiftLoop (Z.to_nat (i64 (i64 fb - w))) sf (fst sfr) (snd sfr))
          fb sb /\
    well_nested evs1 /\ well_nested evs2 /\
    log s' = log s ++ [EvBegin (nextToken s) floatExpLabel false] ++ evs1
                   ++ [EvEnd (nextToken s) false]
                   ++ [EvBegin j floatSignifLabel false] ++ evs2
                   ++ [EvEnd j false].

(** The [float64] values that are normal numbers of [float32]: sign
    [sgn], exponent [e] and a 23-bit significand [S]. *)
Definition f32Exact (f : float64) : Prop :=
  exists sgn e S,
    (sgn = 0 \/ sgn = 1) /\ -126 <= e <= 127 /\ 0 <= S < 2 ^ 23 /\
    f = sgn * 2 ^ 63 + (e + 1023) * 2 ^ 52 + S * 2 ^ 29.

(** A generator of integers over the reference decoders, for running the
    filter. *)
Definition someInts : Draw Z := lift (Reference.intRange (-8) 7 true).

(** ** The order of bit patterns against the Standard Library's IEEE-754 *)

(** The number a bit pattern encodes, as a [spec_float] of the Standard
    Library (precision 53, smallest exponent -1074). *)
Definition toSpecFloat (f : float64) : spec_float :=
  let ef := fabs_bits f / 2 ^ 52 in
  let m := fabs_bits f mod 2 ^ 52 in
  if ef =? 2047 then
    if m =? 0 then S754_infinity (fsign f) else S754_nan
  else if ef =? 0 then
    match m with
    | Z.pos p => S754_finite (fsign f) p (-1074)
    | _ => S754_zero (fsign f)
    end
  else
    match 2 ^ 52 + m with
    | Z.pos p => S754_finite (fsign f) p (ef - 1075)
    | _ => S754_nan
    end.

(** The magnitude bits of a finite [spec_float] in canonical form. *)
Definition finCode (p : positive) (e : Z) : Z :=
  if e =? -1074 then Z.pos p else (e + 1075) * 2 ^ 52 + Z.pos p - 2 ^ 52.

Definition canonical53 (p : positive) (e : Z) : Prop :=
  -1074 <= e /\ Z.pos p < 2 ^ 53 /\ (-1074 < e -> 2 ^ 52 <= Z.pos p).

(** ** More of floats.go: the printed name, and total decoders *)

(** Go's [a != b] on [float64]: true when a NaN is involved. *)
Definition fne (a b : float64) : bool := negb (feq a b).

(** [func (g *floatGen) String() string].  [fmt.Sprintf] pastes its
    arguments into the format; the verb [%g] of Go's library is the
    parameter [fmtG]. *)
Definition floatGen_String (fmtG : float64 -> string) (g : floatGen) : string :=
  let kind := match typ g with
              | float32Type => "Float32s"
              | float64Type => "Float64s"
              end%string in
  if fne (gmin g) (minVal g) && fne (gmax g) (maxVal g)
  then (kind ++ "Range(" ++ fmtG (gmin g) ++ ", " ++ fmtG (gmax g) ++ ")")%string
  else if fne (gmin g) (minVal g)
  then (kind ++ "Min(" ++ fmtG (gmin g) ++ ")")%string
  else if fne (gmax g) (maxVal g)
  then (kind ++ "Max(" ++ fmtG (gmax g) ++ ")")%string
  else (kind ++ "()")%string.

(** [func (g *floatGen) type_() reflect.Type]. *)
Definition type_ (g : floatGen) : reflectType := typ g.

(** A lower bound that [ufloatParts] reads without raising it: it lies
    below the normal numbers of the width, or it is at most the largest of
    them and its significand fits the width. *)
Definition lowerExact (expBits signifBits : Z) (f : float64) : bool :=
  (rawExp f <? - expBias expBits + 1)
  || ((rawExp f <=? expBias expBits)
      && (fabs_bits f mod 2 ^ (52 - signifBits) =? 0)).

(** An upper bound that [ufloatParts] reads without raising it: it is not
    below the normal numbers of the width. *)
Definition upperNormal (expBits : Z) (f : float64) : bool :=
  - expBias expBits + 1 <=? rawExp f.

(** The bounds of every sub-range that [genFloatRange] can hand to
    [genUfloatRange] are read without being raised. *)
Definition rangeDecodable (expBits signifBits : Z) (min max : float64) : bool :=
  if fge min fzero
  then lowerExact expBits signifBits min && upperNormal expBits max
  else if fle max fzero
  then lowerExact expBits signifBits max && upperNormal expBits min
  else upperNormal expBits min && upperNormal expBits max.

(** The decoders return on every range that is not inverted, and the coin
    returns on every probability. *)
Definition total_on_ranges (D : Decoders) : Prop :=
  (forall lo hi bias s, lo <= hi ->
     (exists v s', genIntRange lo hi bias s = Some (v, s')) /\
     (exists v s', genUintRange lo hi bias s = Some (v, s')) /\
     (exists v w s', genUintRangeWidth lo hi bias s = Some ((v, w), s'))) /\
  (forall p s, exists coin s', flipBiasedCoin p s = Some (coin, s')).

(** Decoders that never run out of data: each returns the lowest value of
    its range without reading the stream, and the coin is true only for a
    probability of at least 1. *)
Module Lowest.

Definition uintRangeWidth (lo hi : Z) (bias : bool) (s : bitStream)
  : option ((Z * Z) * bitStream) :=
  if hi <? lo then None else Some ((lo, 0), s).

Definition uintRange (lo hi : Z) (bias : bool) (s : bitStream)
  : option (Z * bitStream) :=
  if hi <? lo then None else Some (lo, s).

Definition biasedCoin (p : float64) (s : bitStream)
  : option (bool * bitStream) :=
  Some (fge p fone, s).

#[export] Instance decoders : Decoders := {|
  genIntRange := uintRange;
  genUintRange := uintRange;
  genUintRangeWidth := uintRangeWidth;
  flipBiasedCoin := biasedCoin
|}.

End Lowest.

(** The magnitude of [float64(x)] for a [float32] of magnitude bits [u]:
    the cases of [f32to64] without the sign. *)
Definition f32mag64 (u : Z) : Z :=
  let ef := u / 2 ^ 23 in
  let m := u mod 2 ^ 23 in
  if ef =? 255 then
    if m =? 0 then fInf_bits else fInf_bits + Z.lor (2 ^ 51) (m * 2 ^ 29)
  else if ef =? 0 then
    if m =? 0 then 0
    else (Z.log2 m - 149 + 1023) * 2 ^ 52 + (m - 2 ^ Z.log2 m) * 2 ^ (52 - Z.log2 m)
  else (ef - 127 + 1023) * 2 ^ 52 + m * 2 ^ 29.

(** * Properties *)

(** ** The definitions on concrete inputs *)

Example bitmask64_10 : bitmask64 10 = 1023.
Proof. reflexivity. Qed.

Example bitmask64_64 : bitmask64 64 = 2 ^ 64 - 1.
Proof. reflexivity. Qed.

(** [1.0] has exponent 0 and an empty significand field. *)
Example ufloatParts_one : ufloatParts fone 11 52 = (0, 0, 0).
Proof. reflexivity. Qed.

(** [0.0] is read with the smallest normal exponent. *)
Example ufloatParts_zero : ufloatParts fzero 11 52 = (-1022, 0, 0).
Proof. reflexivity. Qed.

(** [+Inf] is read with the largest normal exponent. *)
Example ufloatParts_inf : ufloatParts fInf_bits 11 52 = (1023, 0, 0).
Proof. reflexivity. Qed.

(** [2.5 = 1.25 * 2^1]: one integer bit, 51 fractional bits. *)
Example ufloatParts_2_5 :
  ufloatParts 4612811918334230528 11 52 = (1, 0, 2 ^ 50).
Proof. reflexivity. Qed.

(** [-2.5 < 0.1], and a NaN compares false with itself. *)
Example fle_examples :
  fle 13836183955189006336 4591870180066957722 = true /\
  fle 4591870180066957722 13836183955189006336 = false /\
  fle (fneg fzero) fzero = true /\ fle fzero (fneg fzero) = true /\
  feq (fInf_bits + 1) (fInf_bits + 1) = false.
Proof. repeat split. Qed.

(** [float32(x)] rounds to nearest, ties to even: 0.1, 1/3, the two ties
    [1 + 2^-24] and [1 + 3 * 2^-24], the tie [2^-150] below the smallest
    subnormal, [1e-40], [-2.5], [MaxFloat32] and the first value that
    overflows. *)
Example f64to32_examples :
  f64to32 4591870180066957722 = 1036831949 /\
  f64to32 4599676419421066581 = 1051372203 /\
  f64to32 4607182419068452864 = 1065353216 /\
  f64to32 4607182419605323776 = 1065353218 /\
  f64to32 3931642474694443008 = 0 /\
  f64to32 4008604054463141788 = 71362 /\
  f64to32 13836183955189006336 = 3223322624 /\
  f64to32 MaxFloat32 = MaxFloat32_bits32 /\
  f64to32 5183643170835005440 = f32Inf_bits.
Proof. repeat split. Qed.

(** [float64(x)] is exact: subnormals, the smallest normal number, 1.0,
    [MaxFloat32], a negative subnormal and [+Inf]. *)
Example f32to64_examples :
  f32to64 1 = 3936146074321813504 /\
  f32to64 4194304 = 4035225266123964416 /\
  f32to64 8388607 = 4039728864677593088 /\
  f32to64 8388608 = 4039728865751334912 /\
  f32to64 1065353216 = fone /\
  f32to64 MaxFloat32_bits32 = MaxFloat32 /\
  f32to64 2147483649 = 13159518111176589312 /\
  f32to64 f32Inf_bits = fInf_bits.
Proof. repeat split. Qed.

(** A draw from [[0, 1]] on a recorded stream: the exponent decoder reads
    5, giving exponent [-1017]; the significand is 0. *)
Example genFloatRange_unit_interval :
  genFloatRange (D := Reference.decoders) (FM := Reference.floatMath)
                fzero fone 11 52 (Reference.replay [5; 0])
  = Ok (6 * 2 ^ 52)
       (mkStream [5; 0] 2
          [EvBegin 0 floatExpLabel false; EvEnd 0 false;
           EvBegin 1 floatSignifLabel false; EvEnd 1 false]).
Proof. vm_compute. reflexivity. Qed.

(** ** Machine arithmetic *)

Lemma u64_small (z : Z) : 0 <= z < 2 ^ 64 -> u64 z = z.
Proof. intros H. unfold u64. now apply Z.mod_small. Qed.

Lemma i32_small (z : Z) : - 2 ^ 31 <= z < 2 ^ 31 -> i32 z = z.
Proof. intros H. unfold i32. rewrite Z.mod_small; lia. Qed.

Lemma i64_small (z : Z) : - 2 ^ 63 <= z < 2 ^ 63 -> i64 z = z.
Proof. intros H. unfold i64. rewrite Z.mod_small; lia. Qed.

Lemma pow2_pos (n : Z) : 0 <= n -> 0 < 2 ^ n.
Proof. intros H. apply Z.pow_pos_nonneg; lia. Qed.

Lemma pow2_le (n m : Z) : 0 <= n <= m -> 2 ^ n <= 2 ^ m.
Proof. intros H. apply Z.pow_le_mono_r; lia. Qed.

Lemma pow2_lt (n m : Z) : 0 <= n < m -> 2 ^ n < 2 ^ m.
Proof. intros H. apply Z.pow_lt_mono_r; lia. Qed.

Lemma pow2_split (n m : Z) : 0 <= n <= m -> 2 ^ m = 2 ^ (m - n) * 2 ^ n.
Proof.
  intros H. rewrite <- Z.pow_add_r by lia. f_equal. lia.
Qed.

Lemma shr64_div (x n : Z) : 0 <= n < 64 -> shr64 x n = x / 2 ^ n.
Proof.
  intros H. unfold shr64.
  destruct (Z.ltb_spec n 64); [|lia].
  now rewrite Z.shiftr_div_pow2 by lia.
Qed.

Lemma shl64_mul (x n : Z) :
  0 <= n < 64 -> 0 <= x -> x * 2 ^ n < 2 ^ 64 -> shl64 x n = x * 2 ^ n.
Proof.
  intros H Hx Hb. unfold shl64.
  destruct (Z.ltb_spec n 64); [|lia].
  rewrite Z.shiftl_mul_pow2 by lia.
  apply u64_small. pose proof (pow2_pos n). nia.
Qed.

Lemma bitmask64_ones (n : Z) : 0 <= n < 64 -> bitmask64 n = 2 ^ n - 1.
Proof.
  intros H. unfold bitmask64.
  assert (2 ^ n < 2 ^ 64) by (apply pow2_lt; lia).
  rewrite shl64_mul by lia. rewrite Z.mul_1_l.
  apply u64_small. pose proof (pow2_pos n). lia.
Qed.

Lemma land_bitmask64 (x n : Z) :
  0 <= n < 64 -> Z.land x (bitmask64 n) = x mod 2 ^ n.
Proof.
  intros H. rewrite bitmask64_ones by lia.
  rewrite <- Z.land_ones by lia. now rewrite Z.ones_equiv.
Qed.

Lemma land_MaxInt64 (x : Z) : Z.land x MaxInt64 = x mod 2 ^ 63.
Proof.
  unfold MaxInt64. rewrite <- (Z.land_ones x 63) by lia.
  now rewrite Z.ones_equiv.
Qed.

Lemma lor_disjoint (a b n : Z) :
  0 <= n -> 0 <= a -> 0 <= b < 2 ^ n -> Z.lor (a * 2 ^ n) b = a * 2 ^ n + b.
Proof.
  intros Hn Ha Hb.
  assert (Hl : Z.land (a * 2 ^ n) b = 0).
  { apply Z.bits_inj'. intros k Hk.
    rewrite Z.land_spec, Z.bits_0.
    destruct (Z.ltb_spec k n).
    - rewrite Z.mul_pow2_bits_low by lia. reflexivity.
    - destruct (Z.eqb_spec b 0) as [->|Hb0].
      + rewrite Z.bits_0. apply andb_false_r.
      + rewrite (Z.bits_above_log2 b k); [apply andb_false_r|lia|].
        apply Z.lt_le_trans with n; [|lia].
        apply Z.log2_lt_pow2; lia. }
  rewrite <- Z.lxor_lor by exact Hl.
  symmetry. apply Z.add_nocarry_lxor. exact Hl.
Qed.

Lemma fabs_bits_range (f : float64) : 0 <= fabs_bits f < 2 ^ 63.
Proof.
  unfold fabs_bits. rewrite land_MaxInt64. apply Z.mod_pos_bound. lia.
Qed.

Lemma fabs_bits_fneg (f : float64) : fabs_bits (fneg f) = fabs_bits f.
Proof.
  unfold fabs_bits, fneg. apply Z.bits_inj'. intros k Hk.
  rewrite !Z.land_spec, Z.lxor_spec.
  destruct (Z.eqb_spec k 63) as [->|Hne].
  - unfold MaxInt64. replace (Z.testbit (2 ^ 63 - 1) 63) with false by reflexivity.
    now rewrite !andb_false_r.
  - rewrite (Z.pow2_bits_false 63 k) by lia. now rewrite xorb_false_r.
Qed.

Lemma fsign_fneg (f : float64) : fsign (fneg f) = negb (fsign f).
Proof.
  unfold fsign, fneg. rewrite Z.lxor_spec, Z.pow2_bits_true by lia.
  now destruct (Z.testbit f 63).
Qed.

Lemma fisNaN_fneg (f : float64) : fisNaN (fneg f) = fisNaN f.
Proof. unfold fisNaN. now rewrite fabs_bits_fneg. Qed.

Lemma fkey_fneg (f : float64) : fkey (fneg f) = - fkey f.
Proof.
  unfold fkey. rewrite fsign_fneg, fabs_bits_fneg.
  destruct (fsign f); simpl; lia.
Qed.

(** ** ufloatFracBits and ufloatParts in arithmetic form *)

Lemma ufloatFracBits_eq (e sb : Z) :
  - 2 ^ 31 <= e < 2 ^ 31 -> 0 <= sb <= 52 ->
  ufloatFracBits e sb =
  if e <=? 0 then sb else if e <? sb then sb - e else 0.
Proof.
  intros He Hsb. unfold ufloatFracBits.
  destruct (Z.leb_spec e 0); [reflexivity|].
  rewrite (u64_small e) by lia.
  destruct (Z.ltb_spec e sb); [|reflexivity].
  apply u64_small. lia.
Qed.

Lemma ufloatFracBits_range (e sb : Z) :
  - 2 ^ 31 <= e < 2 ^ 31 -> 0 <= sb <= 52 ->
  0 <= ufloatFracBits e sb <= sb.
Proof.
  intros He Hsb. rewrite ufloatFracBits_eq by assumption.
  destruct (Z.leb_spec e 0); [lia|].
  destruct (Z.ltb_spec e sb); lia.
Qed.

Lemma expBias_range (eb : Z) : 2 <= eb <= 11 -> 1 <= expBias eb <= 1023.
Proof.
  intros H. unfold expBias.
  assert (2 ^ 1 <= 2 ^ (eb - 1)) by (apply pow2_le; lia).
  assert (2 ^ (eb - 1) <= 2 ^ 10) by (apply pow2_le; lia).
  lia.
Qed.

Lemma rawExp_range (f : float64) : -1023 <= rawExp f <= 1024.
Proof.
  unfold rawExp. pose proof (fabs_bits_range f) as H.
  assert (0 <= fabs_bits f / 2 ^ 52) by (apply Z.div_pos; lia).
  assert (fabs_bits f / 2 ^ 52 < 2 ^ 11).
  { apply Z.div_lt_upper_bound; [lia|]. 
    replace (2 ^ 52 * 2 ^ 11) with (2 ^ 63) by reflexivity. lia. }
  lia.
Qed.

Lemma cutSignif_range (sb : Z) (f : float64) :
  0 <= sb <= 52 -> 0 <= cutSignif sb f < 2 ^ sb.
Proof.
  intros H. unfold cutSignif.
  pose proof (Z.mod_pos_bound (fabs_bits f) (2 ^ 52) ltac:(lia)) as Hm.
  pose proof (pow2_pos (52 - sb) ltac:(lia)) as Hp.
  split; [apply Z.div_pos; lia|].
  apply Z.div_lt_upper_bound; [lia|].
  pose proof (pow2_split sb 52 ltac:(lia)) as Hs. lia.
Qed.

Lemma ufloatParts_eq (f : float64) (eb sb : Z) :
  valid_widths eb sb ->
  ufloatParts f eb sb =
  let e := clampExp eb f in
  let n := ufloatFracBits e sb in
  (e, cutSignif sb f / 2 ^ n, cutSignif sb f mod 2 ^ n).
Proof.
  intros [Heb Hsb]. unfold ufloatParts.
  fold (fabs_bits f).
  pose proof (expBias_range eb Heb) as Hb.
  pose proof (rawExp_range f) as Hr.
  replace (bitmask64 (u64 (float64ExpBits - 1))) with 1023 by reflexivity.
  unfold float64SignifBits.
  rewrite (shr64_div _ 52) by lia.
  rewrite (u64_small (eb - 1)) by lia.
  rewrite (bitmask64_ones (eb - 1)) by lia.
  fold (expBias eb).
  assert (Hq : - 2 ^ 31 <= fabs_bits f / 2 ^ 52 < 2 ^ 31).
  { unfold rawExp in Hr. lia. }
  rewrite (i32_small (fabs_bits f / 2 ^ 52)) by exact Hq.
  rewrite (i32_small 1023) by lia.
  fold (rawExp f).
  rewrite (i32_small (rawExp f)) by lia.
  rewrite (i32_small (expBias eb)) by lia.
  rewrite (i32_small (- expBias eb)) by lia.
  rewrite (i32_small (- expBias eb + 1)) by lia.
  rewrite (land_bitmask64 _ 52) by lia.
  rewrite (u64_small (52 - sb)) by lia.
  rewrite (shr64_div _ (52 - sb)) by lia.
  fold (cutSignif sb f).
  assert (He : (if rawExp f <? - expBias eb + 1 then - expBias eb + 1
                else if rawExp f >? expBias eb then expBias eb else rawExp f)
               = clampExp eb f).
  { unfold clampExp.
    destruct (Z.ltb_spec (rawExp f) (- expBias eb + 1)); [lia|].
    destruct (Z.gtb_spec (rawExp f) (expBias eb)); lia. }
  rewrite He. cbv zeta.
  assert (Hc : - 2 ^ 31 <= clampExp eb f < 2 ^ 31) by (unfold clampExp; lia).
  pose proof (ufloatFracBits_range (clampExp eb f) sb Hc Hsb) as Hn.
  rewrite shr64_div by lia.
  rewrite land_bitmask64 by lia.
  reflexivity.
Qed.

Lemma clampExp_range (eb : Z) (f : float64) :
  2 <= eb <= 11 -> - expBias eb + 1 <= clampExp eb f <= expBias eb.
Proof.
  intros H. pose proof (expBias_range eb H). unfold clampExp. lia.
Qed.

(** ** Well-nested logs *)

Lemma nest_app (st : list nat) (evs1 evs2 : list event) :
  nest st (evs1 ++ evs2) =
  match nest st evs1 with
  | Some st' => nest st' evs2
  | None => None
  end.
Proof.
  revert st. induction evs1 as [|ev evs1 IH]; intros st; cbn.
  - reflexivity.
  - destruct ev as [t l c|t d].
    + apply IH.
    + destruct st as [|top st]; [reflexivity|].
      destruct (Nat.eqb top t); [apply IH|reflexivity].
Qed.

Lemma nest_frame (st st' base : list nat) (evs : list event) :
  nest st evs = Some st' -> nest (st ++ base) evs = Some (st' ++ base).
Proof.
  revert st. induction evs as [|ev evs IH]; intros st H; cbn in *.
  - now injection H as ->.
  - destruct ev as [t l c|t d].
    + apply (IH (t :: st)). exact H.
    + destruct st as [|top st]; [discriminate|]. cbn.
      destruct (Nat.eqb top t); [now apply IH|discriminate].
Qed.

Lemma well_nested_app (evs1 evs2 : list event) :
  well_nested evs1 -> well_nested evs2 -> well_nested (evs1 ++ evs2).
Proof.
  unfold well_nested. intros H1 H2. now rewrite nest_app, H1.
Qed.

(** A group around a well-nested run is well nested. *)
Lemma well_nested_group (i : nat) (l : string) (c d : bool)
      (evs : list event) :
  well_nested evs ->
  well_nested ([EvBegin i l c] ++ evs ++ [EvEnd i d]).
Proof.
  unfold well_nested. intros H. cbn [app nest].
  rewrite nest_app.
  pose proof (nest_frame [] [] [i] evs H) as Hf. cbn [app] in Hf.
  rewrite Hf. cbn. now rewrite Nat.eqb_refl.
Qed.

(** ** What a returning run of genUfloatRange looks like *)

Section Runs.
Context {D : Decoders} {FM : FloatMath} {DS : DecodersSpec D}.

Lemma genUfloatRange_Ok (min max : float64) (eb sb : Z)
      (s : bitStream) (v : float64) (s' : bitStream) :
  genUfloatRange min max eb sb s = Ok v s' ->
  fge min fzero && fle min max = true /\ ufloatRun min max eb sb s v s'.
Proof.
  unfold genUfloatRange, ufloatRun, bind, assert, assertf.
  destruct (fge min fzero && fle min max); [|discriminate].
  destruct (ufloatParts min eb sb) as [[minExp minSI] minSF].
  destruct (ufloatParts max eb sb) as [[maxExp maxSI] maxSF].
  unfold beginGroup at 1. cbv beta zeta.
  unfold lift at 1.
  set (s0 := mkStream _ _ _).
  destruct (genIntRange (i64 minExp) (i64 maxExp) true s0)
    as [[e s1]|] eqn:He; [|discriminate].
  apply genIntRange_spec in He. destruct He as [Hre [evs1 [Hl1 Hn1]]].
  unfold endGroup at 1, beginGroup at 1. cbv beta zeta.
  set (s2 := mkStream _ _ (_ ++ [EvBegin _ _ _])).
  destruct (siRange minExp maxExp (i32 e) minSI maxSI sb
                    (ufloatFracBits (i32 e) sb)) as [siMin siMax] eqn:Hsir.
  unfold lift at 1.
  destruct (genUintRange siMin siMax false s2) as [[si s3]|] eqn:Hsi;
    [|discriminate].
  apply genUintRange_spec in Hsi. destruct Hsi as [Hrsi [evs2 [Hl2 Hn2]]].
  destruct (sfRange minExp maxExp (i32 e) minSI maxSI si minSF maxSF
                    (ufloatFracBits (i32 e) sb)) as [sfMin sfMax] eqn:Hsfr.
  unfold lift at 1.
  destruct (genUintRangeWidth sfMin sfMax true s3) as [[[sf w] s4]|] eqn:Hsf;
    [|discriminate].
  apply genUintRangeWidth_spec in Hsf. destruct Hsf as [Hrsf [evs3 [Hl3 Hn3]]].
  unfold endGroup, ret. cbv beta zeta.
  intros Heq. injection Heq as Hv Hs'. split; [reflexivity|].
  exists e, si, sf, w,
    (nextToken (mkStream (words s1) (cursor s1)
                         (log s1 ++ [EvEnd (nextToken s) false]))),
    evs1, (evs2 ++ evs3).
  cbv zeta. rewrite Hsir, Hsfr. cbn [fst snd].
  repeat split; try lia; try assumption.
  - now apply well_nested_app.
  - subst s'. cbn [log]. rewrite Hl3, Hl2. subst s2. cbn [log].
    rewrite Hl1. subst s0. cbn [log].
    rewrite <- !app_assoc. reflexivity.
Qed.

End Runs.

(** ** The two switches and the doubling loop *)

Lemma siRange_bounds (a c e minSI maxSI sb fb si : Z) :
  a <= e <= c -> 0 <= fb <= sb -> sb <= 52 ->
  0 <= minSI -> (e = c -> maxSI < 2 ^ (sb - fb)) ->
  fst (siRange a c e minSI maxSI sb fb) <= si
    <= snd (siRange a c e minSI maxSI sb fb) ->
  0 <= si < 2 ^ (sb - fb) /\ (e = a -> minSI <= si) /\ (e = c -> si <= maxSI).
Proof.
  intros He Hfb Hsb Hmin Hmax. unfold siRange.
  rewrite (u64_small (sb - fb)) by lia.
  rewrite (bitmask64_ones (sb - fb)) by lia.
  destruct (Z.eqb_spec a c) as [Hac|Hac];
    [|destruct (Z.eqb_spec e a) as [Hea|Hea];
      [|destruct (Z.eqb_spec e c) as [Hec|Hec]]];
    cbn [fst snd]; intros H.
  - assert (E : e = c) by lia. specialize (Hmax E). lia.
  - repeat split; lia.
  - specialize (Hmax Hec). lia.
  - repeat split; lia.
Qed.

Lemma sfRange_bounds (a c e minSI maxSI si minSF maxSF fb sf : Z) :
  a <= e <= c -> 0 <= fb <= 52 ->
  (e = a -> minSI <= si) -> (e = c -> si <= maxSI) ->
  0 <= minSF -> (e = c -> maxSF < 2 ^ fb) ->
  fst (sfRange a c e minSI maxSI si minSF maxSF fb) <= sf
    <= snd (sfRange a c e minSI maxSI si minSF maxSF fb) ->
  0 <= sf < 2 ^ fb /\
  (e = a -> si = minSI -> minSF <= sf) /\
  (e = c -> si = maxSI -> sf <= maxSF).
Proof.
  intros He Hfb Hlo Hhi Hmin Hmax. unfold sfRange.
  rewrite (bitmask64_ones fb) by lia.
  destruct (Z.eqb_spec a c) as [Hac|Hac];
    destruct (Z.eqb_spec minSI maxSI) as [Hmm|Hmm];
    destruct (Z.eqb_spec e a) as [Hea|Hea];
    destruct (Z.eqb_spec si minSI) as [Hsm|Hsm];
    destruct (Z.eqb_spec e c) as [Hec|Hec];
    destruct (Z.eqb_spec si maxSI) as [HsM|HsM];
    cbn [andb fst snd]; intros H;
    try (specialize (Hmax ltac:(lia)));
    repeat split; lia.
Qed.

Lemma shiftLoop_S (n : nat) (sf sfMin sfMax : Z) :
  shiftLoop (S n) sf sfMin sfMax =
  if (shl64 sf 1 <? sfMin) || (shl64 sf 1 >? sfMax) || (shl64 sf 1 <? sf)
  then sf else shiftLoop n (shl64 sf 1) sfMin sfMax.
Proof. reflexivity. Qed.

Lemma shiftLoop_range (n : nat) (sf sfMin sfMax : Z) :
  sfMin <= sf <= sfMax ->
  sfMin <= shiftLoop n sf sfMin sfMax <= sfMax.
Proof.
  revert sf. induction n as [|n IH]; intros sf H.
  - exact H.
  - rewrite shiftLoop_S.
    destruct (Z.ltb_spec (shl64 sf 1) sfMin); cbn [orb]; [exact H|].
    destruct (Z.gtb_spec (shl64 sf 1) sfMax); cbn [orb]; [exact H|].
    destruct (Z.ltb_spec (shl64 sf 1) sf); cbn [orb]; [exact H|].
    apply IH. lia.
Qed.

(** Two numbers written as [hi * F + lo] compare like the pairs
    [(hi, lo)]. *)
Lemma lex_le_upper (F s si sf : Z) :
  0 < F -> 0 <= sf < F ->
  si <= s / F -> (si = s / F -> sf <= s mod F) ->
  si * F + sf <= s.
Proof.
  intros HF Hsf Hsi Heq.
  pose proof (Z.div_mod s F ltac:(lia)) as Hdm.
  pose proof (Z.mod_pos_bound s F HF) as Hm.
  destruct (Z.eq_dec si (s / F)) as [E|E].
  - specialize (Heq E). subst si. lia.
  - assert (si + 1 <= s / F) by lia. nia.
Qed.

Lemma lex_le_lower (F s si sf : Z) :
  0 < F -> 0 <= sf < F ->
  s / F <= si -> (si = s / F -> s mod F <= sf) ->
  s <= si * F + sf.
Proof.
  intros HF Hsf Hsi Heq.
  pose proof (Z.div_mod s F ltac:(lia)) as Hdm.
  pose proof (Z.mod_pos_bound s F HF) as Hm.
  destruct (Z.eq_dec si (s / F)) as [E|E].
  - specialize (Heq E). subst si. lia.
  - assert (s / F + 1 <= si) by lia. nia.
Qed.

(** ** Packing *)

Lemma packFloat_eq (e si sf fb sb : Z) :
  -1022 <= e <= 1023 -> 0 <= fb <= sb -> sb <= 52 ->
  0 <= si < 2 ^ (sb - fb) -> 0 <= sf < 2 ^ fb ->
  packFloat e si sf fb sb =
  (e + 1023) * 2 ^ 52 + (si * 2 ^ fb + sf) * 2 ^ (52 - sb)
  /\ 0 <= si * 2 ^ fb + sf < 2 ^ sb.
Proof.
  intros He Hfb Hsb Hsi Hsf.
  pose proof (pow2_split fb sb ltac:(lia)) as Hs1.
  pose proof (pow2_split sb 52 ltac:(lia)) as Hs2.
  pose proof (pow2_pos fb ltac:(lia)) as Hp1.
  pose proof (pow2_pos (sb - fb) ltac:(lia)) as Hp2.
  pose proof (pow2_pos (52 - sb) ltac:(lia)) as Hp3.
  pose proof (pow2_pos sb ltac:(lia)) as Hp4.
  assert (Hsig : 0 <= si * 2 ^ fb + sf < 2 ^ sb) by nia.
  split; [|exact Hsig].
  assert (Hsig52 : 0 <= (si * 2 ^ fb + sf) * 2 ^ (52 - sb) < 2 ^ 52) by nia.
  unfold packFloat.
  replace (bitmask64 (u64 (float64ExpBits - 1))) with 1023 by reflexivity.
  unfold float64SignifBits.
  assert (Hu : u64 (u64 e + 1023) = e + 1023).
  { unfold u64. rewrite Zplus_mod_idemp_l. apply Z.mod_small. lia. }
  rewrite Hu.
  rewrite (shl64_mul (e + 1023) 52) by lia.
  rewrite (shl64_mul si fb) by nia.
  rewrite (lor_disjoint si sf fb) by lia.
  rewrite (u64_small (52 - sb)) by lia.
  rewrite (shl64_mul _ (52 - sb)) by nia.
  apply lor_disjoint; lia.
Qed.

(** ** A returning run, in arithmetic *)

Section RunsArith.
Context {D : Decoders} {FM : FloatMath} {DS : DecodersSpec D}.

Lemma ufloatRun_arith (min max : float64) (eb sb : Z)
      (s : bitStream) (v : float64) (s' : bitStream) :
  valid_widths eb sb ->
  ufloatRun min max eb sb s v s' ->
  exists e si sf,
    let fb := ufloatFracBits e sb in
    clampExp eb min <= e <= clampExp eb max /\
    0 <= fb <= sb /\
    0 <= si < 2 ^ (sb - fb) /\ 0 <= sf < 2 ^ fb /\
    v = runBits e si sf fb sb /\
    (e = clampExp eb min -> cutSignif sb min <= si * 2 ^ fb + sf) /\
    (e = clampExp eb max -> si * 2 ^ fb + sf <= cutSignif sb max).
Proof.
  intros Hw. pose proof Hw as [Heb Hsb]. unfold ufloatRun.
  rewrite !ufloatParts_eq by assumption. cbv zeta.
  pose proof (clampExp_range eb min Heb) as Ha.
  pose proof (clampExp_range eb max Heb) as Hc.
  pose proof (expBias_range eb Heb) as Hb.
  set (a := clampExp eb min) in *. set (c := clampExp eb max) in *.
  pose proof (cutSignif_range sb min Hsb) as Hsmin.
  pose proof (cutSignif_range sb max Hsb) as Hsmax.
  set (smin := cutSignif sb min) in *. set (smax := cutSignif sb max) in *.
  intros (e & si & sf & w & j & evs1 & evs2 & He & Hrest).
  rewrite (i64_small a), (i64_small c) in He by lia.
  rewrite (i32_small e) in Hrest by lia.
  destruct Hrest as (Hsi & Hsf & Hv & _).
  assert (He32 : - 2 ^ 31 <= e < 2 ^ 31) by lia.
  pose proof (ufloatFracBits_range e sb He32 Hsb) as Hfb.
  set (fb := ufloatFracBits e sb) in *.
  pose proof (pow2_pos fb ltac:(lia)) as Hpf.
  pose proof (pow2_split fb sb ltac:(lia)) as Hsplit.
  pose proof (pow2_pos (sb - fb) ltac:(lia)) as Hpi.
  assert (Hdiv : forall x, 0 <= x < 2 ^ sb ->
                 0 <= x / 2 ^ fb < 2 ^ (sb - fb)).
  { intros x Hx. split; [apply Z.div_pos; lia|].
    apply Z.div_lt_upper_bound; lia. }
  apply siRange_bounds in Hsi; try lia.
  2:{ apply Z.div_pos; [|apply pow2_pos]; try lia.
      pose proof (ufloatFracBits_range a sb ltac:(lia) Hsb). lia. }
  2:{ intros E. subst e. fold fb. apply Hdiv. lia. }
  destruct Hsi as (Hsi0 & Hsilo & Hsihi).
  pose proof (shiftLoop_range (Z.to_nat (i64 (i64 fb - w))) sf _ _ Hsf)
    as Hsf'.
  set (sf' := shiftLoop _ _ _ _) in *.
  apply sfRange_bounds in Hsf'; try lia; try assumption.
  2:{ apply Z.mod_pos_bound. apply pow2_pos.
      pose proof (ufloatFracBits_range a sb ltac:(lia) Hsb). lia. }
  2:{ intros E. subst e. fold fb. apply Z.mod_pos_bound. lia. }
  destruct Hsf' as (Hsf0 & Hsflo & Hsfhi).
  exists e, si, sf'. cbv zeta. fold fb.
  repeat split; try lia.
  - rewrite Hv. apply packFloat_eq; lia.
  - intros E. apply lex_le_lower; try lia.
    + specialize (Hsilo E). subst e. fold fb in Hsilo. exact Hsilo.
    + intros E2. specialize (Hsflo E). subst e. fold fb in Hsflo.
      apply Hsflo. exact E2.
  - intros E. apply lex_le_upper; try lia.
    + specialize (Hsihi E). subst e. fold fb in Hsihi. exact Hsihi.
    + intros E2. specialize (Hsfhi E). subst e. fold fb in Hsfhi.
      apply Hsfhi. exact E2.
Qed.

End RunsArith.

(** ** Order of bit patterns *)

Lemma fle_true (a b : float64) :
  fle a b = true <->
  fisNaN a = false /\ fisNaN b = false /\ fkey a <= fkey b.
Proof.
  unfold fle. rewrite !andb_true_iff, !negb_true_iff, Z.leb_le. tauto.
Qed.

Lemma flt_true (a b : float64) :
  flt a b = true <->
  fisNaN a = false /\ fisNaN b = false /\ fkey a < fkey b.
Proof.
  unfold flt. rewrite !andb_true_iff, !negb_true_iff, Z.ltb_lt. tauto.
Qed.

Lemma fisNaN_false (f : float64) :
  fisNaN f = false <-> fabs_bits f <= fInf_bits.
Proof. unfold fisNaN. rewrite Z.ltb_ge. tauto. Qed.

Lemma fkey_abs (f : float64) : Z.abs (fkey f) = fabs_bits f.
Proof.
  unfold fkey. pose proof (fabs_bits_range f). destruct (fsign f); lia.
Qed.

Lemma fkey_fzero : fkey fzero = 0.
Proof. reflexivity. Qed.

Lemma positive_bits (v : Z) :
  0 <= v < 2 ^ 63 -> fabs_bits v = v /\ fsign v = false /\ fkey v = v.
Proof.
  intros H.
  assert (Ha : fabs_bits v = v).
  { unfold fabs_bits. rewrite land_MaxInt64. now apply Z.mod_small. }
  assert (Hs : fsign v = false).
  { unfold fsign. apply Z.testbit_false; [lia|].
    rewrite Z.div_small by lia. reflexivity. }
  repeat split; try assumption.
  unfold fkey. now rewrite Hs.
Qed.

(** A bit pattern is its exponent field times [2^52] plus its
    significand field. *)
Lemma fabs_bits_fields (f : float64) :
  fabs_bits f = (rawExp f + 1023) * 2 ^ 52 + fabs_bits f mod 2 ^ 52.
Proof.
  unfold rawExp. pose proof (Z.div_mod (fabs_bits f) (2 ^ 52)). lia.
Qed.

Lemma cutSignif_le (sb : Z) (f : float64) :
  0 <= sb <= 52 -> cutSignif sb f * 2 ^ (52 - sb) <= fabs_bits f mod 2 ^ 52.
Proof.
  intros H. unfold cutSignif.
  pose proof (pow2_pos (52 - sb) ltac:(lia)) as Hp.
  pose proof (Z.div_mod (fabs_bits f mod 2 ^ 52) (2 ^ (52 - sb)) ltac:(lia)).
  pose proof (Z.mod_pos_bound (fabs_bits f mod 2 ^ 52) (2 ^ (52 - sb)) Hp).
  lia.
Qed.

Lemma cutSignif_exact (sb : Z) (f : float64) :
  0 <= sb <= 52 -> fabs_bits f mod 2 ^ (52 - sb) = 0 ->
  cutSignif sb f * 2 ^ (52 - sb) = fabs_bits f mod 2 ^ 52.
Proof.
  intros H H0. unfold cutSignif.
  pose proof (pow2_pos (52 - sb) ltac:(lia)) as Hp.
  pose proof (Z.div_mod (fabs_bits f mod 2 ^ 52) (2 ^ (52 - sb)) ltac:(lia))
    as Hdm.
  assert (Hmm : (fabs_bits f mod 2 ^ 52) mod 2 ^ (52 - sb) = 0).
  { rewrite Z.mod_mod_divide; [exact H0|].
    exists (2 ^ sb). rewrite (pow2_split (52 - sb) 52) by lia.
    f_equal. f_equal. lia. }
  lia.
Qed.

(** The upper bound: whatever is decoded up to the parts of [max] is at
    most [max], provided [max] is not below the normal numbers of the
    width. *)
Lemma run_le_upper (eb sb e S : Z) (max : float64) :
  valid_widths eb sb ->
  - expBias eb + 1 <= rawExp max ->
  e <= clampExp eb max -> 0 <= S < 2 ^ sb ->
  (e = clampExp eb max -> S <= cutSignif sb max) ->
  (e + 1023) * 2 ^ 52 + S * 2 ^ (52 - sb) <= fabs_bits max.
Proof.
  intros [Heb Hsb] Hn He HS Hcut.
  pose proof (fabs_bits_fields max) as Hf.
  pose proof (cutSignif_le sb max Hsb) as Hc.
  pose proof (Z.mod_pos_bound (fabs_bits max) (2 ^ 52) ltac:(lia)) as Hm.
  pose proof (pow2_split sb 52 ltac:(lia)) as Hs.
  pose proof (pow2_pos (52 - sb) ltac:(lia)) as Hp.
  pose proof (pow2_pos sb ltac:(lia)) as Hp'.
  assert (HSP : S * 2 ^ (52 - sb) < 2 ^ 52) by nia.
  unfold clampExp in *.
  destruct (Z.eq_dec e (rawExp max)) as [E|E].
  - assert (S <= cutSignif sb max) by (apply Hcut; lia). nia.
  - assert (e + 1 <= rawExp max) by lia. nia.
Qed.

(** The lower bound: [min] is at most whatever is decoded from the parts
    of [min] on, provided [min] is below the normal numbers of the width
    or one of them. *)
Lemma run_ge_lower (eb sb e S : Z) (min : float64) :
  valid_widths eb sb ->
  rawExp min < - expBias eb + 1 \/
  (rawExp min <= expBias eb /\ fabs_bits min mod 2 ^ (52 - sb) = 0) ->
  clampExp eb min <= e -> 0 <= S ->
  (e = clampExp eb min -> cutSignif sb min <= S) ->
  fabs_bits min <= (e + 1023) * 2 ^ 52 + S * 2 ^ (52 - sb).
Proof.
  intros [Heb Hsb] Hn He HS Hcut.
  pose proof (fabs_bits_fields min) as Hf.
  pose proof (Z.mod_pos_bound (fabs_bits min) (2 ^ 52) ltac:(lia)) as Hm.
  pose proof (pow2_pos (52 - sb) ltac:(lia)) as Hp.
  pose proof (expBias_range eb Heb) as Hb.
  unfold clampExp in *.
  destruct Hn as [Hsub|[Hle Hex]].
  - assert (rawExp min + 1 <= e) by lia. nia.
  - pose proof (cutSignif_exact sb min Hsb Hex) as Hc.
    destruct (Z.eq_dec e (rawExp min)) as [E|E].
    + assert (cutSignif sb min <= S) by (apply Hcut; lia). nia.
    + assert (rawExp min + 1 <= e) by lia. nia.
Qed.

(** ** Bounds in the two widths *)

Lemma isZero_true (f : float64) : isZero f = true <-> fabs_bits f = 0.
Proof. unfold isZero. apply Z.eqb_eq. Qed.

Lemma widthNormal_true (eb sb : Z) (f : float64) :
  widthNormal eb sb f = true <->
  - expBias eb + 1 <= rawExp f <= expBias eb /\
  fabs_bits f mod 2 ^ (52 - sb) = 0.
Proof.
  unfold widthNormal. rewrite !andb_true_iff, !Z.leb_le, Z.eqb_eq. tauto.
Qed.

Lemma widthNormal_fneg (eb sb : Z) (f : float64) :
  widthNormal eb sb (fneg f) = widthNormal eb sb f.
Proof. unfold widthNormal, rawExp. now rewrite fabs_bits_fneg. Qed.

Lemma isZero_fneg (f : float64) : isZero (fneg f) = isZero f.
Proof. unfold isZero. now rewrite fabs_bits_fneg. Qed.

Lemma zeroOrNormal_fneg (eb sb : Z) (f : float64) :
  zeroOrNormal eb sb (fneg f) = zeroOrNormal eb sb f.
Proof. unfold zeroOrNormal. now rewrite isZero_fneg, widthNormal_fneg. Qed.

Lemma zeroOrNormal_lower (eb sb : Z) (f : float64) :
  2 <= eb <= 11 ->
  zeroOrNormal eb sb f = true ->
  rawExp f < - expBias eb + 1 \/
  (rawExp f <= expBias eb /\ fabs_bits f mod 2 ^ (52 - sb) = 0).
Proof.
  intros Heb H. pose proof (expBias_range eb Heb).
  unfold zeroOrNormal in H. apply orb_true_iff in H. destruct H as [H|H].
  - left. apply isZero_true in H. unfold rawExp. rewrite H. cbn. lia.
  - right. apply widthNormal_true in H. lia.
Qed.

Lemma widthNormal_not_NaN (eb sb : Z) (f : float64) :
  2 <= eb <= 11 -> widthNormal eb sb f = true ->
  0 < fabs_bits f < fInf_bits.
Proof.
  intros Heb H. apply widthNormal_true in H. destruct H as [H _].
  pose proof (expBias_range eb Heb).
  pose proof (fabs_bits_fields f) as Hf.
  pose proof (Z.mod_pos_bound (fabs_bits f) (2 ^ 52) ltac:(lia)).
  unfold fInf_bits. nia.
Qed.

Section Soundness.
Context {D : Decoders} {FM : FloatMath} {DS : DecodersSpec D}.

(** A returning run of [genUfloatRange] gives a positive finite number;
    it respects the lower bound when that is zero or normal, and the
    upper bound when that is normal or above. *)
Lemma genUfloatRange_sound (min max : float64) (eb sb : Z)
      (s : bitStream) (v : float64) (s' : bitStream) :
  valid_widths eb sb ->
  genUfloatRange min max eb sb s = Ok v s' ->
  ((- expBias eb + 1 + 1023) * 2 ^ 52 <= v
     < (expBias eb + 1 + 1023) * 2 ^ 52) /\
  v mod 2 ^ (52 - sb) = 0 /\
  (rawExp min < - expBias eb + 1 \/
   (rawExp min <= expBias eb /\ fabs_bits min mod 2 ^ (52 - sb) = 0) ->
   fabs_bits min <= v) /\
  (- expBias eb + 1 <= rawExp max -> v <= fabs_bits max).
Proof.
  intros Hw Hrun. pose proof Hw as [Heb Hsb].
  apply genUfloatRange_Ok in Hrun. destruct Hrun as [_ Hrun].
  apply ufloatRun_arith in Hrun; [|assumption].
  destruct Hrun as (e & si & sf & He & Hfb & Hsi & Hsf & Hv & Hlo & Hhi).
  cbv zeta in *. set (fb := ufloatFracBits e sb) in *.
  pose proof (clampExp_range eb min Heb) as Ha.
  pose proof (clampExp_range eb max Heb) as Hc.
  pose proof (expBias_range eb Heb) as Hb.
  pose proof (pow2_split fb sb ltac:(lia)) as Hs1.
  pose proof (pow2_split sb 52 ltac:(lia)) as Hs2.
  pose proof (pow2_pos fb ltac:(lia)) as Hp1.
  pose proof (pow2_pos (sb - fb) ltac:(lia)) as Hp2.
  pose proof (pow2_pos (52 - sb) ltac:(lia)) as Hp3.
  assert (HS : 0 <= si * 2 ^ fb + sf < 2 ^ sb) by nia.
  unfold runBits in Hv. set (S := si * 2 ^ fb + sf) in *.
  assert (HSP : 0 <= S * 2 ^ (52 - sb) < 2 ^ 52) by nia.
  repeat split.
  - nia.
  - nia.
  - rewrite Hv.
    replace ((e + 1023) * 2 ^ 52)
      with ((e + 1023) * 2 ^ sb * 2 ^ (52 - sb)) by (rewrite Hs2; ring).
    rewrite <- Z.mul_add_distr_r. apply Z.mod_mul. lia.
  - intros Hmin. rewrite Hv.
    apply (run_ge_lower eb sb e S min Hw Hmin); lia.
  - intros Hmax. rewrite Hv.
    apply (run_le_upper eb sb e S max Hw Hmax); lia.
Qed.

End Soundness.

Section Range.
Context {D : Decoders} {FM : FloatMath} {DS : DecodersSpec D}.

Lemma genUfloatRange_between (lo hi : float64) (eb sb : Z)
      (s : bitStream) (v : float64) (s' : bitStream) :
  valid_widths eb sb ->
  zeroOrNormal eb sb lo = true -> widthNormal eb sb hi = true ->
  genUfloatRange lo hi eb sb s = Ok v s' ->
  fabs_bits lo <= v <= fabs_bits hi /\
  0 < v < fInf_bits /\ fisNaN v = false /\ fkey v = v /\
  fisNaN (fneg v) = false /\ fkey (fneg v) = - v.
Proof.
  intros Hw Hlo Hhi Hrun. pose proof Hw as [Heb Hsb].
  pose proof (expBias_range eb Heb) as Hb.
  apply genUfloatRange_sound in Hrun; [|assumption].
  destruct Hrun as (Hv & _ & Hmin & Hmax).
  specialize (Hmin (zeroOrNormal_lower eb sb lo Heb Hlo)).
  apply widthNormal_true in Hhi.
  specialize (Hmax ltac:(lia)).
  assert (Hr : 0 < v < fInf_bits) by (unfold fInf_bits; nia).
  assert (Hr' : 0 <= v < 2 ^ 63) by (unfold fInf_bits in Hr; lia).
  destruct (positive_bits v Hr') as (Ha & Hs & Hk).
  assert (Hn : fisNaN v = false) by (apply fisNaN_false; lia).
  repeat split; try lia; try assumption.
  - now rewrite fisNaN_fneg.
  - now rewrite fkey_fneg, Hk.
Qed.

(** C1, as amended: for bounds [min <= max] that are each zero or a
    normal number of the width, and not both zero, every value that
    [genFloatRange] returns lies in [[min, max]]. *)
Theorem genFloatRange_in_range (min max : float64) (eb sb : Z)
        (s : bitStream) (v : float64) (s' : bitStream) :
  valid_widths eb sb ->
  zeroOrNormal eb sb min = true -> zeroOrNormal eb sb max = true ->
  isZero min && isZero max = false ->
  fle min max = true ->
  genFloatRange min max eb sb s = Ok v s' ->
  fle min v = true /\ fle v max = true.
Proof.
  intros Hw Zmin Zmax Hnz Hle Hrun. pose proof Hw as [Heb Hsb].
  apply fle_true in Hle. destruct Hle as (Nmin & Nmax & Hkey).
  pose proof (fkey_abs min) as Amin. pose proof (fkey_abs max) as Amax.
  assert (Wmin : isZero min = false -> widthNormal eb sb min = true).
  { intros Hz. unfold zeroOrNormal in Zmin. now rewrite Hz in Zmin. }
  assert (Wmax : isZero max = false -> widthNormal eb sb max = true).
  { intros Hz. unfold zeroOrNormal in Zmax. now rewrite Hz in Zmax. }
  assert (Imin : isZero min = true <-> fkey min = 0).
  { rewrite isZero_true. lia. }
  assert (Imax : isZero max = true <-> fkey max = 0).
  { rewrite isZero_true. lia. }
  unfold genFloatRange, signSplit in Hrun.
  destruct (fge min fzero) eqn:Hge.
  - (* min >= 0: the coin is false *)
    unfold bind, lift in Hrun. rewrite flipBiasedCoin_zero in Hrun.
    apply fle_true in Hge. destruct Hge as (_ & _ & Hge).
    rewrite fkey_fzero in Hge.
    assert (Hmaxnz : isZero max = false).
    { apply not_true_iff_false. intros E.
      apply Imax in E. assert (E' : fkey min = 0) by lia.
      apply Imin in E'. rewrite E', Bool.andb_true_l in Hnz.
      apply Imax in E. congruence. }
    apply genUfloatRange_between in Hrun; auto.
    destruct Hrun as (Hb & _ & Nv & Kv & _).
    rewrite !fle_true. rewrite Kv. repeat split; auto; lia.
  - assert (Hmin0 : fkey min < 0).
    { destruct (Z.ltb_spec (fkey min) 0) as [|Hc]; [assumption|].
      exfalso. unfold fge in Hge.
      assert (fle fzero min = true); [|congruence].
      apply fle_true. rewrite fkey_fzero. repeat split; auto. }
    assert (Hminnz : isZero min = false).
    { apply not_true_iff_false. intros E. apply Imin in E. lia. }
    destruct (fle max fzero) eqn:Hmle.
    + (* max <= 0: the coin is true *)
      unfold bind, lift in Hrun. rewrite flipBiasedCoin_one in Hrun.
      destruct (genUfloatRange (fneg max) (fneg min) eb sb s)
        as [f s1|] eqn:Hu; [|discriminate].
      unfold ret in Hrun. injection Hrun as <- <-.
      apply fle_true in Hmle. destruct Hmle as (_ & _ & Hmle).
      rewrite fkey_fzero in Hmle.
      apply genUfloatRange_between in Hu; auto.
      2:{ now rewrite zeroOrNormal_fneg. }
      2:{ rewrite widthNormal_fneg. auto. }
      rewrite !fabs_bits_fneg in Hu.
      destruct Hu as (Hb & _ & _ & _ & Nv & Kv).
      rewrite !fle_true. rewrite Kv. repeat split; auto; lia.
    + (* the range crosses zero *)
      assert (Hmax0 : 0 < fkey max).
      { destruct (Z.ltb_spec 0 (fkey max)) as [|Hc]; [assumption|].
        exfalso. assert (fle max fzero = true); [|congruence].
        apply fle_true. rewrite fkey_fzero. repeat split; auto. }
      assert (Hmaxnz : isZero max = false).
      { apply not_true_iff_false. intros E. apply Imax in E. lia. }
      unfold bind, lift in Hrun.
      destruct (flipBiasedCoin _ s) as [[[|] s0]|]; [| |discriminate].
      * destruct (genUfloatRange fzero (fneg min) eb sb s0)
          as [f s1|] eqn:Hu; [|discriminate].
        unfold ret in Hrun. injection Hrun as <- <-.
        apply genUfloatRange_between in Hu; auto.
        2:{ rewrite widthNormal_fneg. auto. }
        rewrite !fabs_bits_fneg in Hu.
        destruct Hu as (Hb & Hpos & _ & _ & Nv & Kv).
        rewrite !fle_true. rewrite Kv. repeat split; auto; lia.
      * apply genUfloatRange_between in Hrun; auto.
        destruct Hrun as (Hb & Hpos & Nv & Kv & _).
        rewrite !fle_true. rewrite Kv. repeat split; auto; lia.
Qed.

End Range.

(** ** The reference decoders meet the contract *)

Lemma extends_nested_refl (s : bitStream) : extends_nested s s.
Proof. exists []. split; [now rewrite app_nil_r|reflexivity]. Qed.

Lemma bitmask64_nonneg (n : Z) : 0 <= bitmask64 n.
Proof. unfold bitmask64, u64. apply Z.mod_pos_bound. lia. Qed.

Lemma drawBits_Some (width : Z) (s : bitStream) (v : Z) (s' : bitStream) :
  drawBits width s = Some (v, s') -> 0 <= v /\ log s' = log s.
Proof.
  unfold drawBits. destruct (nth_error (words s) (cursor s)); [|discriminate].
  intros H. injection H as <- <-. split; [|reflexivity].
  apply Z.land_nonneg. right. apply bitmask64_nonneg.
Qed.

Lemma sample_Some (tries : nat) (bitlen width : Z)
      (s : bitStream) (v : Z) (s' : bitStream) :
  Reference.sample tries bitlen width s = Some (v, s') ->
  0 <= v <= width /\ log s' = log s.
Proof.
  revert s. induction tries as [|n IH]; intros s; cbn; [discriminate|].
  destruct (drawBits bitlen s) as [[x s1]|] eqn:Hd; [|discriminate].
  apply drawBits_Some in Hd. destruct Hd as [Hx Hl].
  destruct (Z.leb_spec x width) as [Hle|Hgt].
  - intros H. injection H as <- <-. split; [lia|assumption].
  - intros H. apply IH in H. rewrite Hl in H. exact H.
Qed.

Lemma uintRangeWidth_Some (lo hi : Z) (bias : bool)
      (s : bitStream) (v w : Z) (s' : bitStream) :
  Reference.uintRangeWidth lo hi bias s = Some ((v, w), s') ->
  lo <= v <= hi /\ extends_nested s s'.
Proof.
  unfold Reference.uintRangeWidth.
  destruct (Z.ltb_spec hi lo); [discriminate|].
  destruct (Z.eqb_spec hi lo).
  - intros E. injection E as <- <- <-. split; [lia|apply extends_nested_refl].
  - destruct (Reference.sample _ _ _ s) as [[x s1]|] eqn:Hs; [|discriminate].
    apply sample_Some in Hs. destruct Hs as [Hx Hl].
    intros E. injection E as <- <- <-. split; [lia|].
    exists []. split; [now rewrite app_nil_r|reflexivity].
Qed.

Lemma uintRange_Some (lo hi : Z) (bias : bool)
      (s : bitStream) (v : Z) (s' : bitStream) :
  Reference.uintRange lo hi bias s = Some (v, s') ->
  lo <= v <= hi /\ extends_nested s s'.
Proof.
  unfold Reference.uintRange.
  destruct (Reference.uintRangeWidth lo hi bias s) as [[[x w] s1]|] eqn:E;
    [|discriminate].
  intros H. injection H as <- <-. now apply uintRangeWidth_Some in E.
Qed.

Lemma reference_decodersSpec : DecodersSpec Reference.decoders.
Proof.
  constructor.
  - intros lo hi bias s v s'. apply uintRange_Some.
  - intros lo hi bias s v s'. apply uintRange_Some.
  - intros lo hi bias s v w s'. apply uintRangeWidth_Some.
  - reflexivity.
  - reflexivity.
Qed.

Lemma reference_total_on_points : total_on_points Reference.decoders.
Proof.
  intros x bias s. cbn.
  unfold Reference.intRange, Reference.uintRange, Reference.uintRangeWidth.
  rewrite Z.ltb_irrefl, Z.eqb_refl.
  repeat split; eauto.
Qed.

(** C1, as stated, fails for the range [[0, 0]]: the draw returns the
    smallest normal number [2^-1022] (bit pattern [2^52]), which is above
    the upper bound. *)
Lemma genFloatRange_zero_range_escapes :
  fisNaN fzero = false /\ fle fzero fzero = true /\
  genFloatRange (D := Reference.decoders) (FM := Reference.floatMath)
                fzero fzero 11 52 (Reference.replay []) =
  Ok (2 ^ 52)
     (mkStream [] 0 [EvBegin 0 floatExpLabel false; EvEnd 0 false;
                     EvBegin 1 floatSignifLabel false; EvEnd 1 false]) /\
  fle (2 ^ 52) fzero = false.
Proof. repeat split; vm_compute; reflexivity. Qed.

Lemma genFloatRange_in_range_witness :
  fle fzero 27021597764222976 = true /\
  fle 27021597764222976 fone = true.
Proof.
  apply (@genFloatRange_in_range Reference.decoders Reference.floatMath
           reference_decodersSpec fzero fone 11 52
           (Reference.replay [5; 0]) 27021597764222976
           (mkStream [5; 0] 2
              [EvBegin 0 floatExpLabel false; EvEnd 0 false;
               EvBegin 1 floatSignifLabel false; EvEnd 1 false])).
  - unfold valid_widths. lia.
  - reflexivity.
  - reflexivity.
  - reflexivity.
  - reflexivity.
  - vm_compute. reflexivity.
Defined.

(** ** One-point ranges *)

Lemma fge_zero_true (f : float64) :
  fge f fzero = true <-> fisNaN f = false /\ 0 <= fkey f.
Proof.
  unfold fge. rewrite fle_true, fkey_fzero.
  assert (fisNaN fzero = false) by reflexivity. tauto.
Qed.

Lemma fle_zero_true (f : float64) :
  fle f fzero = true <-> fisNaN f = false /\ fkey f <= 0.
Proof.
  rewrite fle_true, fkey_fzero.
  assert (fisNaN fzero = false) by reflexivity. tauto.
Qed.

Lemma fge_zero_false (f : float64) :
  fisNaN f = false -> fge f fzero = false -> fkey f < 0.
Proof.
  intros Hn Hge. destruct (Z.ltb_spec (fkey f) 0) as [|Hc]; [assumption|].
  assert (fge f fzero = true) by (apply fge_zero_true; auto). congruence.
Qed.

Lemma fle_zero_false (f : float64) :
  fisNaN f = false -> fle f fzero = false -> 0 < fkey f.
Proof.
  intros Hn Hle. destruct (Z.ltb_spec 0 (fkey f)) as [|Hc]; [assumption|].
  assert (fle f fzero = true) by (apply fle_zero_true; auto). congruence.
Qed.

Lemma fkey_sign (f : float64) :
  (fkey f < 0 -> fsign f = true) /\ (0 < fkey f -> fsign f = false).
Proof.
  unfold fkey. pose proof (fabs_bits_range f).
  destruct (fsign f); split; auto; lia.
Qed.


Lemma high_bits_false (x k : Z) :
  0 <= x < 2 ^ 64 -> 64 <= k -> Z.testbit x k = false.
Proof.
  intros Hx Hk. destruct (Z.eq_dec x 0) as [->|Hnz]; [apply Z.bits_0|].
  apply Z.bits_above_log2; [lia|].
  apply Z.lt_le_trans with 64; [|lia].
  apply Z.log2_lt_pow2; lia.
Qed.

Lemma fabs_bits_positive (x : float64) :
  0 <= x < 2 ^ 64 -> fsign x = false -> fabs_bits x = x.
Proof.
  intros Hx Hs. unfold fabs_bits, fsign in *.
  apply Z.bits_inj'. intros k Hk. rewrite Z.land_spec.
  destruct (Z.ltb_spec k 63).
  - unfold MaxInt64. replace (2 ^ 63 - 1) with (Z.ones 63) by reflexivity.
    rewrite Z.ones_spec_low by lia. apply andb_true_r.
  - destruct (Z.eq_dec k 63) as [->|Hne].
    + rewrite Hs. reflexivity.
    + rewrite (high_bits_false x k) by lia. reflexivity.
Qed.

Lemma fneg_fabs_bits_negative (x : float64) :
  0 <= x < 2 ^ 64 -> fsign x = true -> fneg (fabs_bits x) = x.
Proof.
  intros Hx Hs. unfold fneg, fabs_bits, fsign in *.
  apply Z.bits_inj'. intros k Hk. rewrite Z.lxor_spec, Z.land_spec.
  destruct (Z.ltb_spec k 63).
  - unfold MaxInt64. replace (2 ^ 63 - 1) with (Z.ones 63) by reflexivity.
    rewrite Z.ones_spec_low by lia.
    rewrite Z.pow2_bits_false by lia.
    now rewrite andb_true_r, xorb_false_r.
  - destruct (Z.eq_dec k 63) as [->|Hne].
    + rewrite Hs, Z.pow2_bits_true by lia.
      unfold MaxInt64. now replace (Z.testbit (2 ^ 63 - 1) 63) with false.
    + rewrite (high_bits_false x k) by lia.
      rewrite Z.pow2_bits_false by lia. reflexivity.
Qed.

Section Points.
Context {D : Decoders} {FM : FloatMath} {DS : DecodersSpec D}.

Lemma genUfloatRange_point_returns (m : float64) (eb sb : Z)
      (s : bitStream) :
  total_on_points D ->
  fge m fzero && fle m m = true ->
  exists v s', genUfloatRange m m eb sb s = Ok v s'.
Proof.
  intros Htot Hguard.
  unfold genUfloatRange, bind, assert, assertf. rewrite Hguard.
  destruct (ufloatParts m eb sb) as [[a I] F].
  unfold beginGroup at 1. cbv beta zeta. unfold lift at 1.
  set (s0 := mkStream _ _ _).
  destruct (Htot (i64 a) true s0) as [[s1 H1] _]. rewrite H1.
  unfold endGroup at 1, beginGroup at 1. cbv beta zeta.
  set (s2 := mkStream _ _ (_ ++ [EvBegin _ _ _])).
  unfold siRange. rewrite Z.eqb_refl. unfold lift at 1.
  destruct (Htot I false s2) as [_ [[s3 H3] _]]. rewrite H3.
  unfold sfRange. rewrite !Z.eqb_refl. cbn [andb]. unfold lift at 1.
  destruct (Htot F true s3) as [_ [_ [w [s4 H4]]]]. rewrite H4.
  unfold endGroup, ret. eauto.
Qed.

(** C3, as amended: for a normal number [x] of the width, the range
    [[x, x]] is a constant generator: a draw that returns, returns exactly
    [x], and the draw returns whenever the decoders return on one-point
    ranges. *)
Theorem genFloatRange_point (x : float64) (eb sb : Z) (s : bitStream) :
  valid_widths eb sb ->
  0 <= x < 2 ^ 64 ->
  widthNormal eb sb x = true ->
  (forall v s', genFloatRange x x eb sb s = Ok v s' -> v = x) /\
  (total_on_points D -> exists s', genFloatRange x x eb sb s = Ok x s').
Proof.
  intros Hw Hx Hn. pose proof Hw as [Heb Hsb].
  pose proof (widthNormal_not_NaN eb sb x Heb Hn) as Hfin.
  assert (Nx : fisNaN x = false) by (apply fisNaN_false; lia).
  assert (Zx : zeroOrNormal eb sb x = true).
  { unfold zeroOrNormal. rewrite Hn. apply orb_true_r. }
  assert (Hsound : forall v s', genFloatRange x x eb sb s = Ok v s' -> v = x).
  { intros v s' Hrun. unfold genFloatRange, signSplit in Hrun.
    pose proof (fkey_abs x) as Ax. pose proof (fkey_sign x) as [Sneg Spos].
    destruct (fge x fzero) eqn:Hge.
    - apply fge_zero_true in Hge. destruct Hge as [_ Hge].
      unfold bind, lift in Hrun. rewrite flipBiasedCoin_zero in Hrun.
      apply genUfloatRange_between in Hrun; auto.
      replace v with (fabs_bits x) by lia.
      apply fabs_bits_positive; [assumption|]. apply Spos. lia.
    - apply fge_zero_false in Hge; [|assumption].
      assert (Hle : fle x fzero = true)
        by (apply fle_zero_true; split; [assumption|lia]).
      rewrite Hle in Hrun.
      unfold bind, lift in Hrun. rewrite flipBiasedCoin_one in Hrun.
      destruct (genUfloatRange (fneg x) (fneg x) eb sb s)
        as [f s1|] eqn:Hu; [|discriminate].
      unfold ret in Hrun. injection Hrun as <- <-.
      apply genUfloatRange_between in Hu; auto.
      + rewrite fabs_bits_fneg in Hu.
        replace f with (fabs_bits x) by lia.
        apply fneg_fabs_bits_negative; auto.
      + now rewrite zeroOrNormal_fneg.
      + now rewrite widthNormal_fneg. }
  split; [exact Hsound|].
  intros Htot.
  assert (Hret : exists v s', genFloatRange x x eb sb s = Ok v s').
  { unfold genFloatRange, signSplit.
    destruct (fge x fzero) eqn:Hge.
    - unfold bind, lift. rewrite flipBiasedCoin_zero.
      apply genUfloatRange_point_returns; [assumption|].
      rewrite Hge. apply fle_true. repeat split; auto; lia.
    - apply fge_zero_false in Hge; [|assumption].
      assert (Hle : fle x fzero = true)
        by (apply fle_zero_true; split; [assumption|lia]).
      rewrite Hle. unfold bind, lift. rewrite flipBiasedCoin_one.
      destruct (genUfloatRange_point_returns (fneg x) eb sb s Htot)
        as (f & s1 & Hf).
      + apply fle_true in Hle. destruct Hle as (_ & _ & Hle).
        rewrite fkey_fzero in Hle.
        apply andb_true_iff. split; [unfold fge|]; apply fle_true;
          rewrite ?fisNaN_fneg, ?fkey_fneg, ?fkey_fzero;
          repeat split; auto; lia.
      + rewrite Hf. unfold ret. eauto. }
  destruct Hret as (v & s' & Hrun).
  exists s'. rewrite Hrun. f_equal. now apply Hsound in Hrun.
Qed.

End Points.

(** C3, as stated, fails for [x = 0]: the range [[0, 0]] yields the
    smallest normal number, bit pattern [2^52], not zero. *)
Lemma genFloatRange_zero_point_not_constant :
  fisNaN fzero = false /\
  exists v s',
    genFloatRange (D := Reference.decoders) (FM := Reference.floatMath)
                  fzero fzero 11 52 (Reference.replay [7]) = Ok v s' /\
    v = 2 ^ 52 /\ v <> fzero.
Proof.
  split; [reflexivity|].
  eexists. eexists. split; [vm_compute; reflexivity|].
  split; [reflexivity|discriminate].
Qed.

(** Other one-point ranges the exponent clamp moves: [+Inf] is drawn as
    [2^1023], and the smallest subnormal as the normal number with the
    same significand field. *)
Example genFloatRange_inf_point :
  genFloatRange (D := Reference.decoders) (FM := Reference.floatMath)
                fInf_bits fInf_bits 11 52 (Reference.replay [])
  = Ok (2046 * 2 ^ 52)
       (mkStream [] 0 [EvBegin 0 floatExpLabel false; EvEnd 0 false;
                       EvBegin 1 floatSignifLabel false; EvEnd 1 false]).
Proof. vm_compute. reflexivity. Qed.

Example genFloatRange_subnormal_point :
  genFloatRange (D := Reference.decoders) (FM := Reference.floatMath)
                1 1 11 52 (Reference.replay [])
  = Ok (2 ^ 52 + 1)
       (mkStream [] 0 [EvBegin 0 floatExpLabel false; EvEnd 0 false;
                       EvBegin 1 floatSignifLabel false; EvEnd 1 false]).
Proof. vm_compute. reflexivity. Qed.

Lemma genFloatRange_point_witness :
  (forall v s',
     genFloatRange (D := Reference.decoders) (FM := Reference.floatMath)
                   fone fone 11 52 (Reference.replay []) = Ok v s' ->
     v = fone) /\
  (total_on_points Reference.decoders ->
   exists s',
     genFloatRange (D := Reference.decoders) (FM := Reference.floatMath)
                   fone fone 11 52 (Reference.replay []) = Ok fone s').
Proof.
  apply (@genFloatRange_point Reference.decoders Reference.floatMath
           reference_decodersSpec fone 11 52 (Reference.replay [])).
  - unfold valid_widths. lia.
  - unfold fone. lia.
  - reflexivity.
Defined.

(** ** The assertion of genUfloatRange *)

Section Assertion.
Context {D : Decoders} {FM : FloatMath} {DS : DecodersSpec D}.

Lemma genUfloatRange_assertion (lo hi : float64) (eb sb : Z)
      (s : bitStream) (msg : string) :
  genUfloatRange lo hi eb sb s = Fail (AssertionFailed msg) ->
  fge lo fzero && fle lo hi = false.
Proof.
  unfold genUfloatRange, bind, assert, assertf.
  destruct (fge lo fzero && fle lo hi); [|reflexivity].
  destruct (ufloatParts lo eb sb) as [[a I] F].
  destruct (ufloatParts hi eb sb) as [[c J] G].
  unfold beginGroup at 1. cbv beta zeta. unfold lift at 1.
  destruct (genIntRange _ _ _ _) as [[e s1]|]; [|discriminate].
  unfold endGroup at 1, beginGroup at 1. cbv beta zeta.
  destruct (siRange _ _ _ _ _ _ _) as [siMin siMax].
  unfold lift at 1.
  destruct (genUintRange _ _ _ _) as [[si s3]|]; [|discriminate].
  destruct (sfRange _ _ _ _ _ _ _ _ _) as [sfMin sfMax].
  unfold lift at 1.
  destruct (genUintRangeWidth _ _ _ _) as [[[sf w] s4]|]; [|discriminate].
  unfold endGroup, ret. discriminate.
Qed.

(** C10: for bounds [min <= max] (neither is a NaN then), whichever
    sub-range [genFloatRange] hands to [genUfloatRange] has a lower bound
    that is non-negative and not above its upper bound, so the assertion at
    the top of [genUfloatRange] never fails. *)
Theorem genFloatRange_assertion_unreachable (min max : float64) (eb sb : Z) :
  fle min max = true ->
  (forall s coin s1,
     flipBiasedCoin (snd (signSplit min max)) s = Some (coin, s1) ->
     let '(posMin, negMin, _) := signSplit min max in
     if coin : bool
     then fge negMin fzero && fle negMin (fneg min) = true
     else fge posMin fzero && fle posMin max = true) /\
  (forall s msg, genFloatRange min max eb sb s <> Fail (AssertionFailed msg)).
Proof.
  intros Hle.
  assert (Hguard : forall s coin s1,
     flipBiasedCoin (snd (signSplit min max)) s = Some (coin, s1) ->
     let '(posMin, negMin, _) := signSplit min max in
     if coin : bool
     then fge negMin fzero && fle negMin (fneg min) = true
     else fge posMin fzero && fle posMin max = true).
  { intros s coin s1. unfold signSplit.
    pose proof Hle as Hle'. apply fle_true in Hle'.
    destruct Hle' as (Nmin & Nmax & Hkey).
    destruct (fge min fzero) eqn:Hge; cbn [snd].
    - rewrite flipBiasedCoin_zero. intros E. injection E as <- <-.
      rewrite Hge, Hle. reflexivity.
    - apply fge_zero_false in Hge; [|assumption].
      destruct (fle max fzero) eqn:Hmle; cbn [snd].
      + rewrite flipBiasedCoin_one. intros E. injection E as <- <-.
        apply fle_zero_true in Hmle. destruct Hmle as [_ Hmle].
        apply andb_true_iff. split.
        * apply fge_zero_true. rewrite fisNaN_fneg, fkey_fneg. split; auto; lia.
        * apply fle_true. rewrite !fisNaN_fneg, !fkey_fneg.
          repeat split; auto; lia.
      + apply fle_zero_false in Hmle; [|assumption].
        intros _. destruct coin; apply andb_true_iff; split;
          try reflexivity; apply fle_true;
          rewrite ?fisNaN_fneg, ?fkey_fneg, ?fkey_fzero;
          repeat split; auto; lia. }
  split; [exact Hguard|].
  intros s msg Hrun. unfold genFloatRange in Hrun.
  specialize (Hguard s).
  destruct (signSplit min max) as [[posMin negMin] pNeg]. cbn [snd] in Hguard.
  unfold bind, lift in Hrun.
  destruct (flipBiasedCoin pNeg s) as [[coin s1]|]; [|discriminate].
  specialize (Hguard coin s1 eq_refl).
  destruct coin.
  - destruct (genUfloatRange negMin (fneg min) eb sb s1) as [f s2|e] eqn:Hu;
      [discriminate|].
    injection Hrun as ->. apply genUfloatRange_assertion in Hu. congruence.
  - apply genUfloatRange_assertion in Hrun. congruence.
Qed.

(** C4, as amended: the probability handed to the coin is 0 when
    [min >= 0], 1 when [min < 0] and [max <= 0], and
    [log1p(log1p(-min)) / (log1p(log1p(-min)) + log1p(log1p(max)))] when
    [min < 0 < max]; in the first case the value is drawn from the
    positive sub-range, in the second from the negated negative one. *)
Theorem genFloatRange_sign_bias (min max : float64) (eb sb : Z) :
  (fge min fzero = true ->
   snd (signSplit min max) = fzero /\
   forall s, genFloatRange min max eb sb s = genUfloatRange min max eb sb s) /\
  (flt min fzero = true -> fle max fzero = true ->
   snd (signSplit min max) = fone /\
   forall s, genFloatRange min max eb sb s =
             (f <- genUfloatRange (fneg max) (fneg min) eb sb ;;
              ret (fneg f)) s) /\
  (flt min fzero = true -> flt fzero max = true ->
   let neg := Log1p (Log1p (fneg min)) in
   let pos := Log1p (Log1p max) in
   snd (signSplit min max) = fdiv neg (fadd neg pos) /\
   forall s, genFloatRange min max eb sb s =
             (coin <- lift (flipBiasedCoin (fdiv neg (fadd neg pos))) ;;
              if coin : bool
              then f <- genUfloatRange fzero (fneg min) eb sb ;; ret (fneg f)
              else genUfloatRange fzero max eb sb) s).
Proof.
  assert (Hneg : flt min fzero = true -> fge min fzero = false).
  { intros H. apply flt_true in H. destruct H as (_ & _ & H).
    rewrite fkey_fzero in H. apply not_true_iff_false. intros E.
    apply fge_zero_true in E. lia. }
  assert (Hpos : flt fzero max = true -> fle max fzero = false).
  { intros H. apply flt_true in H. destruct H as (_ & _ & H).
    rewrite fkey_fzero in H. apply not_true_iff_false. intros E.
    apply fle_zero_true in E. lia. }
  split; [|split].
  - intros Hge. split.
    + unfold signSplit. now rewrite Hge.
    + intros s. unfold genFloatRange, signSplit. rewrite Hge.
      unfold bind, lift. now rewrite flipBiasedCoin_zero.
  - intros Hlt Hle. split.
    + unfold signSplit. now rewrite (Hneg Hlt), Hle.
    + intros s. unfold genFloatRange, signSplit. rewrite (Hneg Hlt), Hle.
      unfold bind, lift. now rewrite flipBiasedCoin_one.
  - intros Hlt Hgt. cbv zeta. split.
    + unfold signSplit. now rewrite (Hneg Hlt), (Hpos Hgt).
    + intros s. unfold genFloatRange, signSplit.
      now rewrite (Hneg Hlt), (Hpos Hgt).
Qed.

End Assertion.

Lemma genFloatRange_assertion_unreachable_witness :
  (forall s coin s1,
     flipBiasedCoin (Decoders := Reference.decoders)
       (snd (signSplit (FM := Reference.floatMath) (fneg fone) fone)) s
     = Some (coin, s1) ->
     let '(posMin, negMin, _) :=
       signSplit (FM := Reference.floatMath) (fneg fone) fone in
     if coin : bool
     then fge negMin fzero && fle negMin (fneg (fneg fone)) = true
     else fge posMin fzero && fle posMin fone = true) /\
  (forall s msg,
     genFloatRange (D := Reference.decoders) (FM := Reference.floatMath)
                   (fneg fone) fone 11 52 s <> Fail (AssertionFailed msg)).
Proof.
  apply (@genFloatRange_assertion_unreachable Reference.decoders
           Reference.floatMath reference_decodersSpec (fneg fone) fone 11 52).
  reflexivity.
Defined.

(** C4, as stated, fails for [min = max = 0]: here [max <= 0], yet the
    probability of the negative sub-range is 0, not 1, and the value is
    drawn from the positive sub-range. *)
Lemma genFloatRange_zero_bias_not_one :
  fle fzero fzero = true /\
  snd (signSplit (FM := Reference.floatMath) fzero fzero) = fzero /\
  fzero <> fone /\
  forall s,
    genFloatRange (D := Reference.decoders) (FM := Reference.floatMath)
                  fzero fzero 11 52 s =
    genUfloatRange (D := Reference.decoders) fzero fzero 11 52 s.
Proof.
  repeat split; try reflexivity. discriminate.
Qed.

Lemma genFloatRange_sign_bias_witness :
  snd (signSplit (FM := Reference.floatMath) (fneg fone) fzero) = fone /\
  forall s,
    genFloatRange (D := Reference.decoders) (FM := Reference.floatMath)
                  (fneg fone) fzero 11 52 s =
    (f <- genUfloatRange (D := Reference.decoders)
                         (fneg fzero) (fneg (fneg fone)) 11 52 ;;
     ret (fneg f)) s.
Proof.
  apply (proj1 (proj2 (@genFloatRange_sign_bias Reference.decoders
           Reference.floatMath reference_decodersSpec
           (fneg fone) fzero 11 52))); reflexivity.
Defined.

(** ** Sign independence of ufloatParts *)

(** C9: [ufloatParts] does not see the sign of its argument: the parts of
    [-f] are the parts of [f], for every [f] and all widths. *)
Theorem ufloatParts_fneg (f : float64) (eb sb : Z) :
  ufloatParts (fneg f) eb sb = ufloatParts f eb sb.
Proof.
  unfold ufloatParts.
  change (Z.land (fneg f) MaxInt64) with (fabs_bits (fneg f)).
  change (Z.land f MaxInt64) with (fabs_bits f).
  now rewrite fabs_bits_fneg.
Qed.

(** ** Groups *)

Section Groups.
Context {D : Decoders} {FM : FloatMath} {DS : DecodersSpec D}.

(** C7: a returning run of [genUfloatRange] appends to the log the group
    ["floatexp"], closed with the token its [beginGroup] returned, and
    after it the group ["floatsignif"], closed with its own token; what
    the decoders log inside each is well nested, so the whole is, and the
    groups that were open before are exactly those open after. *)
Theorem genUfloatRange_groups_nested (min max : float64) (eb sb : Z)
        (s : bitStream) (v : float64) (s' : bitStream) :
  genUfloatRange min max eb sb s = Ok v s' ->
  exists j evs1 evs2,
    log s' = log s
             ++ ([EvBegin (nextToken s) floatExpLabel false] ++ evs1
                 ++ [EvEnd (nextToken s) false])
             ++ ([EvBegin j floatSignifLabel false] ++ evs2
                 ++ [EvEnd j false]) /\
    well_nested evs1 /\ well_nested evs2 /\
    well_nested (([EvBegin (nextToken s) floatExpLabel false] ++ evs1
                  ++ [EvEnd (nextToken s) false])
                 ++ ([EvBegin j floatSignifLabel false] ++ evs2
                     ++ [EvEnd j false])) /\
    forall open, nest [] (log s) = Some open -> nest [] (log s') = Some open.
Proof.
  intros Hrun. apply genUfloatRange_Ok in Hrun. destruct Hrun as [_ Hrun].
  unfold ufloatRun in Hrun.
  destruct (ufloatParts min eb sb) as [[minExp minSI] minSF].
  destruct (ufloatParts max eb sb) as [[maxExp maxSI] maxSF].
  destruct Hrun as (e & si & sf & w & j & evs1 & evs2 & _ & Hrest).
  cbv zeta in Hrest. destruct Hrest as (_ & _ & _ & Hn1 & Hn2 & Hlog).
  exists j, evs1, evs2.
  assert (Hall : well_nested
            (([EvBegin (nextToken s) floatExpLabel false] ++ evs1
              ++ [EvEnd (nextToken s) false])
             ++ ([EvBegin j floatSignifLabel false] ++ evs2
                 ++ [EvEnd j false]))).
  { apply well_nested_app; now apply well_nested_group. }
  repeat split; try assumption.
  - rewrite Hlog. rewrite <- !app_assoc. reflexivity.
  - intros open Hopen. rewrite Hlog.
    replace (log s ++ [EvBegin (nextToken s) floatExpLabel false] ++ evs1
               ++ [EvEnd (nextToken s) false]
               ++ [EvBegin j floatSignifLabel false] ++ evs2
               ++ [EvEnd j false])
      with (log s ++ (([EvBegin (nextToken s) floatExpLabel false] ++ evs1
                       ++ [EvEnd (nextToken s) false])
                      ++ ([EvBegin j floatSignifLabel false] ++ evs2
                          ++ [EvEnd j false])))
      by (rewrite <- !app_assoc; reflexivity).
    rewrite nest_app, Hopen.
    apply (nest_frame [] [] open) in Hall. exact Hall.
Qed.

End Groups.

Lemma genUfloatRange_groups_nested_witness :
  exists j evs1 evs2,
    [EvBegin 0 floatExpLabel false; EvEnd 0 false;
     EvBegin 1 floatSignifLabel false; EvEnd 1 false] =
    [] ++ ([EvBegin 0 floatExpLabel false] ++ evs1 ++ [EvEnd 0 false])
       ++ ([EvBegin j floatSignifLabel false] ++ evs2 ++ [EvEnd j false]) /\
    well_nested evs1 /\ well_nested evs2 /\
    well_nested (([EvBegin 0 floatExpLabel false] ++ evs1 ++ [EvEnd 0 false])
                 ++ ([EvBegin j floatSignifLabel false] ++ evs2
                     ++ [EvEnd j false])) /\
    forall open,
      nest [] [] = Some open ->
      nest [] [EvBegin 0 floatExpLabel false; EvEnd 0 false;
               EvBegin 1 floatSignifLabel false; EvEnd 1 false] = Some open.
Proof.
  apply (@genUfloatRange_groups_nested Reference.decoders
           reference_decodersSpec fzero fone 11 52
           (Reference.replay [5; 0]) 27021597764222976
           (mkStream [5; 0] 2
              [EvBegin 0 floatExpLabel false; EvEnd 0 false;
               EvBegin 1 floatSignifLabel false; EvEnd 1 false])).
  vm_compute. reflexivity.
Defined.

(** ** The doubling loop *)

Lemma shl64_1 (x : Z) : 0 <= x < 2 ^ 64 -> shl64 x 1 = (2 * x) mod 2 ^ 64.
Proof.
  intros H. unfold shl64, u64. change (1 <? 64) with true. cbv iota.
  rewrite Z.shiftl_mul_pow2 by lia. rewrite Z.pow_1_r. f_equal. lia.
Qed.

(** The doubled word is smaller than the word exactly when the doubling
    wraps around 64 bits. *)
Lemma shl64_1_wraps (x : Z) :
  0 <= x < 2 ^ 64 -> (shl64 x 1 < x <-> 2 ^ 64 <= 2 * x).
Proof.
  intros H. rewrite shl64_1 by assumption.
  destruct (Z.lt_ge_cases (2 * x) (2 ^ 64)) as [Hs|Hb].
  - rewrite Z.mod_small by lia. lia.
  - replace (2 * x) with (2 * x - 2 ^ 64 + 1 * 2 ^ 64) by lia.
    rewrite Z.mod_add by lia. rewrite Z.mod_small by lia. lia.
Qed.

Lemma shiftLoop_steps (n : nat) (sf sfMin sfMax : Z) :
  0 <= sf < 2 ^ 64 ->
  exists k : nat,
    (k <= n)%nat /\
    shiftLoop n sf sfMin sfMax = sf * 2 ^ Z.of_nat k /\
    (forall j : nat, (j < k)%nat ->
       sfMin <= sf * 2 ^ Z.of_nat (S j) <= sfMax /\
       sf * 2 ^ Z.of_nat (S j) < 2 ^ 64) /\
    ((k < n)%nat ->
       shl64 (sf * 2 ^ Z.of_nat k) 1 < sfMin \/
       shl64 (sf * 2 ^ Z.of_nat k) 1 > sfMax \/
       2 ^ 64 <= 2 * (sf * 2 ^ Z.of_nat k)).
Proof.
  revert sf. induction n as [|n IH]; intros sf Hsf.
  - exists 0%nat. cbn [shiftLoop Z.of_nat]. rewrite Z.pow_0_r, Z.mul_1_r.
    repeat split; try lia.
  - rewrite shiftLoop_S.
    destruct (Z.ltb_spec (shl64 sf 1) sfMin) as [H1|H1]; cbn [orb].
    { exists 0%nat. cbn [Z.of_nat]. rewrite Z.pow_0_r, Z.mul_1_r.
      repeat split; try lia. }
    destruct (Z.gtb_spec (shl64 sf 1) sfMax) as [H2|H2]; cbn [orb].
    { exists 0%nat. cbn [Z.of_nat]. rewrite Z.pow_0_r, Z.mul_1_r.
      repeat split; try lia. }
    destruct (Z.ltb_spec (shl64 sf 1) sf) as [H3|H3]; cbn [orb].
    { exists 0%nat. cbn [Z.of_nat]. rewrite Z.pow_0_r, Z.mul_1_r.
      repeat split; try lia.
      intros _. right. right. now apply shl64_1_wraps. }
    assert (Hnw : 2 * sf < 2 ^ 64).
    { destruct (Z.lt_ge_cases (2 * sf) (2 ^ 64)) as [|Hb]; [assumption|].
      apply shl64_1_wraps in Hb; [lia|assumption]. }
    assert (Hd : shl64 sf 1 = 2 * sf).
    { rewrite shl64_1 by assumption. apply Z.mod_small. lia. }
    rewrite Hd in *.
    destruct (IH (2 * sf) ltac:(lia)) as (k & Hk & Hres & Hin & Hstop).
    assert (Hpow : forall m : nat,
               sf * 2 ^ Z.of_nat (S m) = 2 * sf * 2 ^ Z.of_nat m).
    { intros m. rewrite Nat2Z.inj_succ, Z.pow_succ_r by lia. ring. }
    exists (S k). repeat split.
    + lia.
    + rewrite Hres. symmetry. apply Hpow.
    + destruct j as [|j].
      * cbn [Z.of_nat]. change (Z.pos 1) with 1. rewrite Z.pow_1_r. lia.
      * rewrite Hpow. apply Hin. lia.
    + destruct j as [|j].
      * cbn [Z.of_nat]. change (Z.pos 1) with 1. rewrite Z.pow_1_r. lia.
      * rewrite Hpow. apply Hin. lia.
    + destruct j as [|j].
      * cbn [Z.of_nat]. change (Z.pos 1) with 1. rewrite Z.pow_1_r. lia.
      * rewrite Hpow. apply Hin. lia.
    + intros Hlt. rewrite Hpow. apply Hstop. lia.
Qed.

Lemma shiftLoop_zero (n : nat) (sfMin sfMax : Z) :
  shiftLoop n 0 sfMin sfMax = 0.
Proof.
  induction n as [|n IH]; [reflexivity|].
  rewrite shiftLoop_S. change (shl64 0 1) with 0.
  destruct ((0 <? sfMin) || (0 >? sfMax) || (0 <? 0)); [reflexivity|exact IH].
Qed.

Lemma shiftLoop_point (n : nat) (sf : Z) :
  0 <= sf < 2 ^ 64 -> shiftLoop n sf sf sf = sf.
Proof.
  intros Hsf. destruct (Z.eq_dec sf 0) as [->|Hnz]; [apply shiftLoop_zero|].
  destruct n as [|n]; [reflexivity|].
  rewrite shiftLoop_S.
  destruct (Z.ltb_spec (shl64 sf 1) sf) as [H1|H1]; cbn [orb];
    [reflexivity|].
  destruct (Z.gtb_spec (shl64 sf 1) sf) as [H2|H2]; cbn [orb];
    [reflexivity|].
  exfalso. assert (E : shl64 sf 1 = sf) by lia.
  rewrite shl64_1 in E by assumption.
  destruct (Z.lt_ge_cases (2 * sf) (2 ^ 64)) as [Hs|Hb].
  - rewrite Z.mod_small in E by lia. lia.
  - replace (2 * sf) with (2 * sf - 2 ^ 64 + 1 * 2 ^ 64) in E by lia.
    rewrite Z.mod_add in E by lia. rewrite Z.mod_small in E by lia. lia.
Qed.

(** The trip count of the loop in [genUfloatRange]. *)
Lemma loop_trip_count (fracBits w : Z) :
  0 <= fracBits <= 52 -> - 2 ^ 62 <= w <= 2 ^ 62 ->
  Z.of_nat (Z.to_nat (i64 (i64 fracBits - w))) = Z.max 0 (fracBits - w).
Proof.
  intros Hf Hw. rewrite (i64_small fracBits) by lia.
  rewrite i64_small by lia. lia.
Qed.

(** C6: the loop after the draw of [sf] doubles it [k] times, with [k] at
    most the trip count [fracBits - w]; every doubled value it keeps lies
    in [[sfMin, sfMax]] and did not wrap, and it stops early only when one
    more doubling would fall below [sfMin], exceed [sfMax] or wrap around
    64 bits.  A value that starts in [[sfMin, sfMax]] stays there; a zero,
    or a value between equal bounds, is left unchanged. *)
Theorem shiftLoop_doubles_within_bounds (n : nat) (sf sfMin sfMax : Z) :
  0 <= sf < 2 ^ 64 ->
  (exists k : nat,
     (k <= n)%nat /\
     shiftLoop n sf sfMin sfMax = sf * 2 ^ Z.of_nat k /\
     (forall j : nat, (j < k)%nat ->
        sfMin <= sf * 2 ^ Z.of_nat (S j) <= sfMax /\
        sf * 2 ^ Z.of_nat (S j) < 2 ^ 64) /\
     ((k < n)%nat ->
        shl64 (sf * 2 ^ Z.of_nat k) 1 < sfMin \/
        shl64 (sf * 2 ^ Z.of_nat k) 1 > sfMax \/
        2 ^ 64 <= 2 * (sf * 2 ^ Z.of_nat k))) /\
  (sfMin <= sf <= sfMax -> sfMin <= shiftLoop n sf sfMin sfMax <= sfMax) /\
  (sf = 0 -> shiftLoop n sf sfMin sfMax = sf) /\
  (sfMin = sfMax -> sfMin <= sf <= sfMax -> shiftLoop n sf sfMin sfMax = sf) /\
  (forall fracBits w,
     0 <= fracBits <= 52 -> - 2 ^ 62 <= w <= 2 ^ 62 ->
     n = Z.to_nat (i64 (i64 fracBits - w)) ->
     Z.of_nat n = Z.max 0 (fracBits - w)).
Proof.
  intros Hsf. repeat apply conj.
  - now apply shiftLoop_steps.
  - apply shiftLoop_range.
  - intros ->. apply shiftLoop_zero.
  - intros E H. assert (sfMin = sf) by lia. subst sfMin sfMax.
    now apply shiftLoop_point.
  - intros fracBits w Hf Hw ->. now apply loop_trip_count.
Qed.

Lemma shiftLoop_doubles_within_bounds_witness :
  shiftLoop 10 3 0 20 = 12 /\ 0 <= 12 <= 20.
Proof.
  pose proof (shiftLoop_doubles_within_bounds 10 3 0 20 ltac:(lia)) as H.
  destruct H as (_ & Hin & _).
  split; [reflexivity|]. apply Hin. lia.
Defined.

(** ** Construction *)

Lemma feq_refl_notNaN (f : float64) : feq f f = negb (fisNaN f).
Proof.
  unfold feq. rewrite Z.eqb_refl. now destruct (fisNaN f).
Qed.

Lemma f32eq_refl_notNaN (f : float32) : f32eq f f = negb (f32isNaN f).
Proof.
  unfold f32eq. rewrite Z.eqb_refl. now destruct (f32isNaN f).
Qed.

Lemma fle_notNaN (a b : float64) :
  fle a b = true -> fisNaN a = false /\ fisNaN b = false.
Proof. intros H. apply fle_true in H. tauto. Qed.

Lemma f32le_notNaN (a b : float32) :
  f32le a b = true -> f32isNaN a = false /\ f32isNaN b = false.
Proof.
  unfold f32le. rewrite !andb_true_iff, !negb_true_iff. tauto.
Qed.

(** C2: [Float64sRange] and [Float32sRange] check, in this order, that
    [min] is not a NaN, that [max] is not a NaN and that [min <= max]; a
    failed check panics with an assertion failure and no generator is
    built; when [min <= max] holds (so neither bound is a NaN) the
    generator is built. *)
Theorem FloatsRange_assertions :
  (forall min max : float64,
     (fisNaN min = true ->
      Float64sRange min max
      = Panicked (AssertionFailed "min should not be a NaN")) /\
     (fisNaN min = false -> fisNaN max = true ->
      Float64sRange min max
      = Panicked (AssertionFailed "max should not be a NaN")) /\
     (fisNaN min = false -> fisNaN max = false -> fle min max = false ->
      Float64sRange min max
      = Panicked (AssertionFailed "invalid range [%v, %v]")) /\
     (fle min max = true ->
      Float64sRange min max
      = Built (mkFloatGen float64Type float64ExpBits float64SignifBits
                          min max (fneg MaxFloat64) MaxFloat64))) /\
  (forall min max : float32,
     (f32isNaN min = true ->
      Float32sRange min max
      = Panicked (AssertionFailed "min should not be a NaN")) /\
     (f32isNaN min = false -> f32isNaN max = true ->
      Float32sRange min max
      = Panicked (AssertionFailed "max should not be a NaN")) /\
     (f32isNaN min = false -> f32isNaN max = false -> f32le min max = false ->
      Float32sRange min max
      = Panicked (AssertionFailed "invalid range [%v, %v]")) /\
     (f32le min max = true ->
      Float32sRange min max
      = Built (mkFloatGen float32Type float32ExpBits float32SignifBits
                          (f32to64 min) (f32to64 max)
                          (fneg MaxFloat32) MaxFloat32))).
Proof.
  split; intros min max.
  - unfold Float64sRange, assertfThen. rewrite !feq_refl_notNaN.
    repeat split.
    + intros ->. reflexivity.
    + intros -> ->. reflexivity.
    + intros -> -> ->. reflexivity.
    + intros H. destruct (fle_notNaN _ _ H) as [-> ->]. now rewrite H.
  - unfold Float32sRange, assertfThen. rewrite !f32eq_refl_notNaN.
    repeat split.
    + intros ->. reflexivity.
    + intros -> ->. reflexivity.
    + intros -> -> ->. reflexivity.
    + intros H. destruct (f32le_notNaN _ _ H) as [-> ->]. now rewrite H.
Qed.

Lemma FloatsRange_assertions_witness :
  Float64sRange (fInf_bits + 1) fone
  = Panicked (AssertionFailed "min should not be a NaN") /\
  Float64sRange fone fzero
  = Panicked (AssertionFailed "invalid range [%v, %v]") /\
  Float64sRange fzero fone
  = Built (mkFloatGen float64Type float64ExpBits float64SignifBits
                      fzero fone (fneg MaxFloat64) MaxFloat64).
Proof.
  destruct FloatsRange_assertions as [H64 _].
  split; [|split].
  - apply (H64 (fInf_bits + 1) fone). reflexivity.
  - apply (H64 fone fzero); reflexivity.
  - apply (H64 fzero fone). reflexivity.
Defined.

(** ** The narrow width *)

Lemma fneg_positive (v : Z) : 0 <= v < 2 ^ 63 -> fneg v = 2 ^ 63 + v.
Proof.
  intros H. unfold fneg.
  pose proof (lor_disjoint 1 v 63 ltac:(lia) ltac:(lia) H) as Hl.
  rewrite Z.mul_1_l in Hl. rewrite <- Hl.
  rewrite Z.lxor_comm. apply Z.lxor_lor.
  apply Z.bits_inj'. intros k Hk. rewrite Z.land_spec, Z.bits_0.
  destruct (Z.eq_dec k 63) as [->|Hne].
  - replace (Z.testbit v 63) with false; [apply andb_false_r|].
    symmetry. apply Z.testbit_false; [lia|].
    rewrite Z.div_small by lia. reflexivity.
  - rewrite Z.pow2_bits_false by lia. reflexivity.
Qed.

Lemma fields_of_bits (sgn e S : Z) :
  (sgn = 0 \/ sgn = 1) -> -126 <= e <= 127 -> 0 <= S < 2 ^ 23 ->
  let f := sgn * 2 ^ 63 + (e + 1023) * 2 ^ 52 + S * 2 ^ 29 in
  Z.land (Z.shiftr f 63) 1 = sgn /\
  Z.land (Z.shiftr f 52) 2047 = e + 1023 /\
  Z.land f (2 ^ 52 - 1) = S * 2 ^ 29 /\
  fabs_bits f = (e + 1023) * 2 ^ 52 + S * 2 ^ 29.
Proof.
  intros Hs He HS f.
  assert (Hlow : 0 <= (e + 1023) * 2 ^ 52 + S * 2 ^ 29 < 2 ^ 63) by lia.
  replace 1 with (Z.ones 1) at 1 by reflexivity.
  replace 2047 with (Z.ones 11) by reflexivity.
  replace (2 ^ 52 - 1) with (Z.ones 52) by reflexivity.
  rewrite !Z.land_ones by lia. rewrite !Z.shiftr_div_pow2 by lia.
  unfold fabs_bits. rewrite land_MaxInt64.
  assert (H63 : f / 2 ^ 63 = sgn).
  { unfold f. rewrite <- Z.add_assoc, Z.add_comm, Z.div_add by lia.
    rewrite Z.div_small by lia. lia. }
  assert (H52 : f / 2 ^ 52 = sgn * 2 ^ 11 + (e + 1023)).
  { unfold f.
    replace (sgn * 2 ^ 63 + (e + 1023) * 2 ^ 52 + S * 2 ^ 29)
      with (S * 2 ^ 29 + (sgn * 2 ^ 11 + (e + 1023)) * 2 ^ 52) by lia.
    rewrite Z.div_add by lia. rewrite Z.div_small by lia. lia. }
  assert (Hm52 : f mod 2 ^ 52 = S * 2 ^ 29).
  { unfold f.
    replace (sgn * 2 ^ 63 + (e + 1023) * 2 ^ 52 + S * 2 ^ 29)
      with (S * 2 ^ 29 + (sgn * 2 ^ 11 + (e + 1023)) * 2 ^ 52) by lia.
    rewrite Z.mod_add by lia. apply Z.mod_small. lia. }
  assert (Hm63 : f mod 2 ^ 63 = (e + 1023) * 2 ^ 52 + S * 2 ^ 29).
  { unfold f. rewrite <- Z.add_assoc, Z.add_comm, Z.mod_add by lia.
    apply Z.mod_small. lia. }
  rewrite H63, H52, Hm52, Hm63.
  repeat split.
  - destruct Hs as [-> | ->]; reflexivity.
  - rewrite Z.add_comm, Z.mod_add by lia. apply Z.mod_small. lia.
Qed.

Lemma f64to32_exact (sgn e S : Z) :
  (sgn = 0 \/ sgn = 1) -> -126 <= e <= 127 -> 0 <= S < 2 ^ 23 ->
  f64to32 (sgn * 2 ^ 63 + (e + 1023) * 2 ^ 52 + S * 2 ^ 29)
  = sgn * 2 ^ 31 + (e + 127) * 2 ^ 23 + S.
Proof.
  intros Hs He HS.
  destruct (fields_of_bits sgn e S Hs He HS) as (F1 & F2 & F3 & _).
  cbv zeta in F1, F2, F3.
  unfold f64to32. rewrite F1, F2, F3.
  rewrite Z.shiftl_mul_pow2 by lia.
  destruct (Z.eqb_spec (e + 1023) 2047); [lia|].
  destruct (Z.eqb_spec (e + 1023) 0); [lia|].
  destruct (Z.eqb_spec (2 ^ 52 + S * 2 ^ 29) 0); [lia|].
  assert (Hlog : Z.log2 (2 ^ 52 + S * 2 ^ 29) = 52).
  { apply Z.log2_unique; lia. }
  rewrite Hlog.
  replace (Z.max (e + 1023 - 1075 + 52 - 23) (-149)) with (e - 23) by lia.
  replace (e - 23 - (e + 1023 - 1075)) with 29 by lia.
  assert (Hhi : (2 ^ 52 + S * 2 ^ 29) / 2 ^ 29 = 2 ^ 23 + S).
  { replace (2 ^ 52 + S * 2 ^ 29) with ((2 ^ 23 + S) * 2 ^ 29) by lia.
    apply Z.div_mul. lia. }
  assert (Hlo : (2 ^ 52 + S * 2 ^ 29) mod 2 ^ 29 = 0).
  { replace (2 ^ 52 + S * 2 ^ 29) with ((2 ^ 23 + S) * 2 ^ 29) by lia.
    apply Z.mod_mul. lia. }
  rewrite Hhi, Hlo.
  change (2 ^ (29 - 1) <? 0) with false.
  change (0 =? 2 ^ (29 - 1)) with false. cbn [orb andb].
  destruct (Z.leb_spec f32Inf_bits
              ((e - 23 + 149) * 2 ^ 23 + (2 ^ 23 + S))) as [Hinf|Hfin].
  - unfold f32Inf_bits in Hinf. lia.
  - lia.
Qed.

Lemma fields_of_bits32 (sgn e S : Z) :
  (sgn = 0 \/ sgn = 1) -> -126 <= e <= 127 -> 0 <= S < 2 ^ 23 ->
  let x := sgn * 2 ^ 31 + (e + 127) * 2 ^ 23 + S in
  Z.land (Z.shiftr x 31) 1 = sgn /\
  Z.land (Z.shiftr x 23) 255 = e + 127 /\
  Z.land x (2 ^ 23 - 1) = S /\
  f32abs_bits x = (e + 127) * 2 ^ 23 + S.
Proof.
  intros Hs He HS x.
  replace 1 with (Z.ones 1) at 1 by reflexivity.
  replace 255 with (Z.ones 8) by reflexivity.
  replace (2 ^ 23 - 1) with (Z.ones 23) by reflexivity.
  unfold f32abs_bits.
  replace (2 ^ 31 - 1) with (Z.ones 31) by reflexivity.
  rewrite !Z.land_ones by lia. rewrite !Z.shiftr_div_pow2 by lia.
  assert (H31 : x / 2 ^ 31 = sgn).
  { unfold x. rewrite <- Z.add_assoc, Z.add_comm, Z.div_add by lia.
    rewrite Z.div_small by lia. lia. }
  assert (H23 : x / 2 ^ 23 = sgn * 2 ^ 8 + (e + 127)).
  { unfold x.
    replace (sgn * 2 ^ 31 + (e + 127) * 2 ^ 23 + S)
      with (S + (sgn * 2 ^ 8 + (e + 127)) * 2 ^ 23) by lia.
    rewrite Z.div_add by lia. rewrite Z.div_small by lia. lia. }
  assert (Hm : x mod 2 ^ 23 = S).
  { unfold x.
    replace (sgn * 2 ^ 31 + (e + 127) * 2 ^ 23 + S)
      with (S + (sgn * 2 ^ 8 + (e + 127)) * 2 ^ 23) by lia.
    rewrite Z.mod_add by lia. apply Z.mod_small. lia. }
  assert (Hm31 : x mod 2 ^ 31 = (e + 127) * 2 ^ 23 + S).
  { unfold x. rewrite <- Z.add_assoc, Z.add_comm, Z.mod_add by lia.
    apply Z.mod_small. lia. }
  rewrite H31, H23, Hm, Hm31.
  repeat split.
  - destruct Hs as [-> | ->]; reflexivity.
  - rewrite Z.add_comm, Z.mod_add by lia. apply Z.mod_small. lia.
Qed.

Lemma f32to64_exact (sgn e S : Z) :
  (sgn = 0 \/ sgn = 1) -> -126 <= e <= 127 -> 0 <= S < 2 ^ 23 ->
  f32to64 (sgn * 2 ^ 31 + (e + 127) * 2 ^ 23 + S)
  = sgn * 2 ^ 63 + (e + 1023) * 2 ^ 52 + S * 2 ^ 29.
Proof.
  intros Hs He HS.
  destruct (fields_of_bits32 sgn e S Hs He HS) as (F1 & F2 & F3 & _).
  cbv zeta in F1, F2, F3.
  unfold f32to64. rewrite F1, F2, F3.
  rewrite Z.shiftl_mul_pow2 by lia.
  destruct (Z.eqb_spec (e + 127) 255); [lia|].
  destruct (Z.eqb_spec (e + 127) 0); [lia|].
  lia.
Qed.

(** The exponent that [ufloatParts] returns, for every exponent width an
    [int32] can hold. *)
Lemma ufloatParts_exp (f : float64) (eb sb : Z) :
  2 <= eb <= 32 ->
  fst (fst (ufloatParts f eb sb)) = clampExp eb f.
Proof.
  intros Heb. unfold ufloatParts. cbv zeta. cbn [fst].
  fold (fabs_bits f).
  pose proof (rawExp_range f) as Hr.
  assert (Hb : 1 <= expBias eb <= 2 ^ 31 - 1).
  { unfold expBias.
    assert (2 ^ 1 <= 2 ^ (eb - 1)) by (apply pow2_le; lia).
    assert (2 ^ (eb - 1) <= 2 ^ 31) by (apply pow2_le; lia).
    lia. }
  replace (bitmask64 (u64 (float64ExpBits - 1))) with 1023 by reflexivity.
  unfold float64SignifBits.
  rewrite (shr64_div _ 52) by lia.
  rewrite (u64_small (eb - 1)) by lia.
  rewrite (bitmask64_ones (eb - 1)) by lia.
  fold (expBias eb).
  assert (Hq : - 2 ^ 31 <= fabs_bits f / 2 ^ 52 < 2 ^ 31).
  { unfold rawExp in Hr. lia. }
  rewrite (i32_small (fabs_bits f / 2 ^ 52)) by exact Hq.
  rewrite (i32_small 1023) by lia.
  fold (rawExp f).
  rewrite (i32_small (rawExp f)) by lia.
  rewrite (i32_small (expBias eb)) by lia.
  rewrite (i32_small (- expBias eb)) by lia.
  rewrite (i32_small (- expBias eb + 1)) by lia.
  unfold clampExp.
  destruct (Z.ltb_spec (rawExp f) (- expBias eb + 1)); [lia|].
  destruct (Z.gtb_spec (rawExp f) (expBias eb)); lia.
Qed.

Lemma normal32_fields (v : Z) :
  897 * 2 ^ 52 <= v < 1151 * 2 ^ 52 -> v mod 2 ^ 29 = 0 ->
  exists e S,
    -126 <= e <= 127 /\ 0 <= S < 2 ^ 23 /\
    v = (e + 1023) * 2 ^ 52 + S * 2 ^ 29.
Proof.
  intros Hv Hm.
  pose proof (Z.div_mod v (2 ^ 52) ltac:(lia)) as Hdm.
  pose proof (Z.mod_pos_bound v (2 ^ 52) ltac:(lia)) as Hr.
  pose proof (Z.div_mod (v mod 2 ^ 52) (2 ^ 29) ltac:(lia)) as Hdm2.
  assert (Hmm : (v mod 2 ^ 52) mod 2 ^ 29 = 0).
  { rewrite Z.mod_mod_divide; [exact Hm|]. exists (2 ^ 23). reflexivity. }
  exists (v / 2 ^ 52 - 1023), ((v mod 2 ^ 52) / 2 ^ 29).
  assert (0 <= (v mod 2 ^ 52) / 2 ^ 29 < 2 ^ 23).
  { split; [apply Z.div_pos; lia|]. apply Z.div_lt_upper_bound; lia. }
  repeat split; lia.
Qed.

Lemma f32Exact_facts (f : float64) :
  f32Exact f ->
  fabs_bits f <= MaxFloat32 /\
  f32abs_bits (f64to32 f) < f32Inf_bits /\
  f32to64 (f64to32 f) = f.
Proof.
  intros (sgn & e & S & Hs & He & HS & ->).
  rewrite f64to32_exact by assumption.
  destruct (fields_of_bits sgn e S Hs He HS) as (_ & _ & _ & F).
  destruct (fields_of_bits32 sgn e S Hs He HS) as (_ & _ & _ & F32).
  cbv zeta in F, F32. rewrite F, F32.
  repeat split.
  - unfold MaxFloat32. lia.
  - unfold f32Inf_bits. lia.
  - now apply f32to64_exact.
Qed.

Section Narrow.
Context {D : Decoders} {FM : FloatMath} {DS : DecodersSpec D}.

Lemma genUfloatRange_f32 (lo hi : float64) (s : bitStream)
      (v : float64) (s' : bitStream) :
  genUfloatRange lo hi float32ExpBits float32SignifBits s = Ok v s' ->
  exists e S,
    -126 <= e <= 127 /\ 0 <= S < 2 ^ 23 /\
    v = (e + 1023) * 2 ^ 52 + S * 2 ^ 29.
Proof.
  intros Hrun. apply genUfloatRange_sound in Hrun.
  2:{ unfold valid_widths, float32ExpBits, float32SignifBits. lia. }
  destruct Hrun as (Hv & Hm & _).
  change (expBias float32ExpBits) with 127 in Hv.
  change (52 - float32SignifBits) with 29 in Hm.
  apply normal32_fields; [lia|assumption].
Qed.

Lemma genFloatRange_f32Exact (min max : float64) (s : bitStream)
      (f : float64) (s' : bitStream) :
  genFloatRange min max float32ExpBits float32SignifBits s = Ok f s' ->
  f32Exact f.
Proof.
  unfold genFloatRange.
  destruct (signSplit min max) as [[posMin negMin] pNeg].
  unfold bind, lift.
  destruct (flipBiasedCoin pNeg s) as [[[|] s1]|]; [| |discriminate].
  - destruct (genUfloatRange negMin (fneg min) _ _ s1) as [v s2|] eqn:Hu;
      [|discriminate].
    unfold ret. intros E. injection E as <- <-.
    apply genUfloatRange_f32 in Hu. destruct Hu as (e & S & He & HS & ->).
    exists 1, e, S. repeat split; try lia.
    rewrite fneg_positive by lia. lia.
  - intros Hu. apply genUfloatRange_f32 in Hu.
    destruct Hu as (e & S & He & HS & ->).
    exists 0, e, S. repeat split; try lia.
Qed.

(** C5: [ufloatParts] clamps the exponent it extracts into
    [[-(2^(expBits-1)-1)+1, 2^(expBits-1)-1]] (for every exponent width
    from 2 bits up to the 32 an [int32] holds); a value drawn with the
    widths of [float32] has magnitude at most [MaxFloat32], its conversion
    to [float32] is finite and loses nothing, and so is every value of a
    generator built by [Float32sRange]. *)
Theorem float32_width_respected :
  (forall f eb sb,
     2 <= eb <= 32 ->
     - (2 ^ (eb - 1) - 1) + 1 <= fst (fst (ufloatParts f eb sb))
       <= 2 ^ (eb - 1) - 1) /\
  (forall min max s f s',
     genFloatRange min max float32ExpBits float32SignifBits s = Ok f s' ->
     fabs_bits f <= MaxFloat32 /\
     f32abs_bits (f64to32 f) < f32Inf_bits /\
     f32to64 (f64to32 f) = f) /\
  (forall min max g s val s',
     Float32sRange min max = Built g ->
     value g s = Ok val s' ->
     exists f,
       val = VFloat32 (f64to32 f) /\
       fabs_bits f <= MaxFloat32 /\
       f32abs_bits (f64to32 f) < f32Inf_bits /\
       f32to64 (f64to32 f) = f).
Proof.
  repeat apply conj.
  - intros f eb sb Heb. rewrite ufloatParts_exp by assumption.
    assert (2 ^ 1 <= 2 ^ (eb - 1)) by (apply pow2_le; lia).
    unfold clampExp, expBias. lia.
  - intros min max s f s' Hrun.
    apply f32Exact_facts. now apply genFloatRange_f32Exact in Hrun.
  - intros min max g s val s' Hb Hrun.
    unfold Float32sRange, assertfThen in Hb.
    destruct (f32eq min min); [|discriminate].
    destruct (f32eq max max); [|discriminate].
    destruct (f32le min max); [|discriminate].
    injection Hb as <-. unfold value, bind in Hrun. cbn [typ gmin gmax expBits signifBits] in Hrun.
    destruct (genFloatRange _ _ _ _ s) as [f s1|] eqn:Hf; [|discriminate].
    unfold ret in Hrun. injection Hrun as <- <-.
    exists f. split; [reflexivity|].
    apply f32Exact_facts. now apply genFloatRange_f32Exact in Hf.
Qed.

End Narrow.

Lemma float32_width_respected_witness :
  fabs_bits 4062246863888187392 <= MaxFloat32 /\
  f32abs_bits (f64to32 4062246863888187392) < f32Inf_bits /\
  f32to64 (f64to32 4062246863888187392) = 4062246863888187392.
Proof.
  destruct (@float32_width_respected Reference.decoders Reference.floatMath
              reference_decodersSpec) as (_ & H & _).
  apply (H fzero fone (Reference.replay [5; 0]) 4062246863888187392
           (mkStream [5; 0] 2
              [EvBegin 0 floatExpLabel false; EvEnd 0 false;
               EvBegin 1 floatSignifLabel false; EvEnd 1 false])).
  vm_compute. reflexivity.
Defined.

(** ** Filter *)

Lemma satisfy_Ok {A : Type} (tries : nat) (pred : A -> bool) (g : Draw A)
      (s : bitStream) (v : A) (s' : bitStream) :
  satisfy tries pred g s = Ok v s' ->
  pred v = true /\
  exists k s_k,
    (k < tries)%nat /\ rejected k pred g s = Some s_k /\ g s_k = Ok v s'.
Proof.
  revert s. induction tries as [|n IH]; intros s; cbn [satisfy].
  - discriminate.
  - unfold bind. destruct (g s) as [x s1|e] eqn:Hg; [|discriminate].
    destruct (pred x) eqn:Hp.
    + unfold ret. intros E. injection E as <- <-. split; [assumption|].
      exists 0%nat, s. repeat split; [lia|assumption].
    + intros H. apply IH in H. destruct H as (Hv & k & s_k & Hk & Hr & Hd).
      split; [assumption|].
      exists (S k), s_k. repeat split; [lia| |assumption].
      cbn [rejected]. now rewrite Hg, Hp.
Qed.

Lemma satisfy_exhausted {A : Type} (tries : nat) (pred : A -> bool)
      (g : Draw A) (s s_n : bitStream) :
  rejected tries pred g s = Some s_n ->
  satisfy tries pred g s = Fail (InvalidData "failed to satisfy filter").
Proof.
  revert s. induction tries as [|n IH]; intros s; cbn [satisfy rejected].
  - reflexivity.
  - unfold bind. destruct (g s) as [x s1|e]; [|discriminate].
    destruct (pred x); [discriminate|]. apply IH.
Qed.

Lemma satisfy_Fail {A : Type} (tries : nat) (pred : A -> bool) (g : Draw A)
      (s : bitStream) (e : failure) :
  satisfy tries pred g s = Fail e ->
  (exists s_n, rejected tries pred g s = Some s_n /\
               e = InvalidData "failed to satisfy filter") \/
  (exists k s_k,
     (k < tries)%nat /\ rejected k pred g s = Some s_k /\ g s_k = Fail e).
Proof.
  revert s. induction tries as [|n IH]; intros s; cbn [satisfy].
  - intros E. injection E as <-. left. exists s. split; reflexivity.
  - unfold bind. destruct (g s) as [x s1|e'] eqn:Hg.
    + destruct (pred x) eqn:Hp; [discriminate|].
      intros H. apply IH in H. destruct H as [(s_n & Hr & He)|(k & s_k & Hk & Hr & Hd)].
      * left. exists s_n. split; [|assumption].
        cbn [rejected]. now rewrite Hg, Hp.
      * right. exists (S k), s_k. repeat split; [lia| |assumption].
        cbn [rejected]. now rewrite Hg, Hp.
    + intros E. injection E as <-. right.
      exists 0%nat, s. repeat split; [lia|assumption].
Qed.

(** C8: a value that [Filter(g, pred)] hands on satisfies [pred], and it
    is the first accepted one of at most [tries] draws from [g]; when all
    [tries] draws are rejected the draw is invalid, and the execution is
    classified [Invalid], not [Failed]; an execution is [Failed] only when
    the property rejects a value that satisfies [pred], or when [g] itself
    fails. *)
Theorem Filter_values_satisfy_pred {A : Type} (tries : nat) (g : Draw A)
        (pred : A -> bool) (s : bitStream) :
  (forall v s',
     Filter tries g pred s = Ok v s' ->
     pred v = true /\
     exists k s_k,
       (k < tries)%nat /\ rejected k pred g s = Some s_k /\
       g s_k = Ok v s') /\
  (forall s_n property,
     rejected tries pred g s = Some s_n ->
     (exists msg, Filter tries g pred s = Fail (InvalidData msg)) /\
     runProperty (Filter tries g pred) property s = Invalid) /\
  (forall property,
     runProperty (Filter tries g pred) property s = Failed ->
     (exists v s',
        Filter tries g pred s = Ok v s' /\ pred v = true /\
        property v = false) \/
     (exists k s_k e,
        (k < tries)%nat /\ rejected k pred g s = Some s_k /\
        g s_k = Fail e)).
Proof.
  unfold Filter. repeat apply conj.
  - intros v s'. apply satisfy_Ok.
  - intros s_n property Hr. apply satisfy_exhausted in Hr.
    split; [eauto|]. unfold runProperty. now rewrite Hr.
  - intros property. unfold runProperty.
    destruct (satisfy tries pred g s) as [v s'|e] eqn:Hs.
    + destruct (property v) eqn:Hp; [discriminate|]. intros _. left.
      exists v, s'. apply satisfy_Ok in Hs. tauto.
    + intros Hf. apply satisfy_Fail in Hs.
      destruct Hs as [(s_n & _ & ->)|(k & s_k & Hk & Hr & Hd)];
        [discriminate|].
      right. eauto 6.
Qed.

(** [TestFilter]: the value handed to the property is never negative, so
    the property passes. *)
Corollary TestFilter_passes (tries : nat) (g : Draw Z)
          (s : bitStream) (v : Z) (s' : bitStream) :
  Filter tries g testFilter_pred s = Ok v s' ->
  testFilter_property v = true /\
  runProperty (Filter tries g testFilter_pred) testFilter_property s = Passed.
Proof.
  intros H. pose proof H as H'. unfold Filter in H'.
  apply satisfy_Ok in H'. destruct H' as [Hp _].
  assert (Hprop : testFilter_property v = true).
  { unfold testFilter_pred, testFilter_property in *.
    destruct (Z.geb_spec v 0); [|discriminate].
    destruct (Z.ltb_spec v 0); [lia|reflexivity]. }
  split; [assumption|]. unfold runProperty. now rewrite H, Hprop.
Qed.

Lemma Filter_values_satisfy_pred_witness :
  testFilter_pred 3 = true /\
  exists k s_k,
    (k < 100)%nat /\
    rejected k testFilter_pred someInts (Reference.replay [2; 11]) = Some s_k /\
    someInts s_k = Ok 3 (mkStream [2; 11] 2 []).
Proof.
  destruct (Filter_values_satisfy_pred 100 someInts testFilter_pred
              (Reference.replay [2; 11])) as (H & _).
  apply H. vm_compute. reflexivity.
Defined.

(** ** The order agrees with SFcompare *)

Lemma toSpecFloat_cases (f : float64) :
  (fisNaN f = true /\ toSpecFloat f = S754_nan) \/
  (fisNaN f = false /\ fabs_bits f = fInf_bits /\
   toSpecFloat f = S754_infinity (fsign f)) \/
  (fisNaN f = false /\ fabs_bits f = 0 /\
   toSpecFloat f = S754_zero (fsign f)) \/
  (fisNaN f = false /\
   exists p e,
     toSpecFloat f = S754_finite (fsign f) p e /\
     0 < fabs_bits f < fInf_bits /\
     finCode p e = fabs_bits f /\ canonical53 p e).
Proof.
  pose proof (fabs_bits_range f) as Hu.
  pose proof (Z.div_mod (fabs_bits f) (2 ^ 52) ltac:(lia)) as Hdm.
  pose proof (Z.mod_pos_bound (fabs_bits f) (2 ^ 52) ltac:(lia)) as Hm.
  assert (Hq : 0 <= fabs_bits f / 2 ^ 52 <= 2047).
  { split; [apply Z.div_pos; lia|].
    assert (fabs_bits f / 2 ^ 52 < 2048); [|lia].
    apply Z.div_lt_upper_bound; lia. }
  unfold toSpecFloat, fisNaN, fInf_bits.
  set (u := fabs_bits f) in *. set (q := u / 2 ^ 52) in *.
  set (m := u mod 2 ^ 52) in *.
  destruct (Z.eqb_spec q 2047) as [E|E].
  - destruct (Z.eqb_spec m 0) as [E0|E0].
    + right. left. repeat split; lia.
    + left. split; [|reflexivity]. apply Z.ltb_lt. lia.
  - assert (Hn : (2047 * 2 ^ 52 <? u) = false) by (apply Z.ltb_ge; lia).
    right. right. destruct (Z.eqb_spec q 0) as [E0|E0].
    + destruct m as [|p|p] eqn:Em.
      * left. repeat split; try assumption. lia.
      * right. split; [assumption|]. exists p, (-1074).
        unfold finCode, canonical53. rewrite Z.eqb_refl.
        repeat split; try lia.
      * lia.
    + destruct (2 ^ 52 + m) as [|p|p] eqn:Ep; try lia.
      right. split; [assumption|]. exists p, (q - 1075).
      unfold finCode, canonical53.
      destruct (Z.eqb_spec (q - 1075) (-1074)); repeat split; try lia.
Qed.

Lemma finite_compare (p1 p2 : positive) (e1 e2 : Z) :
  canonical53 p1 e1 -> canonical53 p2 e2 ->
  match Z.compare e1 e2 with
  | Lt => Lt
  | Gt => Gt
  | Eq => Pos.compare_cont Eq p1 p2
  end = Z.compare (finCode p1 e1) (finCode p2 e2).
Proof.
  intros (A1 & B1 & C1) (A2 & B2 & C2). unfold finCode.
  destruct (Z.compare_spec e1 e2) as [->|Hlt|Hgt].
  - change (Pos.compare_cont Eq p1 p2) with (Z.compare (Z.pos p1) (Z.pos p2)).
    destruct (Z.eqb_spec e2 (-1074)); [reflexivity|].
    destruct (Z.compare_spec (Z.pos p1) (Z.pos p2)) as [E|E|E]; symmetry.
    + apply Z.compare_eq_iff. lia.
    + apply Z.compare_lt_iff. lia.
    + apply Z.compare_gt_iff. lia.
  - symmetry. apply Z.compare_lt_iff.
    destruct (Z.eqb_spec e1 (-1074)); destruct (Z.eqb_spec e2 (-1074));
      try lia; specialize (C2 ltac:(lia)); try specialize (C1 ltac:(lia)); nia.
  - symmetry. apply Z.compare_gt_iff.
    destruct (Z.eqb_spec e1 (-1074)); destruct (Z.eqb_spec e2 (-1074));
      try lia; specialize (C1 ltac:(lia)); try specialize (C2 ltac:(lia)); nia.
Qed.

Lemma finite_compare_opp (p1 p2 : positive) (e1 e2 : Z) :
  canonical53 p1 e1 -> canonical53 p2 e2 ->
  match Z.compare e1 e2 with
  | Lt => Gt
  | Gt => Lt
  | Eq => CompOpp (Pos.compare_cont Eq p1 p2)
  end = Z.compare (- finCode p1 e1) (- finCode p2 e2).
Proof.
  intros H1 H2.
  rewrite Z.compare_opp, (Z.compare_antisym (finCode p1 e1) (finCode p2 e2)).
  rewrite <- (finite_compare p1 p2 e1 e2 H1 H2).
  now destruct (Z.compare e1 e2).
Qed.

Lemma compare_lt (x y : Z) : x < y -> Lt = Z.compare x y.
Proof. intros H. symmetry. now apply Z.compare_lt_iff. Qed.

Lemma compare_gt (x y : Z) : y < x -> Gt = Z.compare x y.
Proof. intros H. symmetry. now apply Z.compare_gt_iff. Qed.

Lemma compare_eq (x y : Z) : x = y -> Eq = Z.compare x y.
Proof. intros H. symmetry. now apply Z.compare_eq_iff. Qed.

(** On numbers, the order of the keys is the order [SFcompare] finds. *)
Lemma SFcompare_fkey (a b : float64) :
  fisNaN a = false -> fisNaN b = false ->
  SFcompare (toSpecFloat a) (toSpecFloat b)
  = Some (Z.compare (fkey a) (fkey b)).
Proof.
  intros Na Nb. unfold fkey.
  destruct (toSpecFloat_cases a)
    as [[Ha _]|[(_ & Ua & ->)|[(_ & Ua & ->)|(_ & pa & ea & -> & Ua & Ca & Ka)]]];
    [congruence| | |];
  destruct (toSpecFloat_cases b)
    as [[Hb _]|[(_ & Ub & ->)|[(_ & Ub & ->)|(_ & pb & eb & -> & Ub & Cb & Kb)]]];
    try congruence;
  unfold fInf_bits in *;
  destruct (fsign a), (fsign b); cbn [SFcompare]; f_equal;
  try (apply compare_lt; lia); try (apply compare_gt; lia);
  try (apply compare_eq; lia).
  - rewrite <- Ca, <- Cb. now apply finite_compare_opp.
  - rewrite <- Ca, <- Cb. now apply finite_compare.
Qed.

Lemma SFcompare_NaN (a b : float64) :
  fisNaN a = true \/ fisNaN b = true ->
  SFcompare (toSpecFloat a) (toSpecFloat b) = None.
Proof.
  intros [H|H].
  - destruct (toSpecFloat_cases a) as [[_ ->]|[(N & _)|[(N & _)|(N & _)]]];
      try congruence. reflexivity.
  - destruct (toSpecFloat_cases b) as [[_ ->]|[(N & _)|[(N & _)|(N & _)]]];
      try congruence. now destruct (toSpecFloat a).
Qed.

(** Go's comparisons on [float64], as modelled on bit patterns, are the
    IEEE-754 comparisons of the Standard Library on the numbers encoded. *)
Lemma float_order_is_IEEE (a b : float64) :
  fle a b = SFleb (toSpecFloat a) (toSpecFloat b) /\
  flt a b = SFltb (toSpecFloat a) (toSpecFloat b) /\
  feq a b = SFeqb (toSpecFloat a) (toSpecFloat b).
Proof.
  unfold fle, flt, feq, SFleb, SFltb, SFeqb.
  destruct (fisNaN a) eqn:Na; [rewrite SFcompare_NaN by auto; auto|].
  destruct (fisNaN b) eqn:Nb; [rewrite SFcompare_NaN by auto; auto|].
  rewrite SFcompare_fkey by assumption. cbn [negb andb].
  unfold Z.leb, Z.ltb. rewrite Z.eqb_compare.
  destruct (fkey a ?= fkey b); auto.
Qed.

(** * More of floats.go *)

(** ** ufloatParts and the packing are inverse to each other *)

Lemma runBits_fields (e S sb : Z) :
  -1022 <= e <= 1023 -> 0 <= sb <= 52 -> 0 <= S < 2 ^ sb ->
  let v := (e + 1023) * 2 ^ 52 + S * 2 ^ (52 - sb) in
  0 < v < fInf_bits /\ fabs_bits v = v /\ rawExp v = e /\
  cutSignif sb v = S /\ v mod 2 ^ (52 - sb) = 0.
Proof.
  intros He Hsb HS v.
  pose proof (pow2_split sb 52 ltac:(lia)) as Hs.
  pose proof (pow2_pos (52 - sb) ltac:(lia)) as Hp.
  pose proof (pow2_pos sb ltac:(lia)) as Hp'.
  assert (HSP : 0 <= S * 2 ^ (52 - sb) < 2 ^ 52) by nia.
  assert (Hv : 0 < v < fInf_bits) by (unfold v, fInf_bits; nia).
  assert (Ha : fabs_bits v = v).
  { apply positive_bits. unfold fInf_bits in Hv. lia. }
  assert (Hq : v / 2 ^ 52 = e + 1023).
  { unfold v. rewrite Z.add_comm, Z.div_add by lia.
    rewrite Z.div_small by lia. lia. }
  assert (Hm : v mod 2 ^ 52 = S * 2 ^ (52 - sb)).
  { unfold v. rewrite Z.add_comm, Z.mod_add by lia.
    apply Z.mod_small. lia. }
  repeat split; try lia; try assumption.
  - unfold rawExp. rewrite Ha, Hq. lia.
  - unfold cutSignif. rewrite Ha, Hm. apply Z.div_mul. lia.
  - unfold v.
    replace ((e + 1023) * 2 ^ 52)
      with ((e + 1023) * 2 ^ sb * 2 ^ (52 - sb)) by (rewrite Hs; ring).
    rewrite <- Z.mul_add_distr_r. apply Z.mod_mul. lia.
Qed.

(** Decoding a normal number of the width and packing the parts again
    gives the number back, without its sign. *)
Theorem ufloatParts_then_pack (f : float64) (eb sb : Z) :
  valid_widths eb sb ->
  widthNormal eb sb f = true ->
  let '(e, si, sf) := ufloatParts f eb sb in
  packFloat e si sf (ufloatFracBits e sb) sb = fabs_bits f.
Proof.
  intros Hw Hn. pose proof Hw as [Heb Hsb].
  rewrite ufloatParts_eq by assumption. cbv zeta.
  apply widthNormal_true in Hn. destruct Hn as [Hr Hex].
  pose proof (expBias_range eb Heb) as Hb.
  assert (Hc : clampExp eb f = rawExp f) by (unfold clampExp; lia).
  rewrite Hc.
  pose proof (ufloatFracBits_range (rawExp f) sb ltac:(lia) Hsb) as Hfb.
  set (fb := ufloatFracBits (rawExp f) sb) in *.
  pose proof (cutSignif_range sb f Hsb) as HS.
  pose proof (pow2_pos fb ltac:(lia)) as Hpf.
  pose proof (pow2_split fb sb ltac:(lia)) as Hsplit.
  pose proof (Z.div_mod (cutSignif sb f) (2 ^ fb) ltac:(lia)) as Hdm.
  pose proof (Z.mod_pos_bound (cutSignif sb f) (2 ^ fb) Hpf) as Hm.
  assert (Hq : 0 <= cutSignif sb f / 2 ^ fb < 2 ^ (sb - fb)).
  { split; [apply Z.div_pos; lia|]. apply Z.div_lt_upper_bound; lia. }
  destruct (packFloat_eq (rawExp f) (cutSignif sb f / 2 ^ fb)
              (cutSignif sb f mod 2 ^ fb) fb sb) as [Hp _]; try lia.
  rewrite Hp.
  replace (cutSignif sb f / 2 ^ fb * 2 ^ fb + cutSignif sb f mod 2 ^ fb)
    with (cutSignif sb f) by lia.
  rewrite (cutSignif_exact sb f Hsb Hex).
  symmetry. apply fabs_bits_fields.
Qed.

Lemma ufloatParts_then_pack_witness :
  let '(e, si, sf) := ufloatParts 4612811918334230528 11 52 in
  packFloat e si sf (ufloatFracBits e 52) 52 = fabs_bits 4612811918334230528.
Proof.
  apply (ufloatParts_then_pack 4612811918334230528 11 52).
  - unfold valid_widths. lia.
  - reflexivity.
Defined.

(** Packing an exponent of the width and a significand split at the
    fractional bits of that exponent, and decoding the result, gives the
    three parts back: different draws make different numbers. *)
Theorem pack_then_ufloatParts (e si sf eb sb : Z) :
  valid_widths eb sb ->
  - expBias eb + 1 <= e <= expBias eb ->
  0 <= si < 2 ^ (sb - ufloatFracBits e sb) ->
  0 <= sf < 2 ^ ufloatFracBits e sb ->
  ufloatParts (packFloat e si sf (ufloatFracBits e sb) sb) eb sb = (e, si, sf).
Proof.
  intros Hw He Hsi Hsf. pose proof Hw as [Heb Hsb].
  pose proof (expBias_range eb Heb) as Hb.
  pose proof (ufloatFracBits_range e sb ltac:(lia) Hsb) as Hfb.
  set (fb := ufloatFracBits e sb) in *.
  destruct (packFloat_eq e si sf fb sb) as [Hp HS]; try lia.
  rewrite Hp.
  destruct (runBits_fields e (si * 2 ^ fb + sf) sb ltac:(lia) Hsb HS)
    as (_ & _ & Hr & Hc & _).
  cbv zeta in Hr, Hc.
  rewrite ufloatParts_eq by assumption. cbv zeta.
  assert (Hce : clampExp eb ((e + 1023) * 2 ^ 52
                              + (si * 2 ^ fb + sf) * 2 ^ (52 - sb)) = e).
  { unfold clampExp. rewrite Hr. lia. }
  rewrite Hce, Hc. fold fb.
  pose proof (pow2_pos fb ltac:(lia)) as Hpf.
  f_equal; [f_equal|].
  - rewrite Z.add_comm, Z.div_add by lia. rewrite Z.div_small by lia. lia.
  - rewrite Z.add_comm, Z.mod_add by lia. apply Z.mod_small. lia.
Qed.

Lemma pack_then_ufloatParts_witness :
  ufloatParts (packFloat 1 0 (2 ^ 50) (ufloatFracBits 1 52) 52) 11 52
  = (1, 0, 2 ^ 50).
Proof.
  apply (pack_then_ufloatParts 1 0 (2 ^ 50) 11 52).
  - unfold valid_widths. lia.
  - unfold expBias. lia.
  - change (ufloatFracBits 1 52) with 51. lia.
  - change (ufloatFracBits 1 52) with 51. lia.
Defined.

(** ** What the generators never return *)

Lemma normal_of_band (eb sb v : Z) :
  valid_widths eb sb ->
  (- expBias eb + 1 + 1023) * 2 ^ 52 <= v < (expBias eb + 1 + 1023) * 2 ^ 52 ->
  v mod 2 ^ (52 - sb) = 0 ->
  fabs_bits v = v /\ fsign v = false /\ fkey v = v /\
  fisNaN v = false /\ isZero v = false /\ widthNormal eb sb v = true.
Proof.
  intros [Heb Hsb] Hv Hm. pose proof (expBias_range eb Heb) as Hb.
  assert (Hr : 0 <= v < 2 ^ 63) by nia.
  destruct (positive_bits v Hr) as (Ha & Hs & Hk).
  assert (Hq : - expBias eb + 1 + 1023 <= v / 2 ^ 52 < expBias eb + 1 + 1023).
  { split.
    - apply Z.div_le_lower_bound; lia.
    - apply Z.div_lt_upper_bound; lia. }
  repeat split; try assumption.
  - apply fisNaN_false. rewrite Ha. unfold fInf_bits. nia.
  - unfold isZero. rewrite Ha. apply Z.eqb_neq. nia.
  - apply widthNormal_true. unfold rawExp. rewrite Ha. lia.
Qed.

Lemma fneg_involutive (f : float64) : fneg (fneg f) = f.
Proof.
  unfold fneg. rewrite Z.lxor_assoc, Z.lxor_nilpotent. apply Z.lxor_0_r.
Qed.

Section Never.
Context {D : Decoders} {FM : FloatMath} {DS : DecodersSpec D}.

(** Whatever the bounds, [genUfloatRange] returns only positive normal
    numbers of the width: never a zero, a subnormal number, an infinity
    or a NaN, and never a significand wider than [signifBits]. *)
Theorem genUfloatRange_returns_normal (lo hi : float64) (eb sb : Z)
        (s : bitStream) (v : float64) (s' : bitStream) :
  valid_widths eb sb ->
  genUfloatRange lo hi eb sb s = Ok v s' ->
  0 <= v < 2 ^ 63 /\ fsign v = false /\ fisNaN v = false /\
  isZero v = false /\ widthNormal eb sb v = true.
Proof.
  intros Hw Hrun.
  apply genUfloatRange_sound in Hrun; [|assumption].
  destruct Hrun as (Hv & Hm & _).
  destruct (normal_of_band eb sb v Hw Hv Hm) as (Ha & Hs & _ & Hn & Hz & Hwn).
  pose proof (fabs_bits_range v). repeat split; try assumption; lia.
Qed.

(** The assertion at the top of [genUfloatRange] fails exactly when the
    lower bound is negative or a NaN, the upper bound is a NaN, or the
    bounds are inverted; the stream is not touched then. *)
Theorem genUfloatRange_assertion_iff (lo hi : float64) (eb sb : Z)
        (s : bitStream) :
  genUfloatRange lo hi eb sb s = Fail (AssertionFailed "") <->
  (fisNaN lo = true \/ fisNaN hi = true \/ fkey lo < 0 \/ fkey hi < fkey lo).
Proof.
  assert (Hguard : fge lo fzero && fle lo hi = false <->
            (fisNaN lo = true \/ fisNaN hi = true \/ fkey lo < 0
             \/ fkey hi < fkey lo)).
  { rewrite <- not_true_iff_false, andb_true_iff, fge_zero_true, fle_true.
    destruct (fisNaN lo) eqn:Nlo.
    { split; [auto|]. intros _ [[E _] _]. discriminate. }
    destruct (fisNaN hi) eqn:Nhi.
    { split; [auto|]. intros _ [_ (_ & E & _)]. discriminate. }
    destruct (Z.lt_ge_cases (fkey lo) 0) as [L1|L1].
    { split; [auto|]. intros _ [[_ E] _]. lia. }
    destruct (Z.lt_ge_cases (fkey hi) (fkey lo)) as [L2|L2].
    { split; [auto|]. intros _ [_ (_ & _ & E)]. lia. }
    split.
    - intros G. exfalso. apply G. repeat split; auto; lia.
    - intros [G|[G|[G|G]]]; try discriminate; lia. }
  split.
  - intros H. apply Hguard. now apply genUfloatRange_assertion in H.
  - intros H. apply Hguard in H.
    unfold genUfloatRange, bind, assert, assertf. now rewrite H.
Qed.

(** Whatever the bounds, [genFloatRange] returns only normal numbers of
    the width (never a zero, a subnormal number, an infinity or a NaN);
    the value is positive when [min >= 0] and negative when [min < 0] and
    [max <= 0]. *)
Theorem genFloatRange_returns_normal (min max : float64) (eb sb : Z)
        (s : bitStream) (v : float64) (s' : bitStream) :
  valid_widths eb sb ->
  genFloatRange min max eb sb s = Ok v s' ->
  0 <= v < 2 ^ 64 /\ fisNaN v = false /\ isZero v = false /\
  widthNormal eb sb v = true /\
  (fge min fzero = true -> fsign v = false) /\
  (fge min fzero = false -> fle max fzero = true -> fsign v = true).
Proof.
  intros Hw Hrun. unfold genFloatRange in Hrun.
  assert (Hpos : forall lo hi s1,
            genUfloatRange lo hi eb sb s1 = Ok v s' ->
            0 <= v < 2 ^ 64 /\ fisNaN v = false /\ isZero v = false /\
            widthNormal eb sb v = true /\ fsign v = false).
  { intros lo hi s1 H. apply genUfloatRange_sound in H; [|assumption].
    destruct H as (Hv & Hm & _).
    destruct (normal_of_band eb sb v Hw Hv Hm) as (Ha & Hs & _ & Hn & Hz & Hwn).
    pose proof (fabs_bits_range v). repeat split; try assumption; lia. }
  assert (Hneg : forall lo hi s1 f,
            genUfloatRange lo hi eb sb s1 = Ok f s' -> v = fneg f ->
            0 <= v < 2 ^ 64 /\ fisNaN v = false /\ isZero v = false /\
            widthNormal eb sb v = true /\ fsign v = true).
  { intros lo hi s1 f H ->.
    apply genUfloatRange_sound in H; [|assumption].
    destruct H as (Hv & Hm & _).
    destruct (normal_of_band eb sb f Hw Hv Hm) as (Ha & Hs & _ & Hn & Hz & Hwn).
    pose proof (fabs_bits_range f) as Hr. rewrite Ha in Hr.
    rewrite fisNaN_fneg, isZero_fneg, widthNormal_fneg, fsign_fneg, Hs.
    repeat split; try assumption. all: rewrite fneg_positive by lia; lia. }
  unfold signSplit in Hrun.
  destruct (fge min fzero) eqn:Hge.
  - unfold bind, lift in Hrun. rewrite flipBiasedCoin_zero in Hrun.
    apply Hpos in Hrun. destruct Hrun as (? & ? & ? & ? & ?).
    repeat split; try assumption; try lia; intros; congruence.
  - destruct (fle max fzero) eqn:Hle.
    + unfold bind, lift in Hrun. rewrite flipBiasedCoin_one in Hrun.
      destruct (genUfloatRange _ _ eb sb s) as [f s1|] eqn:Hu; [|discriminate].
      unfold ret in Hrun. injection Hrun as Hv <-. symmetry in Hv.
      apply (Hneg _ _ _ _ Hu) in Hv. destruct Hv as (? & ? & ? & ? & ?).
      repeat split; try assumption; try lia; intros; congruence.
    + unfold bind, lift in Hrun.
      destruct (flipBiasedCoin _ s) as [[[|] s0]|]; [| |discriminate].
      * destruct (genUfloatRange _ _ eb sb s0) as [f s1|] eqn:Hu;
          [|discriminate].
        unfold ret in Hrun. injection Hrun as Hv <-. symmetry in Hv.
        apply (Hneg _ _ _ _ Hu) in Hv. destruct Hv as (? & ? & ? & ? & ?).
        repeat split; try assumption; try lia; intros; congruence.
      * apply Hpos in Hrun. destruct Hrun as (? & ? & ? & ? & ?).
        repeat split; try assumption; try lia; intros; congruence.
Qed.

(** A range of negative numbers is drawn as the mirror image of the draw
    from the mirrored range, on the same stream. *)
Theorem genFloatRange_mirror (min max : float64) (eb sb : Z) (s : bitStream) :
  flt min fzero = true -> fle max fzero = true ->
  genFloatRange min max eb sb s
  = (f <- genFloatRange (fneg max) (fneg min) eb sb ;; ret (fneg f)) s.
Proof.
  intros Hlt Hle.
  apply flt_true in Hlt. destruct Hlt as (Nmin & _ & Hlt).
  rewrite fkey_fzero in Hlt.
  assert (Hge : fge min fzero = false).
  { apply not_true_iff_false. intros E. apply fge_zero_true in E. lia. }
  assert (Hge' : fge (fneg max) fzero = true).
  { apply fle_zero_true in Hle. destruct Hle as [Nmax Hle].
    apply fge_zero_true. rewrite fisNaN_fneg, fkey_fneg. split; [assumption|lia]. }
  unfold genFloatRange at 1. unfold signSplit. rewrite Hge, Hle.
  unfold bind at 1. unfold lift. rewrite flipBiasedCoin_one.
  unfold bind at 2. unfold genFloatRange, signSplit. rewrite Hge'.
  unfold bind at 2. unfold lift. rewrite flipBiasedCoin_zero.
  reflexivity.
Qed.

End Never.

Lemma genUfloatRange_returns_normal_witness :
  0 <= 27021597764222976 < 2 ^ 63 /\
  fsign 27021597764222976 = false /\ fisNaN 27021597764222976 = false /\
  isZero 27021597764222976 = false /\
  widthNormal 11 52 27021597764222976 = true.
Proof.
  apply (@genUfloatRange_returns_normal Reference.decoders
           reference_decodersSpec fzero fone 11 52
           (Reference.replay [5; 0]) 27021597764222976
           (mkStream [5; 0] 2
              [EvBegin 0 floatExpLabel false; EvEnd 0 false;
               EvBegin 1 floatSignifLabel false; EvEnd 1 false])).
  - unfold valid_widths. lia.
  - vm_compute. reflexivity.
Defined.

Lemma genFloatRange_returns_normal_witness :
  0 <= fneg fone < 2 ^ 64 /\ fisNaN (fneg fone) = false /\
  isZero (fneg fone) = false /\ widthNormal 11 52 (fneg fone) = true /\
  (fge (fneg fone) fzero = true -> fsign (fneg fone) = false) /\
  (fge (fneg fone) fzero = false -> fle (fneg fone) fzero = true ->
   fsign (fneg fone) = true).
Proof.
  apply (@genFloatRange_returns_normal Reference.decoders Reference.floatMath
           reference_decodersSpec (fneg fone) (fneg fone) 11 52
           (Reference.replay []) (fneg fone)
           (mkStream [] 0
              [EvBegin 0 floatExpLabel false; EvEnd 0 false;
               EvBegin 1 floatSignifLabel false; EvEnd 1 false])).
  - unfold valid_widths. lia.
  - vm_compute. reflexivity.
Defined.

Lemma genFloatRange_mirror_witness :
  genFloatRange (D := Reference.decoders) (FM := Reference.floatMath)
                (fneg (1024 * 2 ^ 52)) (fneg fone) 11 52
                (Reference.replay [1; 9])
  = (f <- genFloatRange (D := Reference.decoders)
                        (FM := Reference.floatMath)
                        (fneg (fneg fone)) (fneg (fneg (1024 * 2 ^ 52)))
                        11 52 ;;
     ret (fneg f)) (Reference.replay [1; 9]).
Proof.
  apply (@genFloatRange_mirror Reference.decoders Reference.floatMath
           reference_decodersSpec); reflexivity.
Defined.

(** ** Every range whose bounds are read without being raised *)

Lemma lowerExact_true (eb sb : Z) (f : float64) :
  lowerExact eb sb f = true <->
  (rawExp f < - expBias eb + 1 \/
   (rawExp f <= expBias eb /\ fabs_bits f mod 2 ^ (52 - sb) = 0)).
Proof.
  unfold lowerExact.
  rewrite orb_true_iff, andb_true_iff, Z.ltb_lt, Z.leb_le, Z.eqb_eq. tauto.
Qed.

Lemma lowerExact_fneg (eb sb : Z) (f : float64) :
  lowerExact eb sb (fneg f) = lowerExact eb sb f.
Proof. unfold lowerExact, rawExp. now rewrite fabs_bits_fneg. Qed.

Lemma upperNormal_fneg (eb : Z) (f : float64) :
  upperNormal eb (fneg f) = upperNormal eb f.
Proof. unfold upperNormal, rawExp. now rewrite fabs_bits_fneg. Qed.

Lemma lowerExact_fzero (eb sb : Z) : 2 <= eb <= 11 -> lowerExact eb sb fzero = true.
Proof.
  intros Heb. pose proof (expBias_range eb Heb).
  apply lowerExact_true. left. change (rawExp fzero) with (-1023). lia.
Qed.

Section Decodable.
Context {D : Decoders} {FM : FloatMath} {DS : DecodersSpec D}.

Lemma genUfloatRange_between_bounds (lo hi : float64) (eb sb : Z)
      (s : bitStream) (v : float64) (s' : bitStream) :
  valid_widths eb sb ->
  lowerExact eb sb lo = true -> upperNormal eb hi = true ->
  genUfloatRange lo hi eb sb s = Ok v s' ->
  fabs_bits lo <= v <= fabs_bits hi /\ 0 < v /\
  fisNaN v = false /\ fkey v = v /\
  fisNaN (fneg v) = false /\ fkey (fneg v) = - v.
Proof.
  intros Hw Hlo Hhi Hrun. pose proof Hw as [Heb Hsb].
  pose proof (expBias_range eb Heb) as Hb.
  apply genUfloatRange_sound in Hrun; [|assumption].
  destruct Hrun as (Hv & Hm & Hmin & Hmax).
  apply lowerExact_true in Hlo. specialize (Hmin Hlo).
  unfold upperNormal in Hhi. apply Z.leb_le in Hhi. specialize (Hmax Hhi).
  destruct (normal_of_band eb sb v Hw Hv Hm) as (_ & _ & Hk & Hn & _ & _).
  repeat split; try lia; try assumption.
  - now rewrite fisNaN_fneg.
  - now rewrite fkey_fneg, Hk.
Qed.

(** For bounds [min <= max] that [ufloatParts] reads without raising them
    (the bound nearer to zero of each sub-range lies below the normal
    numbers of the width or is one of them; the farther one is not below
    them: a subnormal or zero minimum and an infinite maximum are fine),
    every value [genFloatRange] returns lies in [[min, max]]. *)
Lemma genFloatRange_decodable_bounds (min max : float64) (eb sb : Z)
        (s : bitStream) (v : float64) (s' : bitStream) :
  valid_widths eb sb ->
  fle min max = true ->
  rangeDecodable eb sb min max = true ->
  genFloatRange min max eb sb s = Ok v s' ->
  fle min v = true /\ fle v max = true.
Proof.
  intros Hw Hle Hdec Hrun. pose proof Hw as [Heb Hsb].
  apply fle_true in Hle. destruct Hle as (Nmin & Nmax & Hkey).
  pose proof (fkey_abs min) as Amin. pose proof (fkey_abs max) as Amax.
  unfold rangeDecodable in Hdec.
  unfold genFloatRange, signSplit in Hrun.
  destruct (fge min fzero) eqn:Hge.
  - apply andb_true_iff in Hdec. destruct Hdec as [Hlo Hhi].
    unfold bind, lift in Hrun. rewrite flipBiasedCoin_zero in Hrun.
    apply fge_zero_true in Hge. destruct Hge as [_ Hge].
    apply genUfloatRange_between_bounds in Hrun; auto.
    destruct Hrun as (Hb & _ & Nv & Kv & _).
    rewrite !fle_true. rewrite Kv. repeat split; auto; lia.
  - apply fge_zero_false in Hge; [|assumption].
    destruct (fle max fzero) eqn:Hmle.
    + apply andb_true_iff in Hdec. destruct Hdec as [Hlo Hhi].
      unfold bind, lift in Hrun. rewrite flipBiasedCoin_one in Hrun.
      destruct (genUfloatRange (fneg max) (fneg min) eb sb s)
        as [f s1|] eqn:Hu; [|discriminate].
      unfold ret in Hrun. injection Hrun as <- <-.
      apply fle_zero_true in Hmle. destruct Hmle as [_ Hmle].
      apply genUfloatRange_between_bounds in Hu; auto.
      2:{ now rewrite lowerExact_fneg. }
      2:{ now rewrite upperNormal_fneg. }
      rewrite !fabs_bits_fneg in Hu.
      destruct Hu as (Hb & _ & _ & _ & Nv & Kv).
      rewrite !fle_true. rewrite Kv. repeat split; auto; lia.
    + apply fle_zero_false in Hmle; [|assumption].
      apply andb_true_iff in Hdec. destruct Hdec as [Hlo Hhi].
      unfold bind, lift in Hrun.
      destruct (flipBiasedCoin _ s) as [[[|] s0]|]; [| |discriminate].
      * destruct (genUfloatRange fzero (fneg min) eb sb s0)
          as [f s1|] eqn:Hu; [|discriminate].
        unfold ret in Hrun. injection Hrun as <- <-.
        apply genUfloatRange_between_bounds in Hu; auto.
        2:{ now apply lowerExact_fzero. }
        2:{ now rewrite upperNormal_fneg. }
        rewrite !fabs_bits_fneg in Hu.
        destruct Hu as (Hb & Hpos & _ & _ & Nv & Kv).
        rewrite !fle_true. rewrite Kv. repeat split; auto; lia.
      * apply genUfloatRange_between_bounds in Hrun; auto.
        2:{ now apply lowerExact_fzero. }
        destruct Hrun as (Hb & Hpos & Nv & Kv & _).
        rewrite !fle_true. rewrite Kv. repeat split; auto; lia.
Qed.

End Decodable.

(** From the smallest subnormal number up to [+Inf]: the draw reads
    exponent [-1017] and significand 7. *)
Example genFloatRange_subnormal_to_inf :
  genFloatRange (D := Reference.decoders) (FM := Reference.floatMath)
                1 fInf_bits 11 52 (Reference.replay [5; 7])
  = Ok (6 * 2 ^ 52 + 7)
       (mkStream [5; 7] 2
          [EvBegin 0 floatExpLabel false; EvEnd 0 false;
           EvBegin 1 floatSignifLabel false; EvEnd 1 false]).
Proof. vm_compute. reflexivity. Qed.

(** ** The draw returns when the decoders do *)

Lemma lowest_decodersSpec : DecodersSpec Lowest.decoders.
Proof.
  constructor; cbn; unfold Lowest.uintRange, Lowest.uintRangeWidth.
  - intros lo hi bias s v s'. destruct (Z.ltb_spec hi lo); [discriminate|].
    intros E. injection E as <- <-. split; [lia|apply extends_nested_refl].
  - intros lo hi bias s v s'. destruct (Z.ltb_spec hi lo); [discriminate|].
    intros E. injection E as <- <-. split; [lia|apply extends_nested_refl].
  - intros lo hi bias s v w s'. destruct (Z.ltb_spec hi lo); [discriminate|].
    intros E. injection E as <- <- <-. split; [lia|apply extends_nested_refl].
  - reflexivity.
  - reflexivity.
Qed.

Lemma lowest_total_on_ranges : total_on_ranges Lowest.decoders.
Proof.
  split.
  - intros lo hi bias s H. cbn.
    unfold Lowest.uintRange, Lowest.uintRangeWidth.
    destruct (Z.ltb_spec hi lo); [lia|]. repeat split; eauto.
  - intros p s. cbn. unfold Lowest.biasedCoin. eauto.
Qed.

Lemma rawExp_mono (a b : float64) :
  fabs_bits a <= fabs_bits b -> rawExp a <= rawExp b.
Proof.
  intros H. unfold rawExp.
  pose proof (Z.div_le_mono (fabs_bits a) (fabs_bits b) (2 ^ 52)
                ltac:(lia) H). lia.
Qed.

Lemma clampExp_mono (eb : Z) (a b : float64) :
  fabs_bits a <= fabs_bits b -> clampExp eb a <= clampExp eb b.
Proof.
  intros H. apply rawExp_mono in H. unfold clampExp. lia.
Qed.

Lemma cutSignif_mono_same_exp (eb sb : Z) (a b : float64) :
  valid_widths eb sb ->
  zeroOrNormal eb sb a = true -> zeroOrNormal eb sb b = true ->
  fabs_bits a <= fabs_bits b -> clampExp eb a = clampExp eb b ->
  cutSignif sb a <= cutSignif sb b.
Proof.
  intros [Heb Hsb] Za Zb Hab Hc.
  pose proof (expBias_range eb Heb) as Hb.
  pose proof (cutSignif_range sb b Hsb) as Hcb.
  unfold zeroOrNormal in Za. apply orb_true_iff in Za.
  destruct Za as [Za|Na].
  - apply isZero_true in Za.
    assert (E : cutSignif sb a = 0).
    { unfold cutSignif. rewrite Za.
      rewrite Z.mod_0_l by lia. apply Z.div_0_l.
      pose proof (pow2_pos (52 - sb)). lia. }
    lia.
  - pose proof (widthNormal_not_NaN eb sb a Heb Na) as Ha.
    unfold zeroOrNormal in Zb. apply orb_true_iff in Zb.
    destruct Zb as [Zb|Nb]; [apply isZero_true in Zb; lia|].
    apply widthNormal_true in Na. apply widthNormal_true in Nb.
    assert (Hr : rawExp a = rawExp b) by (unfold clampExp in Hc; lia).
    pose proof (fabs_bits_fields a) as Fa. pose proof (fabs_bits_fields b) as Fb.
    unfold cutSignif. apply Z.div_le_mono; [apply pow2_pos; lia|]. lia.
Qed.

Lemma siRange_ordered (a c e minSI maxSI sb fb : Z) :
  0 <= fb <= sb -> sb <= 52 ->
  0 <= minSI -> 0 <= maxSI ->
  (a = c -> minSI <= maxSI) -> (e = a -> minSI < 2 ^ (sb - fb)) ->
  fst (siRange a c e minSI maxSI sb fb)
  <= snd (siRange a c e minSI maxSI sb fb).
Proof.
  intros Hfb Hsb Hmin Hmax Hsame Hlow. unfold siRange.
  rewrite (u64_small (sb - fb)) by lia.
  rewrite (bitmask64_ones (sb - fb)) by lia.
  pose proof (pow2_pos (sb - fb) ltac:(lia)).
  destruct (Z.eqb_spec a c); [cbn; auto|].
  destruct (Z.eqb_spec e a); [cbn; specialize (Hlow ltac:(assumption)); lia|].
  destruct (Z.eqb_spec e c); cbn; lia.
Qed.

Lemma sfRange_ordered (a c e minSI maxSI si minSF maxSF fb : Z) :
  0 <= fb <= 52 -> 0 <= minSF -> 0 <= maxSF ->
  (a = c -> minSI = maxSI -> minSF <= maxSF) -> (e = a -> minSF < 2 ^ fb) ->
  fst (sfRange a c e minSI maxSI si minSF maxSF fb)
  <= snd (sfRange a c e minSI maxSI si minSF maxSF fb).
Proof.
  intros Hfb Hmin Hmax Hsame Hlow. unfold sfRange.
  rewrite (bitmask64_ones fb) by lia.
  pose proof (pow2_pos fb ltac:(lia)).
  destruct (Z.eqb_spec a c) as [Hac|Hac];
    destruct (Z.eqb_spec minSI maxSI) as [Hmm|Hmm];
    destruct (Z.eqb_spec e a) as [Hea|Hea];
    destruct (Z.eqb_spec si minSI) as [Hsm|Hsm];
    destruct (Z.eqb_spec e c) as [Hec|Hec];
    destruct (Z.eqb_spec si maxSI) as [HsM|HsM];
    cbn [andb fst snd];
    try (specialize (Hsame ltac:(assumption) ltac:(assumption)));
    try (specialize (Hlow ltac:(assumption)));
    lia.
Qed.

Section Returns.
Context {D : Decoders} {FM : FloatMath} {DS : DecodersSpec D}.

Lemma genUfloatRange_Ok_of_total (lo hi : float64) (eb sb : Z)
      (s : bitStream) :
  valid_widths eb sb -> total_on_ranges D ->
  fge lo fzero && fle lo hi = true ->
  zeroOrNormal eb sb lo = true -> zeroOrNormal eb sb hi = true ->
  exists v s', genUfloatRange lo hi eb sb s = Ok v s'.
Proof.
  intros Hw [Htot _] Hguard Zlo Zhi. pose proof Hw as [Heb Hsb].
  pose proof (expBias_range eb Heb) as Hb.
  assert (Habs : fabs_bits lo <= fabs_bits hi).
  { apply andb_true_iff in Hguard. destruct Hguard as [Hge Hle].
    apply fge_zero_true in Hge. apply fle_true in Hle.
    pose proof (fkey_abs lo). pose proof (fkey_abs hi). lia. }
  unfold genUfloatRange, bind, assert, assertf. rewrite Hguard.
  rewrite !ufloatParts_eq by assumption. cbv zeta.
  pose proof (clampExp_range eb lo Heb) as Ha.
  pose proof (clampExp_range eb hi Heb) as Hc.
  pose proof (clampExp_mono eb lo hi Habs) as Hac.
  pose proof (cutSignif_range sb lo Hsb) as Hsmin.
  pose proof (cutSignif_range sb hi Hsb) as Hsmax.
  assert (Hsame : clampExp eb lo = clampExp eb hi ->
                  cutSignif sb lo <= cutSignif sb hi).
  { now apply cutSignif_mono_same_exp. }
  set (a := clampExp eb lo) in *. set (c := clampExp eb hi) in *.
  set (smin := cutSignif sb lo) in *. set (smax := cutSignif sb hi) in *.
  pose proof (ufloatFracBits_range a sb ltac:(lia) Hsb) as Hna.
  pose proof (ufloatFracBits_range c sb ltac:(lia) Hsb) as Hnc.
  unfold beginGroup at 1. cbv beta zeta. unfold lift at 1.
  set (s0 := mkStream _ _ _).
  rewrite (i64_small a), (i64_small c) by lia.
  destruct (Htot a c true s0 Hac) as [(e & s1 & He) _]. rewrite He.
  apply genIntRange_spec in He. destruct He as [Hre _].
  unfold endGroup at 1, beginGroup at 1. cbv beta zeta.
  set (s2 := mkStream _ _ (_ ++ [EvBegin _ _ _])).
  rewrite (i32_small e) by lia.
  pose proof (ufloatFracBits_range e sb ltac:(lia) Hsb) as Hfb.
  set (fb := ufloatFracBits e sb) in *.
  set (na := ufloatFracBits a sb) in *. set (nc := ufloatFracBits c sb) in *.
  pose proof (pow2_pos na ltac:(lia)) as Hpa.
  pose proof (pow2_pos nc ltac:(lia)) as Hpc.
  assert (HminSI : 0 <= smin / 2 ^ na) by (apply Z.div_pos; lia).
  assert (HmaxSI : 0 <= smax / 2 ^ nc) by (apply Z.div_pos; lia).
  pose proof (Z.mod_pos_bound smin (2 ^ na) Hpa) as HminSF.
  pose proof (Z.mod_pos_bound smax (2 ^ nc) Hpc) as HmaxSF.
  assert (Hord : fst (siRange a c e (smin / 2 ^ na) (smax / 2 ^ nc) sb fb)
                 <= snd (siRange a c e (smin / 2 ^ na) (smax / 2 ^ nc) sb fb)).
  { apply siRange_ordered; try lia.
    - intros E. assert (Enc : nc = na) by (unfold na, nc; now rewrite E).
      rewrite Enc. apply Z.div_le_mono; [lia|]. now apply Hsame.
    - intros E. assert (Efb : fb = na) by (unfold fb, na; now rewrite E).
      rewrite Efb. apply Z.div_lt_upper_bound; [lia|].
      pose proof (pow2_split na sb ltac:(lia)). lia. }
  destruct (siRange a c e (smin / 2 ^ na) (smax / 2 ^ nc) sb fb)
    as [siMin siMax] eqn:Hsir. cbn [fst snd] in Hord.
  unfold lift at 1.
  destruct (Htot siMin siMax false s2 Hord) as (_ & (si & s3 & Hsi) & _).
  rewrite Hsi.
  assert (Hord2 :
    fst (sfRange a c e (smin / 2 ^ na) (smax / 2 ^ nc) si
                 (smin mod 2 ^ na) (smax mod 2 ^ nc) fb)
    <= snd (sfRange a c e (smin / 2 ^ na) (smax / 2 ^ nc) si
                    (smin mod 2 ^ na) (smax mod 2 ^ nc) fb)).
  { apply sfRange_ordered; try lia.
    - intros E Eq. assert (Enc : nc = na) by (unfold na, nc; now rewrite E).
      rewrite Enc in *. specialize (Hsame E).
      pose proof (Z.div_mod smin (2 ^ na) ltac:(lia)).
      pose proof (Z.div_mod smax (2 ^ na) ltac:(lia)). nia.
    - intros E. assert (Efb : fb = na) by (unfold fb, na; now rewrite E).
      rewrite Efb. lia. }
  destruct (sfRange a c e (smin / 2 ^ na) (smax / 2 ^ nc) si
                    (smin mod 2 ^ na) (smax mod 2 ^ nc) fb)
    as [sfMin sfMax] eqn:Hsfr. cbn [fst snd] in Hord2.
  unfold lift at 1.
  destruct (Htot sfMin sfMax true s3 Hord2) as (_ & _ & (sf & w & s4 & Hsf)).
  rewrite Hsf. unfold endGroup, ret. eauto.
Qed.

(** Total correctness: for bounds [min <= max] that are each zero or a
    normal number of the width, [genFloatRange] hands no inverted range
    to a decoder, so with decoders that return on every proper range it
    returns a value: it neither panics nor stops. *)
Theorem genFloatRange_returns_value (min max : float64) (eb sb : Z)
        (s : bitStream) :
  valid_widths eb sb -> total_on_ranges D ->
  zeroOrNormal eb sb min = true -> zeroOrNormal eb sb max = true ->
  fle min max = true ->
  exists v s', genFloatRange min max eb sb s = Ok v s'.
Proof.
  intros Hw Htot Zmin Zmax Hle. pose proof Hw as [Heb Hsb].
  pose proof Hle as Hle'. apply fle_true in Hle'.
  destruct Hle' as (Nmin & Nmax & Hkey).
  assert (Z0 : zeroOrNormal eb sb fzero = true) by reflexivity.
  assert (Hlift : forall lo hi s1,
            fge lo fzero && fle lo hi = true ->
            zeroOrNormal eb sb lo = true -> zeroOrNormal eb sb hi = true ->
            exists v s', genUfloatRange lo hi eb sb s1 = Ok v s').
  { intros lo hi s1. now apply genUfloatRange_Ok_of_total. }
  assert (Hneg : forall lo hi s1,
            fge lo fzero && fle lo hi = true ->
            zeroOrNormal eb sb lo = true -> zeroOrNormal eb sb hi = true ->
            exists v s', (f <- genUfloatRange lo hi eb sb ;; ret (fneg f)) s1
                         = Ok v s').
  { intros lo hi s1 G Zl Zh. destruct (Hlift lo hi s1 G Zl Zh) as (f & s2 & Hf).
    unfold bind. rewrite Hf. unfold ret. eauto. }
  unfold genFloatRange, signSplit.
  destruct (fge min fzero) eqn:Hge.
  - unfold bind at 1. unfold lift. rewrite flipBiasedCoin_zero.
    apply Hlift; auto. now rewrite Hge, Hle.
  - apply fge_zero_false in Hge; [|assumption].
    destruct (fle max fzero) eqn:Hmle.
    + unfold bind at 1. unfold lift. rewrite flipBiasedCoin_one.
      apply Hneg; rewrite ?zeroOrNormal_fneg; auto.
      apply fle_zero_true in Hmle. destruct Hmle as [_ Hmle].
      apply andb_true_iff. split; [apply fge_zero_true|apply fle_true];
        rewrite ?fisNaN_fneg, ?fkey_fneg; repeat split; auto; lia.
    + apply fle_zero_false in Hmle; [|assumption].
      destruct Htot as [Hr Hcoin].
      destruct (Hcoin (fdiv (Log1p (Log1p (fneg min)))
                            (fadd (Log1p (Log1p (fneg min)))
                                  (Log1p (Log1p max)))) s)
        as (coin & s0 & Hc).
      unfold bind at 1. unfold lift. rewrite Hc.
      destruct coin.
      * apply Hneg; rewrite ?zeroOrNormal_fneg; auto.
        apply andb_true_iff. split; [reflexivity|]. apply fle_true.
        rewrite fisNaN_fneg, fkey_fneg, fkey_fzero. repeat split; auto; lia.
      * apply Hlift; auto.
        apply andb_true_iff. split; [reflexivity|]. apply fle_true.
        rewrite fkey_fzero. repeat split; auto; lia.
Qed.

End Returns.

Lemma genFloatRange_returns_value_witness :
  exists v s',
    genFloatRange (D := Lowest.decoders) (FM := Reference.floatMath)
                  (fneg fone) fone 11 52 (Reference.replay []) = Ok v s'.
Proof.
  apply (@genFloatRange_returns_value Lowest.decoders Reference.floatMath
           lowest_decodersSpec (fneg fone) fone 11 52 (Reference.replay [])).
  - unfold valid_widths. lia.
  - exact lowest_total_on_ranges.
  - reflexivity.
  - reflexivity.
  - reflexivity.
Defined.

(** ** Generators of the wide type *)

Lemma lowerExact_float64 (f : float64) :
  lowerExact float64ExpBits float64SignifBits f = (fabs_bits f <? fInf_bits).
Proof.
  unfold lowerExact, float64ExpBits, float64SignifBits, rawExp, fInf_bits.
  change (expBias 11) with 1023. change (2 ^ (52 - 52)) with 1.
  rewrite Z.mod_1_r. change (0 =? 0) with true. rewrite andb_true_r.
  pose proof (fabs_bits_range f) as Hr.
  pose proof (Z.div_mod (fabs_bits f) (2 ^ 52) ltac:(lia)) as Hdm.
  pose proof (Z.mod_pos_bound (fabs_bits f) (2 ^ 52) ltac:(lia)) as Hm.
  destruct (Z.ltb_spec (fabs_bits f / 2 ^ 52 - 1023) (-1023 + 1));
    destruct (Z.leb_spec (fabs_bits f / 2 ^ 52 - 1023) 1023);
    destruct (Z.ltb_spec (fabs_bits f) (2047 * 2 ^ 52));
    cbn [orb]; try reflexivity; lia.
Qed.

Lemma upperNormal_float64 (f : float64) :
  upperNormal float64ExpBits f = (2 ^ 52 <=? fabs_bits f).
Proof.
  unfold upperNormal, float64ExpBits, rawExp.
  change (expBias 11) with 1023.
  pose proof (fabs_bits_range f) as Hr.
  pose proof (Z.div_mod (fabs_bits f) (2 ^ 52) ltac:(lia)) as Hdm.
  pose proof (Z.mod_pos_bound (fabs_bits f) (2 ^ 52) ltac:(lia)) as Hm.
  destruct (Z.leb_spec (-1023 + 1) (fabs_bits f / 2 ^ 52 - 1023));
    destruct (Z.leb_spec (2 ^ 52) (fabs_bits f)); try reflexivity; lia.
Qed.

Section Wide.
Context {D : Decoders} {FM : FloatMath} {DS : DecodersSpec D}.

(** A generator built by [Float64sRange(min, max)] yields [float64]
    values inside [[min, max]] whenever, in each sub-range that can be
    drawn, the bound nearer to zero is finite and the farther one has
    magnitude at least the smallest normal number [2^-1022]. *)
Theorem Float64sRange_values_in_range (min max : float64) (g : floatGen)
        (s : bitStream) (val : Value) (s' : bitStream) :
  Float64sRange min max = Built g ->
  (if fge min fzero
   then (fabs_bits min <? fInf_bits) && (2 ^ 52 <=? fabs_bits max)
   else if fle max fzero
   then (fabs_bits max <? fInf_bits) && (2 ^ 52 <=? fabs_bits min)
   else (2 ^ 52 <=? fabs_bits min) && (2 ^ 52 <=? fabs_bits max)) = true ->
  value g s = Ok val s' ->
  exists f, val = VFloat64 f /\ fle min f = true /\ fle f max = true.
Proof.
  intros Hb Hdec Hrun.
  unfold Float64sRange, assertfThen in Hb.
  destruct (feq min min); [|discriminate].
  destruct (feq max max); [|discriminate].
  destruct (fle min max) eqn:Hle; [|discriminate].
  injection Hb as <-.
  unfold value, bind in Hrun. cbn [typ gmin gmax expBits signifBits] in Hrun.
  destruct (genFloatRange min max float64ExpBits float64SignifBits s)
    as [f s1|] eqn:Hf; [|discriminate].
  unfold ret in Hrun. injection Hrun as <- <-.
  exists f. split; [reflexivity|].
  apply (genFloatRange_decodable_bounds min max float64ExpBits
           float64SignifBits s f s1); try assumption.
  - unfold valid_widths, float64ExpBits, float64SignifBits. lia.
  - unfold rangeDecodable.
    now rewrite !lowerExact_float64, !upperNormal_float64.
Qed.

End Wide.

Lemma Float64sRange_values_in_range_witness :
  exists f,
    VFloat64 (6 * 2 ^ 52 + 7) = VFloat64 f /\
    fle 1 f = true /\ fle f fInf_bits = true.
Proof.
  apply (@Float64sRange_values_in_range Reference.decoders
           Reference.floatMath reference_decodersSpec 1 fInf_bits
           (mkFloatGen float64Type float64ExpBits float64SignifBits
                       1 fInf_bits (fneg MaxFloat64) MaxFloat64)
           (Reference.replay [5; 7]) (VFloat64 (6 * 2 ^ 52 + 7))
           (mkStream [5; 7] 2
              [EvBegin 0 floatExpLabel false; EvEnd 0 false;
               EvBegin 1 floatSignifLabel false; EvEnd 1 false])).
  - reflexivity.
  - reflexivity.
  - vm_compute. reflexivity.
Defined.

(** ** The constructors with one bound *)

Lemma bits_of_sign_and_magnitude (x : float64) :
  0 <= x < 2 ^ 64 ->
  x = (if fsign x then 2 ^ 63 else 0) + fabs_bits x.
Proof.
  intros Hx. pose proof (fabs_bits_range x) as Hr.
  destruct (fsign x) eqn:Hs.
  - rewrite <- (fneg_fabs_bits_negative x Hx Hs) at 1.
    apply fneg_positive. exact Hr.
  - rewrite (fabs_bits_positive x Hx Hs). lia.
Qed.

(** [Float64sMin(min)] builds its generator unless [min] is a NaN or
    [+Inf] (which is above [MaxFloat64], so the range is inverted);
    [Float64sMax(max)] unless [max] is a NaN or [-Inf]; [Float64s()]
    always builds. *)
Theorem Float64s_one_bound_constructors :
  Float64s
  = Built (mkFloatGen float64Type float64ExpBits float64SignifBits
                      (fneg MaxFloat64) MaxFloat64
                      (fneg MaxFloat64) MaxFloat64) /\
  (forall min, 0 <= min < 2 ^ 64 ->
     (Float64sMin min
      = Built (mkFloatGen float64Type float64ExpBits float64SignifBits
                          min MaxFloat64 (fneg MaxFloat64) MaxFloat64)
      <-> fisNaN min = false /\ min <> fInf_bits) /\
     (fisNaN min = true ->
      Float64sMin min
      = Panicked (AssertionFailed "min should not be a NaN")) /\
     (min = fInf_bits ->
      Float64sMin min
      = Panicked (AssertionFailed "invalid range [%v, %v]"))) /\
  (forall max, 0 <= max < 2 ^ 64 ->
     (Float64sMax max
      = Built (mkFloatGen float64Type float64ExpBits float64SignifBits
                          (fneg MaxFloat64) max (fneg MaxFloat64) MaxFloat64)
      <-> fisNaN max = false /\ max <> fneg fInf_bits) /\
     (fisNaN max = true ->
      Float64sMax max
      = Panicked (AssertionFailed "max should not be a NaN")) /\
     (max = fneg fInf_bits ->
      Float64sMax max
      = Panicked (AssertionFailed "invalid range [%v, %v]"))).
Proof.
  split; [reflexivity|]. split.
  - intros min Hx.
    pose proof (bits_of_sign_and_magnitude min Hx) as Hbits.
    pose proof (fabs_bits_range min) as Hr.
    unfold Float64sMin, Float64sRange, assertfThen.
    rewrite feq_refl_notNaN.
    change (feq MaxFloat64 MaxFloat64) with true.
    split; [split|split].
    + destruct (fisNaN min) eqn:Hn; [discriminate|]. cbn [negb].
      destruct (fle min MaxFloat64) eqn:Hle; [|discriminate].
      intros _. split; [reflexivity|]. intros ->. discriminate.
    + intros [Hn Hne]. rewrite Hn. cbn [negb].
      assert (Hle : fle min MaxFloat64 = true); [|now rewrite Hle].
      apply fle_true. repeat split; [assumption|].
      apply fisNaN_false in Hn.
      change (fkey MaxFloat64) with (fInf_bits - 1).
      unfold fkey, fInf_bits in *. destruct (fsign min); [lia|].
      destruct (Z.eq_dec (fabs_bits min) (2047 * 2 ^ 52)) as [E|E]; [|lia].
      exfalso. apply Hne. rewrite Hbits, E. reflexivity.
    + intros ->. reflexivity.
    + intros ->. reflexivity.
  - intros max Hx.
    pose proof (bits_of_sign_and_magnitude max Hx) as Hbits.
    pose proof (fabs_bits_range max) as Hr.
    unfold Float64sMax, Float64sRange, assertfThen.
    rewrite !feq_refl_notNaN.
    change (fisNaN (fneg MaxFloat64)) with false. cbn [negb].
    split; [split|split].
    + destruct (fisNaN max) eqn:Hn; [discriminate|]. cbn [negb].
      destruct (fle (fneg MaxFloat64) max) eqn:Hle; [|discriminate].
      intros _. split; [reflexivity|]. intros ->. discriminate.
    + intros [Hn Hne]. rewrite Hn. cbn [negb].
      assert (Hle : fle (fneg MaxFloat64) max = true); [|now rewrite Hle].
      apply fle_true. split; [reflexivity|]. split; [assumption|].
      apply fisNaN_false in Hn.
      change (fkey (fneg MaxFloat64)) with (- (fInf_bits - 1)).
      unfold fkey, fInf_bits in *. destruct (fsign max) eqn:Hs; [|lia].
      destruct (Z.eq_dec (fabs_bits max) (2047 * 2 ^ 52)) as [E|E]; [|lia].
      exfalso. apply Hne. rewrite Hbits, E. reflexivity.
    + intros ->. reflexivity.
    + intros ->. reflexivity.
Qed.

Lemma Float64s_one_bound_constructors_witness :
  Float64sMin fone
  = Built (mkFloatGen float64Type float64ExpBits float64SignifBits
                      fone MaxFloat64 (fneg MaxFloat64) MaxFloat64) /\
  Float64sMin fInf_bits
  = Panicked (AssertionFailed "invalid range [%v, %v]").
Proof.
  destruct Float64s_one_bound_constructors as (_ & Hmin & _).
  split.
  - apply (Hmin fone); [unfold fone; lia|]. split; [reflexivity|discriminate].
  - apply (Hmin fInf_bits); [unfold fInf_bits; lia|reflexivity].
Defined.

(** ** The printed name *)

(** The name of a generator is the shortest constructor call that builds
    it: [Float64s()] and [Float32s()] print as such; a generator made by
    [...Min(min)] or [...Max(max)] prints that call, unless the bound
    equals the default one, and then prints as [...s()]; with both bounds
    away from the defaults it prints as [...Range(min, max)].  For the
    narrow type the bound printed is its [float64] conversion. *)
Theorem floatGen_String_of_constructors (fmtG : float64 -> string) :
  (forall g, Float64s = Built g -> floatGen_String fmtG g = "Float64s()"%string) /\
  (forall g, Float32s = Built g -> floatGen_String fmtG g = "Float32s()"%string) /\
  (forall min g, Float64sMin min = Built g ->
     floatGen_String fmtG g
     = if feq min (fneg MaxFloat64) then "Float64s()"%string
       else ("Float64sMin(" ++ fmtG min ++ ")")%string) /\
  (forall max g, Float64sMax max = Built g ->
     floatGen_String fmtG g
     = if feq max MaxFloat64 then "Float64s()"%string
       else ("Float64sMax(" ++ fmtG max ++ ")")%string) /\
  (forall min g, Float32sMin min = Built g ->
     floatGen_String fmtG g
     = if feq (f32to64 min) (fneg MaxFloat32) then "Float32s()"%string
       else ("Float32sMin(" ++ fmtG (f32to64 min) ++ ")")%string) /\
  (forall max g, Float32sMax max = Built g ->
     floatGen_String fmtG g
     = if feq (f32to64 max) MaxFloat32 then "Float32s()"%string
       else ("Float32sMax(" ++ fmtG (f32to64 max) ++ ")")%string) /\
  (forall min max g, Float64sRange min max = Built g ->
     feq min (fneg MaxFloat64) = false -> feq max MaxFloat64 = false ->
     floatGen_String fmtG g
     = ("Float64sRange(" ++ fmtG min ++ ", " ++ fmtG max ++ ")")%string) /\
  (forall min max g, Float32sRange min max = Built g ->
     feq (f32to64 min) (fneg MaxFloat32) = false ->
     feq (f32to64 max) MaxFloat32 = false ->
     floatGen_String fmtG g
     = ("Float32sRange(" ++ fmtG (f32to64 min) ++ ", "
        ++ fmtG (f32to64 max) ++ ")")%string).
Proof.
  assert (H64 : forall min max g, Float64sRange min max = Built g ->
            g = mkFloatGen float64Type float64ExpBits float64SignifBits
                           min max (fneg MaxFloat64) MaxFloat64).
  { intros min max g. unfold Float64sRange, assertfThen.
    destruct (feq min min); [|discriminate].
    destruct (feq max max); [|discriminate].
    destruct (fle min max); [|discriminate]. now intros [= <-]. }
  assert (H32 : forall min max g, Float32sRange min max = Built g ->
            g = mkFloatGen float32Type float32ExpBits float32SignifBits
                           (f32to64 min) (f32to64 max)
                           (fneg MaxFloat32) MaxFloat32).
  { intros min max g. unfold Float32sRange, assertfThen.
    destruct (f32eq min min); [|discriminate].
    destruct (f32eq max max); [|discriminate].
    destruct (f32le min max); [|discriminate]. now intros [= <-]. }
  repeat apply conj.
  - intros g Hb. apply H64 in Hb. subst g. reflexivity.
  - intros g Hb. apply H32 in Hb. subst g. reflexivity.
  - intros min g Hb. apply H64 in Hb. subst g.
    unfold floatGen_String, fne. cbn [typ gmin gmax minVal maxVal].
    change (feq MaxFloat64 MaxFloat64) with true.
    destruct (feq min (fneg MaxFloat64)); reflexivity.
  - intros max g Hb. apply H64 in Hb. subst g.
    unfold floatGen_String, fne. cbn [typ gmin gmax minVal maxVal].
    change (feq (fneg MaxFloat64) (fneg MaxFloat64)) with true.
    destruct (feq max MaxFloat64); reflexivity.
  - intros min g Hb. apply H32 in Hb. subst g.
    unfold floatGen_String, fne. cbn [typ gmin gmax minVal maxVal].
    change (f32to64 MaxFloat32_bits32) with MaxFloat32.
    change (feq MaxFloat32 MaxFloat32) with true.
    destruct (feq (f32to64 min) (fneg MaxFloat32)); reflexivity.
  - intros max g Hb. apply H32 in Hb. subst g.
    unfold floatGen_String, fne. cbn [typ gmin gmax minVal maxVal].
    change (f32to64 (Z.lor MaxFloat32_bits32 (2 ^ 31))) with (fneg MaxFloat32).
    change (feq (fneg MaxFloat32) (fneg MaxFloat32)) with true.
    destruct (feq (f32to64 max) MaxFloat32); reflexivity.
  - intros min max g Hb Hmin Hmax. apply H64 in Hb. subst g.
    unfold floatGen_String, fne. cbn [typ gmin gmax minVal maxVal].
    rewrite Hmin, Hmax. reflexivity.
  - intros min max g Hb Hmin Hmax. apply H32 in Hb. subst g.
    unfold floatGen_String, fne. cbn [typ gmin gmax minVal maxVal].
    rewrite Hmin, Hmax. reflexivity.
Qed.

Lemma floatGen_String_of_constructors_witness :
  floatGen_String (fun _ => "1"%string)
    (mkFloatGen float64Type float64ExpBits float64SignifBits
                fone MaxFloat64 (fneg MaxFloat64) MaxFloat64)
  = "Float64sMin(1)"%string /\
  floatGen_String (fun _ => "1"%string)
    (mkFloatGen float64Type float64ExpBits float64SignifBits
                (fneg MaxFloat64) MaxFloat64 (fneg MaxFloat64) MaxFloat64)
  = "Float64s()"%string.
Proof.
  destruct (floatGen_String_of_constructors (fun _ => "1"%string))
    as (_ & _ & Hmin & _).
  split.
  - apply (Hmin fone). reflexivity.
  - apply (Hmin (fneg MaxFloat64)). reflexivity.
Defined.

(** ** Generators of the narrow type *)

Lemma f32_fields (x : float32) :
  0 <= x < 2 ^ 32 ->
  let u := x mod 2 ^ 31 in
  (x / 2 ^ 31 = 0 \/ x / 2 ^ 31 = 1) /\
  x = x / 2 ^ 31 * 2 ^ 31 + u /\
  0 <= u < 2 ^ 31 /\
  Z.land (Z.shiftr x 31) 1 = x / 2 ^ 31 /\
  Z.land (Z.shiftr x 23) 255 = u / 2 ^ 23 /\
  Z.land x (2 ^ 23 - 1) = u mod 2 ^ 23 /\
  f32abs_bits x = u /\
  f32sign x = negb (x / 2 ^ 31 =? 0).
Proof.
  intros Hx u.
  pose proof (Z.div_mod x (2 ^ 31) ltac:(lia)) as Hdm.
  pose proof (Z.mod_pos_bound x (2 ^ 31) ltac:(lia)) as Hu. fold u in Hdm, Hu.
  assert (Hq : 0 <= x / 2 ^ 31 < 2).
  { split; [apply Z.div_pos; lia|]. apply Z.div_lt_upper_bound; lia. }
  assert (Hs : x / 2 ^ 31 = 0 \/ x / 2 ^ 31 = 1) by lia.
  change (Z.land (Z.shiftr x 31) 1) with (Z.land (Z.shiftr x 31) (Z.ones 1)).
  change (Z.land (Z.shiftr x 23) 255)
    with (Z.land (Z.shiftr x 23) (Z.ones 8)).
  change (Z.land x (2 ^ 23 - 1)) with (Z.land x (Z.ones 23)).
  unfold f32abs_bits, f32sign.
  change (Z.land x (2 ^ 31 - 1)) with (Z.land x (Z.ones 31)).
  rewrite !Z.land_ones by lia. rewrite !Z.shiftr_div_pow2 by lia.
  fold u.
  assert (H23 : x / 2 ^ 23 = x / 2 ^ 31 * 2 ^ 8 + u / 2 ^ 23).
  { rewrite Hdm at 1.
    replace (2 ^ 31 * (x / 2 ^ 31)) with (x / 2 ^ 31 * 2 ^ 8 * 2 ^ 23) by lia.
    rewrite Z.add_comm, Z.div_add by lia. lia. }
  assert (Hu23 : 0 <= u / 2 ^ 23 < 2 ^ 8).
  { split; [apply Z.div_pos; lia|]. apply Z.div_lt_upper_bound; lia. }
  assert (Hm23 : x mod 2 ^ 23 = u mod 2 ^ 23).
  { unfold u. symmetry. apply Z.mod_mod_divide. exists (2 ^ 8). reflexivity. }
  assert (G1 : (x / 2 ^ 31) mod 2 ^ 1 = x / 2 ^ 31).
  { destruct Hs as [-> | ->]; reflexivity. }
  assert (G2 : (x / 2 ^ 23) mod 2 ^ 8 = u / 2 ^ 23).
  { rewrite H23, Z.add_comm, Z.mod_add by lia. apply Z.mod_small. lia. }
  assert (G3 : Z.testbit x 31 = negb (x / 2 ^ 31 =? 0)).
  { rewrite Z.testbit_odd, Z.shiftr_div_pow2 by lia.
    destruct Hs as [-> | ->]; reflexivity. }
  repeat split; try assumption; lia.
Qed.

Lemma f32to64_split (x : float32) :
  0 <= x < 2 ^ 32 ->
  f32to64 x = x / 2 ^ 31 * 2 ^ 63 + f32mag64 (x mod 2 ^ 31).
Proof.
  intros Hx.
  destruct (f32_fields x Hx) as (_ & _ & _ & F1 & F2 & F3 & _).
  cbv zeta in F1, F2, F3.
  unfold f32to64, f32mag64. rewrite F1, F2, F3.
  rewrite Z.shiftl_mul_pow2 by lia.
  destruct (_ =? 255); [destruct (_ =? 0); lia|].
  destruct (_ / 2 ^ 23 =? 0); [destruct (_ =? 0); lia|]. lia.
Qed.

Lemma subnormal_band (m : Z) :
  0 < m < 2 ^ 23 ->
  let l := Z.log2 m in
  0 <= l < 23 /\ 2 ^ l <= m < 2 ^ (l + 1) /\
  (l + 874) * 2 ^ 52 <= (l - 149 + 1023) * 2 ^ 52 + (m - 2 ^ l) * 2 ^ (52 - l)
    < (l + 875) * 2 ^ 52.
Proof.
  intros Hm l.
  pose proof (Z.log2_spec m ltac:(lia)) as Hl. fold l in Hl.
  pose proof (Z.log2_nonneg m) as Hl0. fold l in Hl0.
  assert (Hl23 : l < 23) by (apply Z.log2_lt_pow2; lia).
  replace (Z.succ l) with (l + 1) in Hl by lia.
  rewrite Z.pow_add_r, Z.pow_1_r in Hl by lia.
  pose proof (pow2_pos l Hl0) as Hp.
  pose proof (pow2_pos (52 - l) ltac:(lia)) as Hp'.
  pose proof (pow2_split l 52 ltac:(lia)) as Hs.
  repeat split; try lia.
  - rewrite Z.pow_add_r, Z.pow_1_r by lia. lia.
  - nia.
  - nia.
Qed.

Lemma f32mag64_bands (u : Z) :
  0 <= u < 2 ^ 31 ->
  (u = 0 -> f32mag64 u = 0) /\
  (0 < u < 2 ^ 23 -> 874 * 2 ^ 52 <= f32mag64 u < 897 * 2 ^ 52) /\
  (2 ^ 23 <= u < f32Inf_bits ->
   f32mag64 u = (u / 2 ^ 23 + 896) * 2 ^ 52 + u mod 2 ^ 23 * 2 ^ 29 /\
   1 <= u / 2 ^ 23 <= 254) /\
  (u = f32Inf_bits -> f32mag64 u = fInf_bits) /\
  (f32Inf_bits < u -> fInf_bits < f32mag64 u < 2 ^ 63).
Proof.
  intros Hu. unfold f32Inf_bits.
  pose proof (Z.div_mod u (2 ^ 23) ltac:(lia)) as Hdm.
  pose proof (Z.mod_pos_bound u (2 ^ 23) ltac:(lia)) as Hm.
  assert (Hq : 0 <= u / 2 ^ 23 < 2 ^ 8).
  { split; [apply Z.div_pos; lia|]. apply Z.div_lt_upper_bound; lia. }
  unfold f32mag64.
  repeat split.
  - intros ->. reflexivity.
  - destruct (Z.eqb_spec (u / 2 ^ 23) 255); [lia|].
    destruct (Z.eqb_spec (u / 2 ^ 23) 0); [|lia].
    destruct (Z.eqb_spec (u mod 2 ^ 23) 0); [lia|].
    destruct (subnormal_band (u mod 2 ^ 23) ltac:(lia)) as (Hl & _ & Hb).
    cbv zeta in Hl, Hb. nia.
  - destruct (Z.eqb_spec (u / 2 ^ 23) 255); [lia|].
    destruct (Z.eqb_spec (u / 2 ^ 23) 0); [|lia].
    destruct (Z.eqb_spec (u mod 2 ^ 23) 0); [lia|].
    destruct (subnormal_band (u mod 2 ^ 23) ltac:(lia)) as (Hl & _ & Hb).
    cbv zeta in Hl, Hb. nia.
  - destruct (Z.eqb_spec (u / 2 ^ 23) 255); [lia|].
    destruct (Z.eqb_spec (u / 2 ^ 23) 0); lia.
  - destruct (Z.eqb_spec (u / 2 ^ 23) 255); lia.
  - destruct (Z.eqb_spec (u / 2 ^ 23) 255); lia.
  - intros ->. reflexivity.
  - destruct (Z.eqb_spec (u / 2 ^ 23) 255); [|lia].
    destruct (Z.eqb_spec (u mod 2 ^ 23) 0); [lia|].
    assert (0 < Z.lor (2 ^ 51) (u mod 2 ^ 23 * 2 ^ 29)); [|lia].
    assert (0 <= Z.lor (2 ^ 51) (u mod 2 ^ 23 * 2 ^ 29))
      by (apply Z.lor_nonneg; lia).
    assert (Z.lor (2 ^ 51) (u mod 2 ^ 23 * 2 ^ 29) <> 0); [|lia].
    intros E. apply Z.lor_eq_0_iff in E. lia.
  - destruct (Z.eqb_spec (u / 2 ^ 23) 255); [|lia].
    destruct (Z.eqb_spec (u mod 2 ^ 23) 0); [lia|].
    assert (Z.lor (2 ^ 51) (u mod 2 ^ 23 * 2 ^ 29) < 2 ^ 52);
      [|unfold fInf_bits; lia].
    assert (Hnn : 0 <= Z.lor (2 ^ 51) (u mod 2 ^ 23 * 2 ^ 29))
      by (apply Z.lor_nonneg; lia).
    destruct (Z.eq_dec (Z.lor (2 ^ 51) (u mod 2 ^ 23 * 2 ^ 29)) 0) as [E|E];
      [lia|].
    apply Z.log2_lt_pow2; [lia|].
    rewrite Z.log2_lor by lia.
    assert (Z.log2 (u mod 2 ^ 23 * 2 ^ 29) < 52)
      by (apply Z.log2_lt_pow2; lia).
    change (Z.log2 (2 ^ 51)) with 51. lia.
Qed.

Lemma f32mag64_subnormal (u : Z) :
  0 < u < 2 ^ 23 ->
  f32mag64 u = (Z.log2 u - 149 + 1023) * 2 ^ 52
               + (u - 2 ^ Z.log2 u) * 2 ^ (52 - Z.log2 u).
Proof.
  intros Hu. unfold f32mag64.
  rewrite Z.div_small, Z.mod_small by lia.
  destruct (Z.eqb_spec u 0); [lia|]. reflexivity.
Qed.

Lemma subnormal_mono (m1 m2 : Z) :
  0 < m1 < m2 -> m2 < 2 ^ 23 -> f32mag64 m1 < f32mag64 m2.
Proof.
  intros H1 H2.
  rewrite !f32mag64_subnormal by lia.
  destruct (subnormal_band m1 ltac:(lia)) as (Hl1 & Hm1 & Hb1).
  destruct (subnormal_band m2 ltac:(lia)) as (Hl2 & Hm2 & Hb2).
  cbv zeta in *.
  pose proof (Z.log2_le_mono m1 m2 ltac:(lia)) as Hle.
  set (l1 := Z.log2 m1) in *. set (l2 := Z.log2 m2) in *.
  destruct (Z.eq_dec l1 l2) as [E|E].
  - rewrite E in *. pose proof (pow2_pos (52 - l2) ltac:(lia)). nia.
  - assert (l1 + 1 <= l2) by lia. nia.
Qed.

Lemma f32mag64_mono (u1 u2 : Z) :
  0 <= u1 < u2 -> u2 <= f32Inf_bits -> f32mag64 u1 < f32mag64 u2.
Proof.
  intros H1 H2. unfold f32Inf_bits in H2.
  destruct (f32mag64_bands u1 ltac:(lia)) as (Z1 & S1 & N1 & _ & _).
  destruct (f32mag64_bands u2 ltac:(lia)) as (_ & S2 & N2 & I2 & _).
  unfold f32Inf_bits, fInf_bits in *.
  pose proof (Z.div_mod u1 (2 ^ 23) ltac:(lia)) as D1.
  pose proof (Z.mod_pos_bound u1 (2 ^ 23) ltac:(lia)) as M1.
  pose proof (Z.div_mod u2 (2 ^ 23) ltac:(lia)) as D2.
  pose proof (Z.mod_pos_bound u2 (2 ^ 23) ltac:(lia)) as M2.
  destruct (Z.eq_dec u1 0) as [E1|E1].
  - rewrite (Z1 E1).
    destruct (Z.lt_ge_cases u2 (2 ^ 23)) as [L2|L2]; [specialize (S2 ltac:(lia)); lia|].
    destruct (Z.eq_dec u2 (255 * 2 ^ 23)) as [E2|E2];
      [rewrite (I2 E2); lia|].
    destruct (N2 ltac:(lia)) as [-> Hq]. nia.
  - destruct (Z.lt_ge_cases u1 (2 ^ 23)) as [L1|L1].
    + specialize (S1 ltac:(lia)).
      destruct (Z.lt_ge_cases u2 (2 ^ 23)) as [L2|L2];
        [apply subnormal_mono; lia|].
      destruct (Z.eq_dec u2 (255 * 2 ^ 23)) as [E2|E2];
        [rewrite (I2 E2); lia|].
      destruct (N2 ltac:(lia)) as [-> Hq]. nia.
    + destruct (N1 ltac:(lia)) as [-> Hq1].
      destruct (Z.eq_dec u2 (255 * 2 ^ 23)) as [E2|E2];
        [rewrite (I2 E2); nia|].
      destruct (N2 ltac:(lia)) as [-> Hq2].
      assert (u1 / 2 ^ 23 <= u2 / 2 ^ 23)
        by (apply Z.div_le_mono; lia).
      destruct (Z.eq_dec (u1 / 2 ^ 23) (u2 / 2 ^ 23)) as [Eq|Eq]; nia.
Qed.

Lemma f32mag64_range (u : Z) : 0 <= u < 2 ^ 31 -> 0 <= f32mag64 u < 2 ^ 63.
Proof.
  intros Hu.
  destruct (f32mag64_bands u Hu) as (Z0 & S & N & I & A).
  unfold f32Inf_bits, fInf_bits in *.
  destruct (Z.eq_dec u 0) as [E|E]; [rewrite (Z0 E); lia|].
  destruct (Z.lt_ge_cases u (2 ^ 23)) as [L|L]; [specialize (S ltac:(lia)); lia|].
  destruct (Z.lt_ge_cases u (255 * 2 ^ 23)) as [L'|L'].
  - destruct (N ltac:(lia)) as [-> Hq].
    pose proof (Z.mod_pos_bound u (2 ^ 23) ltac:(lia)). nia.
  - destruct (Z.eq_dec u (255 * 2 ^ 23)) as [E'|E']; [rewrite (I E'); lia|].
    specialize (A ltac:(lia)). lia.
Qed.

(** [float64(x)] keeps the sign and the NaNs, and its magnitude is
    [f32mag64] of the magnitude of [x]. *)
Lemma f32to64_parts (x : float32) :
  0 <= x < 2 ^ 32 ->
  fsign (f32to64 x) = f32sign x /\
  fabs_bits (f32to64 x) = f32mag64 (f32abs_bits x) /\
  fisNaN (f32to64 x) = f32isNaN x.
Proof.
  intros Hx. rewrite (f32to64_split x Hx).
  destruct (f32_fields x Hx) as (Hs & _ & Hu & _ & _ & _ & Ha & Hsg).
  cbv zeta in *. rewrite Ha, Hsg.
  pose proof (f32mag64_range (x mod 2 ^ 31) Hu) as Hr.
  set (mag := f32mag64 (x mod 2 ^ 31)) in *.
  assert (Hnan : (fInf_bits <? mag) = f32isNaN x).
  { unfold f32isNaN. rewrite Ha. fold mag.
    destruct (f32mag64_bands (x mod 2 ^ 31) Hu) as (Z0 & S & N & I & A).
    fold mag in Z0, S, N, I, A. unfold f32Inf_bits, fInf_bits in *.
    pose proof (Z.mod_pos_bound (x mod 2 ^ 31) (2 ^ 23) ltac:(lia)).
    destruct (Z.ltb_spec (255 * 2 ^ 23) (x mod 2 ^ 31)) as [L|L].
    - specialize (A L). apply Z.ltb_lt. lia.
    - apply Z.ltb_ge.
      destruct (Z.eq_dec (x mod 2 ^ 31) 0) as [E|E]; [rewrite (Z0 E); lia|].
      destruct (Z.lt_ge_cases (x mod 2 ^ 31) (2 ^ 23)) as [L1|L1];
        [specialize (S ltac:(lia)); lia|].
      destruct (Z.eq_dec (x mod 2 ^ 31) (255 * 2 ^ 23)) as [E'|E'];
        [rewrite (I E'); lia|].
      destruct (N ltac:(lia)) as [E2 Hq]. rewrite E2. nia. }
  destruct (positive_bits mag Hr) as (Pa & Ps & _).
  destruct Hs as [E|E]; rewrite E.
  - cbn [Z.mul Z.add Z.eqb negb]. unfold fisNaN. rewrite Pa. auto.
  - replace (1 * 2 ^ 63 + mag) with (fneg mag)
      by (rewrite fneg_positive by lia; lia).
    rewrite fsign_fneg, fabs_bits_fneg, fisNaN_fneg, Ps.
    unfold fisNaN. rewrite Pa. auto.
Qed.

(** The conversion preserves the order: Go's [a <= b] on two [float32]
    values is [<=] on their [float64] conversions. *)
Lemma f32to64_order (a b : float32) :
  0 <= a < 2 ^ 32 -> 0 <= b < 2 ^ 32 ->
  fle (f32to64 a) (f32to64 b) = f32le a b.
Proof.
  intros Ha Hb.
  destruct (f32to64_parts a Ha) as (Sa & Ma & Na).
  destruct (f32to64_parts b Hb) as (Sb & Mb & Nb).
  unfold fle, f32le, fkey, f32key. rewrite Sa, Sb, Ma, Mb, Na, Nb.
  destruct (f32isNaN a) eqn:NaNa; [reflexivity|].
  destruct (f32isNaN b) eqn:NaNb; [reflexivity|]. cbn [negb andb].
  unfold f32isNaN in NaNa, NaNb. apply Z.ltb_ge in NaNa, NaNb.
  assert (Ra : 0 <= f32abs_bits a < 2 ^ 31).
  { destruct (f32_fields a Ha) as (_ & _ & Hu & _ & _ & _ & E & _).
    cbv zeta in *. now rewrite E. }
  assert (Rb : 0 <= f32abs_bits b < 2 ^ 31).
  { destruct (f32_fields b Hb) as (_ & _ & Hu & _ & _ & _ & E & _).
    cbv zeta in *. now rewrite E. }
  set (ua := f32abs_bits a) in *. set (ub := f32abs_bits b) in *.
  pose proof (f32mag64_range ua Ra) as Ga.
  pose proof (f32mag64_range ub Rb) as Gb.
  assert (Hmono : forall u v, 0 <= u -> u <= f32Inf_bits ->
                    0 <= v -> v <= f32Inf_bits ->
                    (u <= v <-> f32mag64 u <= f32mag64 v)).
  { intros u v Hu0 Hu Hv0 Hv. split; intros H.
    - destruct (Z.eq_dec u v) as [->|Hne]; [lia|].
      pose proof (f32mag64_mono u v ltac:(lia) Hv). lia.
    - destruct (Z.le_gt_cases u v) as [|Hgt]; [assumption|].
      pose proof (f32mag64_mono v u ltac:(lia) Hu). lia. }
  assert (Hzero : forall u, 0 <= u -> u <= f32Inf_bits ->
                    (u = 0 <-> f32mag64 u = 0)).
  { intros u Hu0 Hu. split.
    - intros ->. reflexivity.
    - intros E. destruct (Z.eq_dec u 0) as [|Hne]; [assumption|].
      pose proof (f32mag64_mono 0 u ltac:(lia) Hu) as Hm.
      change (f32mag64 0) with 0 in Hm. lia. }
  pose proof (Hmono ua ub ltac:(lia) NaNa ltac:(lia) NaNb) as M1.
  pose proof (Hmono ub ua ltac:(lia) NaNb ltac:(lia) NaNa) as M2.
  pose proof (Hzero ua ltac:(lia) NaNa) as Z1.
  pose proof (Hzero ub ltac:(lia) NaNb) as Z2.
  destruct (f32sign a), (f32sign b);
    match goal with
    | |- (?x <=? ?y) = (?p <=? ?q) =>
        destruct (Z.leb_spec x y); destruct (Z.leb_spec p q)
    end; try reflexivity; exfalso; lia.
Qed.

Lemma rawExp_of_mag (f : float64) (q r : Z) :
  fabs_bits f = q * 2 ^ 52 + r -> 0 <= r < 2 ^ 52 -> rawExp f = q - 1023.
Proof.
  intros E Hr. unfold rawExp. rewrite E.
  rewrite Z.add_comm, Z.div_add by lia. rewrite Z.div_small by lia. lia.
Qed.

Lemma float32_band_tests (x : float32) :
  0 <= x < 2 ^ 32 ->
  lowerExact float32ExpBits float32SignifBits (f32to64 x)
  = (f32abs_bits x <? f32Inf_bits) /\
  upperNormal float32ExpBits (f32to64 x) = (2 ^ 23 <=? f32abs_bits x).
Proof.
  intros Hx.
  destruct (f32to64_parts x Hx) as (_ & Ma & _).
  destruct (f32_fields x Hx) as (_ & _ & Hu & _ & _ & _ & Ea & _).
  cbv zeta in *. rewrite <- Ea in Hu.
  set (u := f32abs_bits x) in *.
  destruct (f32mag64_bands u Hu) as (Z0 & S & N & I & A).
  pose proof (f32mag64_range u Hu) as Hr.
  unfold f32Inf_bits, fInf_bits in *.
  pose proof (Z.div_mod (f32mag64 u) (2 ^ 52) ltac:(lia)) as Hdm.
  pose proof (Z.mod_pos_bound (f32mag64 u) (2 ^ 52) ltac:(lia)) as Hm.
  assert (Hraw : rawExp (f32to64 x) = f32mag64 u / 2 ^ 52 - 1023).
  { unfold rawExp. now rewrite Ma. }
  assert (Hcases :
    (rawExp (f32to64 x) < -126 /\ u < 2 ^ 23) \/
    (-126 <= rawExp (f32to64 x) <= 127 /\ f32mag64 u mod 2 ^ 29 = 0 /\
     2 ^ 23 <= u < 255 * 2 ^ 23) \/
    (127 < rawExp (f32to64 x) /\ 255 * 2 ^ 23 <= u)).
  { rewrite Hraw.
    destruct (Z.eq_dec u 0) as [E|E].
    { left. rewrite (Z0 E), E. split; [reflexivity|lia]. }
    destruct (Z.lt_ge_cases u (2 ^ 23)) as [L|L].
    { left. specialize (S ltac:(lia)).
      assert (f32mag64 u / 2 ^ 52 < 897)
        by (apply Z.div_lt_upper_bound; lia). lia. }
    destruct (Z.lt_ge_cases u (255 * 2 ^ 23)) as [L'|L'].
    { right. left. destruct (N ltac:(lia)) as [EN Hq].
      pose proof (Z.mod_pos_bound u (2 ^ 23) ltac:(lia)) as Hmu.
      assert (Hq52 : f32mag64 u / 2 ^ 52 = u / 2 ^ 23 + 896).
      { rewrite EN. rewrite Z.add_comm, Z.div_add by lia.
        rewrite Z.div_small by lia. lia. }
      assert (Hm29 : f32mag64 u mod 2 ^ 29 = 0).
      { rewrite EN.
        replace ((u / 2 ^ 23 + 896) * 2 ^ 52 + u mod 2 ^ 23 * 2 ^ 29)
          with (((u / 2 ^ 23 + 896) * 2 ^ 23 + u mod 2 ^ 23) * 2 ^ 29) by lia.
        apply Z.mod_mul. lia. }
      lia. }
    right. right.
    assert (Hbig : 2047 <= f32mag64 u / 2 ^ 52).
    { apply Z.div_le_lower_bound; [lia|].
      destruct (Z.eq_dec u (255 * 2 ^ 23)) as [E'|E']; [rewrite (I E'); lia|].
      specialize (A ltac:(lia)). lia. }
    lia. }
  unfold lowerExact, upperNormal, float32ExpBits, float32SignifBits.
  change (expBias 8) with 127. change (52 - 23) with 29.
  rewrite Ma.
  set (r := rawExp (f32to64 x)) in *.
  set (t := f32mag64 u mod 2 ^ 29) in *.
  destruct Hcases as [[H1 H2]|[(H1 & H2 & H3)|[H1 H2]]].
  - split.
    + destruct (Z.ltb_spec r (- (127) + 1)); [|lia].
      cbn [orb]. symmetry. apply Z.ltb_lt. lia.
    + destruct (Z.leb_spec (- (127) + 1) r); [lia|].
      symmetry. apply Z.leb_gt. lia.
  - split.
    + destruct (Z.ltb_spec r (- (127) + 1)); [lia|].
      destruct (Z.leb_spec r 127); [|lia].
      rewrite H2. cbn. symmetry. apply Z.ltb_lt. lia.
    + destruct (Z.leb_spec (- (127) + 1) r); [|lia].
      symmetry. apply Z.leb_le. lia.
  - split.
    + destruct (Z.ltb_spec r (- (127) + 1)); [lia|].
      destruct (Z.leb_spec r 127); [lia|].
      cbn. symmetry. apply Z.ltb_ge. lia.
    + destruct (Z.leb_spec (- (127) + 1) r); [|lia].
      symmetry. apply Z.leb_le. lia.
Qed.

Lemma f32Exact_f64to32_range (f : float64) :
  f32Exact f -> 0 <= f64to32 f < 2 ^ 32.
Proof.
  intros (sgn & e & S & Hs & He & HS & ->).
  rewrite f64to32_exact by assumption. lia.
Qed.

Section Narrow32.
Context {D : Decoders} {FM : FloatMath} {DS : DecodersSpec D}.

(** A generator built by [Float32sRange(min, max)] yields [float32]
    values inside [[min, max]] whenever, in each sub-range that can be
    drawn, the bound nearer to zero is finite and the farther one has
    magnitude at least the smallest normal [float32], [2^-126]. *)
Theorem Float32sRange_values_in_range (min max : float32) (g : floatGen)
        (s : bitStream) (val : Value) (s' : bitStream) :
  0 <= min < 2 ^ 32 -> 0 <= max < 2 ^ 32 ->
  Float32sRange min max = Built g ->
  (if f32le 0 min
   then (f32abs_bits min <? f32Inf_bits) && (2 ^ 23 <=? f32abs_bits max)
   else if f32le max 0
   then (f32abs_bits max <? f32Inf_bits) && (2 ^ 23 <=? f32abs_bits min)
   else (2 ^ 23 <=? f32abs_bits min) && (2 ^ 23 <=? f32abs_bits max)) = true ->
  value g s = Ok val s' ->
  exists r,
    val = VFloat32 r /\ 0 <= r < 2 ^ 32 /\
    f32le min r = true /\ f32le r max = true.
Proof.
  intros Hmin Hmax Hb Hdec Hrun.
  unfold Float32sRange, assertfThen in Hb.
  destruct (f32eq min min); [|discriminate].
  destruct (f32eq max max); [|discriminate].
  destruct (f32le min max) eqn:Hle; [|discriminate].
  injection Hb as <-.
  unfold value, bind in Hrun. cbn [typ gmin gmax expBits signifBits] in Hrun.
  destruct (genFloatRange (f32to64 min) (f32to64 max)
                          float32ExpBits float32SignifBits s)
    as [f s1|] eqn:Hf; [|discriminate].
  unfold ret in Hrun. injection Hrun as <- <-.
  pose proof (genFloatRange_f32Exact _ _ _ _ _ Hf) as Hex.
  destruct (f32Exact_facts f Hex) as (_ & _ & Hback).
  pose proof (f32Exact_f64to32_range f Hex) as Hr.
  assert (Hin : fle (f32to64 min) f = true /\ fle f (f32to64 max) = true).
  { apply (genFloatRange_decodable_bounds (f32to64 min) (f32to64 max)
             float32ExpBits float32SignifBits s f s1); try assumption.
    - unfold valid_widths, float32ExpBits, float32SignifBits. lia.
    - now rewrite f32to64_order.
    - unfold rangeDecodable, fge.
      change fzero with (f32to64 0).
      rewrite !f32to64_order by lia.
      destruct (float32_band_tests min Hmin) as [-> ->].
      destruct (float32_band_tests max Hmax) as [-> ->].
      exact Hdec. }
  exists (f64to32 f). split; [reflexivity|]. split; [assumption|].
  rewrite <- (f32to64_order min (f64to32 f)) by assumption.
  rewrite <- (f32to64_order (f64to32 f) max) by assumption.
  rewrite Hback. exact Hin.
Qed.

End Narrow32.

Lemma Float32sRange_values_in_range_witness :
  exists r,
    VFloat32 (f64to32 4062246863888187392) = VFloat32 r /\
    0 <= r < 2 ^ 32 /\
    f32le 0 r = true /\ f32le r 1065353216 = true.
Proof.
  apply (@Float32sRange_values_in_range Reference.decoders
           Reference.floatMath reference_decodersSpec 0 1065353216
           (mkFloatGen float32Type float32ExpBits float32SignifBits
                       (f32to64 0) (f32to64 1065353216)
                       (fneg MaxFloat32) MaxFloat32)
           (Reference.replay [5; 0])
           (VFloat32 (f64to32 4062246863888187392))
           (mkStream [5; 0] 2
              [EvBegin 0 floatExpLabel false; EvEnd 0 false;
               EvBegin 1 floatSignifLabel false; EvEnd 1 false])).
  - lia.
  - lia.
  - reflexivity.
  - reflexivity.
  - vm_compute. reflexivity.
Defined.

(** ** The narrow constructors with one bound *)

Lemma f32_bits_of_sign_and_magnitude (x : float32) :
  0 <= x < 2 ^ 32 ->
  x = (if f32sign x then 2 ^ 31 else 0) + f32abs_bits x /\
  0 <= f32abs_bits x < 2 ^ 31.
Proof.
  intros Hx.
  destruct (f32_fields x Hx) as (Hs & Hdm & Hu & _ & _ & _ & Ea & Hsg).
  cbv zeta in *. rewrite Ea, Hsg. split; [|exact Hu].
  destruct Hs as [E|E]; rewrite E in *; cbn [Z.eqb negb]; lia.
Qed.

(** [Float32sMin(min)] builds its generator unless [min] is a NaN or
    [+Inf] (above [MaxFloat32], so the range is inverted);
    [Float32sMax(max)] unless [max] is a NaN or [-Inf]; [Float32s()]
    always builds. *)
Theorem Float32s_one_bound_constructors :
  Float32s
  = Built (mkFloatGen float32Type float32ExpBits float32SignifBits
                      (fneg MaxFloat32) MaxFloat32
                      (fneg MaxFloat32) MaxFloat32) /\
  (forall min, 0 <= min < 2 ^ 32 ->
     (Float32sMin min
      = Built (mkFloatGen float32Type float32ExpBits float32SignifBits
                          (f32to64 min) MaxFloat32
                          (fneg MaxFloat32) MaxFloat32)
      <-> f32isNaN min = false /\ min <> f32Inf_bits) /\
     (f32isNaN min = true ->
      Float32sMin min
      = Panicked (AssertionFailed "min should not be a NaN")) /\
     (min = f32Inf_bits ->
      Float32sMin min
      = Panicked (AssertionFailed "invalid range [%v, %v]"))) /\
  (forall max, 0 <= max < 2 ^ 32 ->
     (Float32sMax max
      = Built (mkFloatGen float32Type float32ExpBits float32SignifBits
                          (fneg MaxFloat32) (f32to64 max)
                          (fneg MaxFloat32) MaxFloat32)
      <-> f32isNaN max = false /\ max <> 2 ^ 31 + f32Inf_bits) /\
     (f32isNaN max = true ->
      Float32sMax max
      = Panicked (AssertionFailed "max should not be a NaN")) /\
     (max = 2 ^ 31 + f32Inf_bits ->
      Float32sMax max
      = Panicked (AssertionFailed "invalid range [%v, %v]"))).
Proof.
  split; [reflexivity|]. split.
  - intros min Hx.
    destruct (f32_bits_of_sign_and_magnitude min Hx) as [Hbits Hr].
    unfold Float32sMin, Float32sRange, assertfThen.
    rewrite f32eq_refl_notNaN.
    change (f32eq MaxFloat32_bits32 MaxFloat32_bits32) with true.
    change (f32to64 MaxFloat32_bits32) with MaxFloat32.
    split; [split|split].
    + destruct (f32isNaN min) eqn:Hn; [discriminate|]. cbn [negb].
      destruct (f32le min MaxFloat32_bits32) eqn:Hle; [|discriminate].
      intros _. split; [reflexivity|]. intros ->. discriminate.
    + intros [Hn Hne]. rewrite Hn. cbn [negb].
      assert (Hle : f32le min MaxFloat32_bits32 = true); [|now rewrite Hle].
      unfold f32le. rewrite Hn.
      change (f32isNaN MaxFloat32_bits32) with false. cbn [negb andb].
      apply Z.leb_le.
      change (f32key MaxFloat32_bits32) with (255 * 2 ^ 23 - 1).
      unfold f32isNaN in Hn. apply Z.ltb_ge in Hn.
      unfold f32key, f32Inf_bits in *. destruct (f32sign min); [lia|].
      destruct (Z.eq_dec (f32abs_bits min) (255 * 2 ^ 23)) as [E|E]; [|lia].
      exfalso. apply Hne. rewrite Hbits, E. reflexivity.
    + intros ->. reflexivity.
    + intros ->. reflexivity.
  - intros max Hx.
    destruct (f32_bits_of_sign_and_magnitude max Hx) as [Hbits Hr].
    unfold Float32sMax, Float32sRange, assertfThen.
    rewrite !f32eq_refl_notNaN.
    change (f32isNaN (Z.lor MaxFloat32_bits32 (2 ^ 31))) with false.
    cbn [negb].
    change (f32to64 (Z.lor MaxFloat32_bits32 (2 ^ 31))) with (fneg MaxFloat32).
    split; [split|split].
    + destruct (f32isNaN max) eqn:Hn; [discriminate|]. cbn [negb].
      destruct (f32le (Z.lor MaxFloat32_bits32 (2 ^ 31)) max) eqn:Hle;
        [|discriminate].
      intros _. split; [reflexivity|]. intros ->. discriminate.
    + intros [Hn Hne]. rewrite Hn. cbn [negb].
      assert (Hle : f32le (Z.lor MaxFloat32_bits32 (2 ^ 31)) max = true);
        [|now rewrite Hle].
      unfold f32le. rewrite Hn.
      change (f32isNaN (Z.lor MaxFloat32_bits32 (2 ^ 31))) with false.
      cbn [negb andb]. apply Z.leb_le.
      change (f32key (Z.lor MaxFloat32_bits32 (2 ^ 31)))
        with (- (255 * 2 ^ 23 - 1)).
      unfold f32isNaN in Hn. apply Z.ltb_ge in Hn.
      unfold f32key, f32Inf_bits in *. destruct (f32sign max); [|lia].
      destruct (Z.eq_dec (f32abs_bits max) (255 * 2 ^ 23)) as [E|E]; [|lia].
      exfalso. apply Hne. rewrite Hbits, E. reflexivity.
    + intros ->. reflexivity.
    + intros ->. reflexivity.
Qed.

Lemma Float32s_one_bound_constructors_witness :
  Float32sMin 1065353216
  = Built (mkFloatGen float32Type float32ExpBits float32SignifBits
                      (f32to64 1065353216) MaxFloat32
                      (fneg MaxFloat32) MaxFloat32) /\
  Float32sMin f32Inf_bits
  = Panicked (AssertionFailed "invalid range [%v, %v]").
Proof.
  destruct Float32s_one_bound_constructors as (_ & Hmin & _).
  split.
  - apply (Hmin 1065353216); [lia|]. split; [reflexivity|discriminate].
  - apply (Hmin f32Inf_bits); [unfold f32Inf_bits; lia|reflexivity].
Defined.

(** ** The significand split, and the conversions there and back *)

(** For every bit pattern (NaN and infinities included), [ufloatParts]
    splits the top [signifBits] bits of the fraction field without loss:
    the integer part has [signifBits - n] bits and the fractional part
    [n], where [n] is [ufloatFracBits] of the clamped exponent, and
    together they spell those bits. *)
Theorem ufloatParts_split_is_lossless (f : float64) (eb sb : Z) :
  valid_widths eb sb ->
  let '(e, si, sf) := ufloatParts f eb sb in
  let n := ufloatFracBits e sb in
  0 <= n <= sb /\
  0 <= si < 2 ^ (sb - n) /\ 0 <= sf < 2 ^ n /\
  si * 2 ^ n + sf = (fabs_bits f mod 2 ^ 52) / 2 ^ (52 - sb).
Proof.
  intros Hw. pose proof Hw as [Heb Hsb].
  rewrite ufloatParts_eq by assumption. cbv beta iota zeta.
  pose proof (clampExp_range eb f Heb) as Hc.
  pose proof (expBias_range eb Heb) as Hb.
  pose proof (ufloatFracBits_range (clampExp eb f) sb ltac:(lia) Hsb) as Hn.
  set (n := ufloatFracBits (clampExp eb f) sb) in *.
  pose proof (cutSignif_range sb f Hsb) as HS.
  fold (cutSignif sb f).
  pose proof (pow2_pos n ltac:(lia)) as Hp.
  pose proof (pow2_split n sb ltac:(lia)) as Hs.
  pose proof (Z.div_mod (cutSignif sb f) (2 ^ n) ltac:(lia)) as Hdm.
  pose proof (Z.mod_pos_bound (cutSignif sb f) (2 ^ n) Hp) as Hm.
  repeat split; try lia.
  - apply Z.div_pos; lia.
  - apply Z.div_lt_upper_bound; lia.
Qed.

Lemma ufloatParts_split_is_lossless_witness :
  let '(e, si, sf) := ufloatParts 4612811918334230528 8 23 in
  let n := ufloatFracBits e 23 in
  0 <= n <= 23 /\
  0 <= si < 2 ^ (23 - n) /\ 0 <= sf < 2 ^ n /\
  si * 2 ^ n + sf = (fabs_bits 4612811918334230528 mod 2 ^ 52) / 2 ^ (52 - 23).
Proof.
  apply (ufloatParts_split_is_lossless 4612811918334230528 8 23).
  unfold valid_widths. lia.
Defined.

Lemma fields_of_sign_and_magnitude (sgn mag : Z) :
  (sgn = 0 \/ sgn = 1) -> 0 <= mag < 2 ^ 63 ->
  let f := sgn * 2 ^ 63 + mag in
  Z.land (Z.shiftr f 63) 1 = sgn /\
  Z.land (Z.shiftr f 52) 2047 = mag / 2 ^ 52 /\
  Z.land f (2 ^ 52 - 1) = mag mod 2 ^ 52.
Proof.
  intros Hs Hm f.
  change (Z.land (Z.shiftr f 63) 1) with (Z.land (Z.shiftr f 63) (Z.ones 1)).
  change (Z.land (Z.shiftr f 52) 2047)
    with (Z.land (Z.shiftr f 52) (Z.ones 11)).
  change (Z.land f (2 ^ 52 - 1)) with (Z.land f (Z.ones 52)).
  rewrite !Z.land_ones by lia. rewrite !Z.shiftr_div_pow2 by lia.
  assert (H63 : f / 2 ^ 63 = sgn).
  { unfold f. rewrite Z.add_comm, Z.div_add by lia.
    rewrite Z.div_small by lia. lia. }
  assert (Hq : 0 <= mag / 2 ^ 52 < 2 ^ 11).
  { split; [apply Z.div_pos; lia|]. apply Z.div_lt_upper_bound; lia. }
  assert (H52 : f / 2 ^ 52 = sgn * 2 ^ 11 + mag / 2 ^ 52).
  { unfold f.
    replace (sgn * 2 ^ 63) with (sgn * 2 ^ 11 * 2 ^ 52) by lia.
    rewrite Z.add_comm, Z.div_add by lia. lia. }
  assert (Hm52 : f mod 2 ^ 52 = mag mod 2 ^ 52).
  { unfold f.
    replace (sgn * 2 ^ 63) with (sgn * 2 ^ 11 * 2 ^ 52) by lia.
    rewrite Z.add_comm, Z.mod_add by lia. reflexivity. }
  rewrite H63, H52, Hm52. repeat split.
  - destruct Hs as [-> | ->]; reflexivity.
  - rewrite Z.add_comm, Z.mod_add by lia. apply Z.mod_small. lia.
Qed.

Lemma f64to32_of_subnormal (sgn m : Z) :
  (sgn = 0 \/ sgn = 1) -> 0 < m < 2 ^ 23 ->
  f64to32 (sgn * 2 ^ 63 + f32mag64 m) = sgn * 2 ^ 31 + m.
Proof.
  intros Hs Hm.
  rewrite f32mag64_subnormal by assumption.
  destruct (subnormal_band m Hm) as (Hl & Hml & Hb). cbv zeta in *.
  set (l := Z.log2 m) in *.
  pose proof (pow2_pos l ltac:(lia)) as Hpl.
  pose proof (pow2_pos (52 - l) ltac:(lia)) as Hp.
  pose proof (pow2_split l 52 ltac:(lia)) as Hsp.
  set (frac := (m - 2 ^ l) * 2 ^ (52 - l)) in *.
  assert (Hfrac : 0 <= frac < 2 ^ 52) by (unfold frac; nia).
  set (mag := (l - 149 + 1023) * 2 ^ 52 + frac) in *.
  assert (Hmag : 0 <= mag < 2 ^ 63) by (unfold mag; lia).
  destruct (fields_of_sign_and_magnitude sgn mag Hs Hmag) as (F1 & F2 & F3).
  cbv zeta in F1, F2, F3.
  assert (Hq : mag / 2 ^ 52 = l + 874).
  { unfold mag. rewrite Z.add_comm, Z.div_add by lia.
    rewrite Z.div_small by lia. lia. }
  assert (Hr : mag mod 2 ^ 52 = frac).
  { unfold mag. rewrite Z.add_comm, Z.mod_add by lia.
    apply Z.mod_small. lia. }
  unfold f64to32. rewrite F1, F2, F3, Hq, Hr.
  rewrite Z.shiftl_mul_pow2 by lia.
  destruct (Z.eqb_spec (l + 874) 2047); [lia|].
  destruct (Z.eqb_spec (l + 874) 0); [lia|].
  assert (HM : 2 ^ 52 + frac = m * 2 ^ (52 - l)) by (unfold frac; lia).
  destruct (Z.eqb_spec (2 ^ 52 + frac) 0); [lia|].
  assert (Hlog : Z.log2 (2 ^ 52 + frac) = 52) by (apply Z.log2_unique; lia).
  rewrite Hlog.
  replace (Z.max (l + 874 - 1075 + 52 - 23) (-149)) with (-149) by lia.
  replace (-149 - (l + 874 - 1075)) with (52 - l) by lia.
  rewrite HM, Z.div_mul, Z.mod_mul by lia.
  pose proof (pow2_pos (52 - l - 1) ltac:(lia)) as Hh.
  destruct (Z.ltb_spec (2 ^ (52 - l - 1)) 0); [lia|].
  destruct (Z.eqb_spec 0 (2 ^ (52 - l - 1))); [lia|]. cbn [orb andb].
  destruct (Z.leb_spec f32Inf_bits ((-149 + 149) * 2 ^ 23 + m)) as [Hi|Hi].
  - unfold f32Inf_bits in Hi. lia.
  - lia.
Qed.

(** Converting a [float32] that is not a NaN to [float64], as
    [Float32sRange] does with its bounds, and back, as [value] does with
    the draw, gives the same [float32]. *)
Theorem f32to64_then_f64to32 (x : float32) :
  0 <= x < 2 ^ 32 -> f32isNaN x = false ->
  f64to32 (f32to64 x) = x.
Proof.
  intros Hx Hn.
  rewrite (f32to64_split x Hx).
  destruct (f32_fields x Hx) as (Hs & Hdm & Hu & _ & _ & _ & Ea & _).
  cbv zeta in *. unfold f32isNaN in Hn. rewrite Ea in Hn.
  apply Z.ltb_ge in Hn. unfold f32Inf_bits in Hn.
  set (u := x mod 2 ^ 31) in *. set (sgn := x / 2 ^ 31) in *.
  transitivity (sgn * 2 ^ 31 + u); [|symmetry; exact Hdm].
  destruct (f32mag64_bands u Hu) as (Z0 & _ & N & I & _).
  unfold f32Inf_bits in *.
  destruct (Z.eq_dec u 0) as [E|E].
  { rewrite (Z0 E), E. destruct Hs as [-> | ->]; reflexivity. }
  destruct (Z.lt_ge_cases u (2 ^ 23)) as [L|L].
  { rewrite f64to32_of_subnormal by lia. reflexivity. }
  destruct (Z.eq_dec u (255 * 2 ^ 23)) as [E'|E'].
  { rewrite (I E'), E'. destruct Hs as [-> | ->]; reflexivity. }
  destruct (N ltac:(lia)) as [EN Hq].
  pose proof (Z.div_mod u (2 ^ 23) ltac:(lia)) as Hdu.
  pose proof (Z.mod_pos_bound u (2 ^ 23) ltac:(lia)) as Hmu.
  rewrite EN.
  replace (sgn * 2 ^ 63 + ((u / 2 ^ 23 + 896) * 2 ^ 52 + u mod 2 ^ 23 * 2 ^ 29))
    with (sgn * 2 ^ 63 + ((u / 2 ^ 23 - 127) + 1023) * 2 ^ 52
          + u mod 2 ^ 23 * 2 ^ 29) by lia.
  rewrite f64to32_exact by lia. lia.
Qed.

Lemma f32to64_then_f64to32_witness :
  f64to32 (f32to64 2147483649) = 2147483649.
Proof.
  apply (f32to64_then_f64to32 2147483649); [lia|reflexivity].
Defined.
